(** * cargo-doc-mcp: the documentation cache, the status coordinator,
      the tree indexer and the search, embedded from [src/cache.ts] and
      [src/doc-manager.ts].

    Strings are the bytes of the UTF-8 encoding of the JavaScript strings.
    Everything the program obtains from outside (the clock, the file system,
    the [cargo] subprocess, Node's [path] module and the string functions of
    the runtime) is read from an environment record; every effect the
    program performs is appended to a trace kept in the state. *)

From Stdlib Require Import ZArith QArith Qround String Ascii List Lia Sorted
  Permutation.
From stdpp Require Import base gmap strings list.

Import ListNotations.
Local Open Scope string_scope.
Local Open Scope Z_scope.
Local Open Scope list_scope.

(** ** Data model ([src/types.ts]) *)

Record DocCacheEntry := mkEntry {
  crateName : string;
  projectPath : string;
  docPath : string;
  lastBuildTime : Z;
  isBuilt : bool
}.

(** [{...entry, lastBuildTime: t}] *)
Definition with_lastBuildTime (entry : DocCacheEntry) (t : Z) : DocCacheEntry :=
  mkEntry (crateName entry) (projectPath entry) (docPath entry) t (isBuilt entry).

(** [CacheStorage] is an object used as a map from keys to entries. *)
Abbreviation CacheStorage := (gmap string DocCacheEntry).

Inductive SymbolType :=
  | STRUCT | ENUM | TRAIT | FUNCTION | CONST | TYPE | MACRO | MODULE.

Record SymbolInfo := mkSymbol {
  sym_name : string;
  sym_type : SymbolType;
  sym_path : string;
  sym_url : string
}.

(** The results pushed by [searchDoc] carry a title and a url only. *)
Record SearchResult := mkResult {
  res_title : string;
  res_url : string
}.

(** A JavaScript [number]: [NaN], an infinity, or a finite value. The
    finite doubles are rationals, and a number is used here only to be
    tested for truth and compared with an array length, so that a finite
    value is taken to be any rational; [-0] is [0]. *)
Inductive JsNumber :=
  | JsNaN
  | JsInfinity
  | JsNegInfinity
  | JsNum (q : Q).

(** An integer as a number. *)
Definition of_int (z : Z) : JsNumber := JsNum (inject_Z z).

(** [limit?: number]; [None] is [undefined]. *)
Record SearchOptions := mkOptions { limit : option JsNumber }.

Inductive DocErrorCode :=
  | INVALID_PATH | BUILD_FAILED | SEARCH_FAILED | CACHE_ERROR | CARGO_ERROR.

(** What a [throw] carries: a [DocError] with its code, or an error raised
    by the runtime ([fs], [execa], [JSON.parse]). The [details] of a
    [DocError] are diagnostic only and are left out. *)
Inductive Exn :=
  | DocError (code : DocErrorCode)
  | SysError.

(** ** The outside world *)

(** What [fs.readdir(dir, {withFileTypes: true})] reports, with the
    listings of the subdirectories: the documentation tree is acyclic.
    [isDirectory()] is true for [Dir] and [BrokenDir] only; [BrokenDir] is a
    directory whose [readdir] fails. *)
#[local] Set Warnings "-register-all".

Inductive Dirent :=
  | File (name : string)
  | Dir (name : string) (entries : list Dirent)
  | BrokenDir (name : string).

Definition dirent_name (d : Dirent) : string :=
  match d with
  | File n => n
  | Dir n _ => n
  | BrokenDir n => n
  end.

Record Env := mkEnv {
  (* Node's path module *)
  path_join : list string -> string;
  path_dirname : string -> string;
  path_basename : string -> string -> string;
  (* String.prototype.toLowerCase and String.prototype.localeCompare *)
  toLowerCase : string -> string;
  localeCompare : string -> string -> Z;
  (* the n-th reading of Date.now() *)
  date_now : nat -> Z;
  (* whether the n-th fs.writeFile of the store file succeeds *)
  write_ok : nat -> bool;
  (* fs.access(path) succeeds *)
  fs_access : string -> bool;
  (* fs.readdir on the root of a traversal; None when it fails *)
  fs_readdir : string -> option (list Dirent);
  (* fs.readFile(path, 'utf-8'); None when it fails *)
  fs_readFile : string -> option string;
  (* cargo metadata in cwd: the target_directory of its output, None when
     the command exits non-zero or its output does not parse *)
  cargo_metadata : string -> option string;
  (* cargo <args> in cwd exits with code 0 *)
  cargo_run : string -> list string -> bool
}.

Inductive Event :=
  | EvAccess (path : string)
  | EvMetadata (cwd : string)
  | EvCargo (cwd : string) (args : list string)
  | EvReaddir (dir : string)
  | EvReadFile (path : string)
  | EvWriteStore (contents : CacheStorage).

Record World := mkWorld {
  cache : CacheStorage;      (* this.cache of the DocCache *)
  store : CacheStorage;      (* the contents of the store file *)
  clock_reads : nat;         (* Date.now() readings made so far *)
  writes : nat;              (* writes of the store file attempted so far *)
  trace : list Event         (* effects performed, oldest first *)
}.

(** ** A state and exception monad for the asynchronous methods *)

Definition M (A : Type) : Type := World -> (Exn + A) * World.

Definition ret {A} (a : A) : M A := fun w => (inr a, w).

Definition throw {A} (e : Exn) : M A := fun w => (inl e, w).

Definition bind {A B} (m : M A) (k : A -> M B) : M B :=
  fun w =>
    match m w with
    | (inr a, w') => k a w'
    | (inl e, w') => (inl e, w')
    end.

(** [try { m } catch (e) { h e }]: the state reached at the throw is kept. *)
Definition try_catch {A} (m : M A) (h : Exn -> M A) : M A :=
  fun w =>
    match m w with
    | (inl e, w') => h e w'
    | r => r
    end.

Notation "'let*' x ':=' m 'in' k" := (bind m (fun x => k))
  (at level 10, x name, m at level 100, k at level 200).
Notation "m1 ;;; m2" := (bind m1 (fun _ => m2))
  (at level 100, m2 at level 200, right associativity).

Definition emit (ev : Event) : M unit :=
  fun w => (inr tt, mkWorld (cache w) (store w) (clock_reads w) (writes w)
                            (trace w ++ [ev])%list).

Definition Date_now (env : Env) : M Z :=
  fun w => (inr (date_now env (clock_reads w)),
            mkWorld (cache w) (store w) (S (clock_reads w)) (writes w) (trace w)).

Definition read_cache : M CacheStorage := fun w => (inr (cache w), w).

Definition write_cache (c : CacheStorage) : M unit :=
  fun w => (inr tt, mkWorld c (store w) (clock_reads w) (writes w) (trace w)).

(** [fs.writeFile(this.cachePath, JSON.stringify(this.cache))] *)
Definition fs_writeStore (env : Env) : M unit :=
  fun w =>
    if write_ok env (writes w) then
      (inr tt, mkWorld (cache w) (cache w) (clock_reads w) (S (writes w))
                       (trace w ++ [EvWriteStore (cache w)])%list)
    else
      (inl SysError, mkWorld (cache w) (store w) (clock_reads w) (S (writes w))
                             (trace w)).

Definition access (env : Env) (p : string) : M unit :=
  emit (EvAccess p) ;;;
  if fs_access env p then ret tt else throw SysError.

Definition readFile (env : Env) (p : string) : M string :=
  emit (EvReadFile p) ;;;
  match fs_readFile env p with
  | Some s => ret s
  | None => throw SysError
  end.

Definition execa_metadata (env : Env) (cwd : string) : M string :=
  emit (EvMetadata cwd) ;;;
  match cargo_metadata env cwd with
  | Some dir => ret dir
  | None => throw SysError
  end.

Definition execa_cargo (env : Env) (cwd : string) (args : list string) : M unit :=
  emit (EvCargo cwd args) ;;;
  if cargo_run env cwd args then ret tt else throw SysError.

(** ** The artifact cache ([src/cache.ts]) *)

Module DocCache.

Definition CACHE_TTL : Z := 24 * 60 * 60 * 1000.

Definition save (env : Env) : M unit :=
  try_catch (fs_writeStore env) (fun _ => throw (DocError CACHE_ERROR)).

(** A key always holds a colon, so it is never the name of a property that
    the store object inherits: a lookup sees the entries only. *)
Definition getCacheKey (projectPath crateName : string) : string :=
  projectPath +:+ ":" +:+ crateName.

Definition get (env : Env) (projectPath crateName : string)
  : M (option DocCacheEntry) :=
  let key := getCacheKey projectPath crateName in
  let* c := read_cache in
  match c !! key with
  | None => ret None
  | Some entry =>
      let* now := Date_now env in
      if now - lastBuildTime entry >? CACHE_TTL then
        let* c' := read_cache in
        write_cache (delete key c') ;;;
        save env ;;;
        ret None
      else ret (Some entry)
  end.

Definition set (env : Env) (entry : DocCacheEntry) : M unit :=
  let key := getCacheKey (projectPath entry) (crateName entry) in
  let* now := Date_now env in
  let* c := read_cache in
  write_cache (<[key := with_lastBuildTime entry now]> c) ;;;
  save env.

Definition remove (env : Env) (projectPath crateName : string) : M unit :=
  let key := getCacheKey projectPath crateName in
  let* c := read_cache in
  write_cache (delete key c) ;;;
  save env.

(** [cleanup]: one reading of the clock, then the loop over
    [Object.entries(this.cache)] that deletes the expired entries and notes
    whether it deleted any. *)
Definition cleanup_step (now : Z) (acc : CacheStorage * bool)
  (kv : string * DocCacheEntry) : CacheStorage * bool :=
  if now - lastBuildTime (snd kv) >? CACHE_TTL
  then (delete (fst kv) (fst acc), true)
  else acc.

Definition cleanup (env : Env) : M unit :=
  let* now := Date_now env in
  let* c := read_cache in
  let r := fold_left (cleanup_step now) (map_to_list c) (c, false) in
  write_cache (fst r) ;;;
  if snd r then save env else ret tt.

(** What [fs.readFile(this.cachePath)] followed by [JSON.parse] gives when
    the cache is initialised: no such file (the error code is [ENOENT]), a
    read that fails otherwise, a content that [JSON.parse] rejects, or the
    object stored, a [CacheStorage] as [save] writes it. [JSON.parse]
    returns [any]: a file with other JSON ([null], a number, an object with
    a [null] entry) gives a value that is not of the type declared for
    [this.cache], and is not among these readings. *)
Inductive StoreRead :=
  | NoSuchFile
  | ReadFails
  | ParseFails
  | Parsed (c : CacheStorage).

(** [initialize]. The [catch] looks at the [code] of what it caught: only
    the [ENOENT] of the read leads to the empty cache; a failed read, a
    failed parse and the [DocError] of a failed save in [cleanup] (whose
    [code] is [CACHE_ERROR]) are thrown anew as [CACHE_ERROR], and the cache
    is then left as it was at the throw. *)
Definition initialize (env : Env) (cachePath : string) (file : StoreRead)
  : M unit :=
  emit (EvReadFile cachePath) ;;;
  match file with
  | NoSuchFile => write_cache ∅
  | ReadFails => throw (DocError CACHE_ERROR)
  | ParseFails => throw (DocError CACHE_ERROR)
  | Parsed c =>
      try_catch
        (write_cache c ;;; cleanup env)
        (fun _ => throw (DocError CACHE_ERROR))
  end.

End DocCache.

(** ** JavaScript string operations used by the code *)

Definition is_empty (s : string) : bool :=
  match s with
  | EmptyString => true
  | String _ _ => false
  end.

(** [strip_prefix p s] is the rest of [s] after [p] when [s.startsWith(p)]. *)
Fixpoint strip_prefix (p s : string) : option string :=
  match p, s with
  | EmptyString, _ => Some s
  | String a p', String b s' =>
      if Ascii.eqb a b then strip_prefix p' s' else None
  | String _ _, EmptyString => None
  end.

Definition startsWith (s p : string) : bool :=
  match strip_prefix p s with
  | Some _ => true
  | None => false
  end.

(** [strip_suffix suf s] is [s] without [suf] when [s.endsWith(suf)]. *)
Fixpoint strip_suffix (suf s : string) : option string :=
  if String.eqb s suf then Some EmptyString
  else
    match s with
    | EmptyString => None
    | String c s' =>
        match strip_suffix suf s' with
        | Some r => Some (String c r)
        | None => None
        end
    end.

Definition endsWith (s suf : string) : bool :=
  match strip_suffix suf s with
  | Some _ => true
  | None => false
  end.

(** [s.includes(q)] *)
Fixpoint includes (s q : string) : bool :=
  if startsWith s q then true
  else
    match s with
    | EmptyString => false
    | String _ s' => includes s' q
    end.

(** [s.replace(/-/g, '::')] *)
Fixpoint replace_hyphens (s : string) : string :=
  match s with
  | EmptyString => EmptyString
  | String c s' =>
      if Ascii.eqb c "-"%char then String ":" (String ":" (replace_hyphens s'))
      else String c (replace_hyphens s')
  end.

(** The line terminators that [.] of a regular expression does not match:
    LF, CR, and U+2028 and U+2029, whose encodings are E2 80 A8 and
    E2 80 A9. *)
Definition LS : string := String "226" (String "128" (String "168" EmptyString)).
Definition PS : string := String "226" (String "128" (String "169" EmptyString)).

Fixpoint has_line_terminator (s : string) : bool :=
  match s with
  | EmptyString => false
  | String c s' =>
      if Ascii.eqb c "010"%char || Ascii.eqb c "013"%char
         || startsWith s LS || startsWith s PS
      then true
      else has_line_terminator s'
  end.

(** [s.replace(pat, rep)] with a string pattern: the first occurrence of
    [pat] only. The replacement used by the code holds no [$]. *)
Fixpoint replace_first (pat rep s : string) : string :=
  match strip_prefix pat s with
  | Some rest => rep +:+ rest
  | None =>
      match s with
      | EmptyString => EmptyString
      | String c s' => String c (replace_first pat rep s')
      end
  end.

(** ** URLs ([src/url-utils.ts]) *)

Module RustdocUrl.

Definition create (docPath : string) : string := "rustdoc://" +:+ docPath.

(** [parse] throws a plain [Error], which is not a [DocError]. *)
Definition parse (url : string) : Exn + string :=
  if negb (startsWith url "rustdoc://") then inl SysError
  else inr (replace_first "rustdoc://" "" url).

(** [readContent]; [turndown] is the conversion of the Turndown service. *)
Definition readContent (env : Env) (turndown : string -> string)
  (filePath : string) : M string :=
  let* content := readFile env filePath in
  ret (turndown content).

End RustdocUrl.

(** ** Array.prototype.sort with a comparator *)

(** The sort is stable: an element is placed after the elements that do not
    compare greater than it. *)
Section Sort.
Context {A : Type} (cmp : A -> A -> Z).

Fixpoint insert_sorted (x : A) (l : list A) : list A :=
  match l with
  | [] => [x]
  | y :: r => if cmp x y <? 0 then x :: y :: r else y :: insert_sorted x r
  end.

Definition sort (l : list A) : list A :=
  fold_left (fun acc x => insert_sorted x acc) l [].

End Sort.


(** ** The documentation manager ([src/doc-manager.ts]) *)

Module DocManager.

Definition initialize (env : Env) (cachePath : string)
  (file : DocCache.StoreRead) : M unit :=
  DocCache.initialize env cachePath file.

Definition getDocPath (env : Env) (projectPath crateName : string)
  : M (option (string * bool)) :=
  let* cached := DocCache.get env projectPath crateName in
  match cached with
  | None => ret None
  | Some c => ret (Some (docPath c, isBuilt c))
  end.

Definition verifyProjectPath (env : Env) (projectPath : string) : M unit :=
  try_catch
    (let cargoToml := path_join env [projectPath; "Cargo.toml"] in
     access env cargoToml)
    (fun _ => throw (DocError INVALID_PATH)).

Definition getTargetDir (env : Env) (projectPath : string) : M string :=
  try_catch
    (execa_metadata env projectPath)
    (fun _ => throw (DocError CARGO_ERROR)).

Definition checkDoc (env : Env) (projectPath crateName : string) : M bool :=
  verifyProjectPath env projectPath ;;;
  let* cached := DocCache.get env projectPath crateName in
  match cached with
  | Some c => ret (isBuilt c)
  | None =>
      try_catch
        (let* targetDir := getTargetDir env projectPath in
         let docPath := path_join env [targetDir; "doc"; crateName; "index.html"] in
         try_catch
           (access env docPath ;;;
            let* t := Date_now env in
            DocCache.set env (mkEntry crateName projectPath docPath t true) ;;;
            ret true)
           (fun _ =>
            let* t := Date_now env in
            DocCache.set env (mkEntry crateName projectPath docPath t false) ;;;
            ret false))
        (fun _ => throw (DocError CARGO_ERROR))
  end.

(** [execa] rejects when the command exits with a non-zero code, so the
    [else] branch of the test on [result.exitCode] and the rejection both end
    in the [catch]. *)
Definition buildDoc (env : Env) (projectPath crateName : string) (noDeps : bool)
  : M string :=
  verifyProjectPath env projectPath ;;;
  try_catch
    (let args := (["doc"; "--no-deps"]
                  ++ (if noDeps then ["--no-deps"] else [])
                  ++ ["-p"; crateName])%list in
     execa_cargo env projectPath args ;;;
     let* targetDir := getTargetDir env projectPath in
     let docPath := path_join env [targetDir; "doc"; crateName; "index.html"] in
     let* t := Date_now env in
     DocCache.set env (mkEntry crateName projectPath docPath t true) ;;;
     ret docPath)
    (fun _ => throw (DocError BUILD_FAILED)).

(** The alternatives of
    [/^(struct|enum|trait|fn|const|type|macro|mod)\.(.+)\.html$/], in order. *)
Definition symbol_keywords : list (string * SymbolType) :=
  [ ("struct", STRUCT); ("enum", ENUM); ("trait", TRAIT); ("fn", FUNCTION);
    ("const", CONST); ("type", TYPE); ("macro", MACRO); ("mod", MODULE) ].

(** One alternative of the pattern against the whole of [fileName]: the
    keyword, a dot, at least one character none of which is a line
    terminator, and [.html] at the end. *)
Definition match_keyword (fileName : string) (kw : string * SymbolType)
  : option (SymbolType * string) :=
  match strip_prefix (fst kw +:+ ".") fileName with
  | Some rest =>
      match strip_suffix ".html" rest with
      | Some name =>
          if is_empty name || has_line_terminator name then None
          else Some (snd kw, name)
      | None => None
      end
  | None => None
  end.

Fixpoint match_alternatives (fileName : string) (kws : list (string * SymbolType))
  : option (SymbolType * string) :=
  match kws with
  | [] => None
  | kw :: rest =>
      match match_keyword fileName kw with
      | Some r => Some r
      | None => match_alternatives fileName rest
      end
  end.

Definition parseSymbolFromFile (fileName modulePath crateName filePath : string)
  : option SymbolInfo :=
  match match_alternatives fileName symbol_keywords with
  | None => None
  | Some (type, name) =>
      let symbolName := replace_hyphens name in
      let fullPath :=
        if is_empty modulePath
        then crateName +:+ "::" +:+ symbolName
        else crateName +:+ "::" +:+ modulePath +:+ "::" +:+ symbolName in
      Some (mkSymbol symbolName type fullPath (RustdocUrl.create filePath))
  end.

Definition is_skipped (name : string) : bool :=
  String.eqb name "src" || String.eqb name "implementors".

Definition is_doc_file (name : string) : bool :=
  endsWith name ".html" && negb (String.eqb name "index.html").

Definition nextModulePath (modulePath name : string) : string :=
  if is_empty modulePath then name else modulePath +:+ "::" +:+ name.

(** [traverseDirectory]. The handlers of the two callers push onto an array
    of their closure; that array is the accumulator threaded through the
    handler here. [traverseEntry] is one turn of the loop over the entries,
    the recursive call on a subdirectory with its [readdir] included. *)
Section Traverse.

Context {A : Type} (env : Env).
Context (fileHandler : string -> string -> string -> A -> M A).

Fixpoint traverseEntry (entry : Dirent) (docDir crateName modulePath : string)
  (acc : A) : M A :=
  match entry with
  | Dir name sub =>
      if is_skipped name then ret acc
      else
        let next := nextModulePath modulePath name in
        let subDir := path_join env [docDir; name] in
        emit (EvReaddir subDir) ;;;
        (fix loop (entries : list Dirent) (acc : A) : M A :=
           match entries with
           | [] => ret acc
           | e :: rest =>
               let* acc' := traverseEntry e subDir crateName next acc in
               loop rest acc'
           end) sub acc
  | BrokenDir name =>
      if is_skipped name then ret acc
      else
        emit (EvReaddir (path_join env [docDir; name])) ;;;
        throw SysError
  | File name =>
      if is_doc_file name
      then fileHandler name (path_join env [docDir; name]) modulePath acc
      else ret acc
  end.

Fixpoint traverseEntries (entries : list Dirent) (docDir crateName modulePath : string)
  (acc : A) : M A :=
  match entries with
  | [] => ret acc
  | e :: rest =>
      let* acc' := traverseEntry e docDir crateName modulePath acc in
      traverseEntries rest docDir crateName modulePath acc'
  end.

Definition traverseDirectory (docDir crateName modulePath : string) (acc : A)
  : M A :=
  emit (EvReaddir docDir) ;;;
  match fs_readdir env docDir with
  | None => throw SysError
  | Some entries => traverseEntries entries docDir crateName modulePath acc
  end.

End Traverse.

(** [ToBoolean] of a number: [0], [-0] and [NaN] are false. *)
Definition truthy (n : JsNumber) : bool :=
  match n with
  | JsNaN => false
  | JsInfinity | JsNegInfinity => true
  | JsNum q => negb (Qeq_bool q 0)
  end.

(** [len >= n], for [len] the length of an array: a comparison with [NaN]
    is false. *)
Definition length_ge (len : nat) (n : JsNumber) : bool :=
  match n with
  | JsNaN => false
  | JsInfinity => false
  | JsNegInfinity => true
  | JsNum q => Qle_bool q (inject_Z (Z.of_nat len))
  end.

(** [options.limit && results.length >= options.limit] *)
Definition limit_reached (options : SearchOptions) (results : list SearchResult)
  : bool :=
  match limit options with
  | None => false
  | Some l => truthy l && length_ge (length results) l
  end.

Definition searchHandler (env : Env) (crateName query : string)
  (options : SearchOptions) (fileName filePath modulePath : string)
  (results : list SearchResult) : M (list SearchResult) :=
  if limit_reached options results then ret results
  else
    let* content := readFile env filePath in
    if includes (toLowerCase env content) (toLowerCase env query) then
      let symbol := parseSymbolFromFile fileName modulePath crateName filePath in
      ret (results ++
           [ mkResult
               (match symbol with
                | Some s => sym_path s
                | None => path_basename env fileName ".html"
                end)
               (RustdocUrl.create filePath) ])%list
    else ret results.

Definition searchDoc (env : Env) (projectPath crateName query : string)
  (options : SearchOptions) : M (list SearchResult) :=
  let* isBuilt := checkDoc env projectPath crateName in
  if negb isBuilt then throw (DocError SEARCH_FAILED)
  else
    let* cached := DocCache.get env projectPath crateName in
    match cached with
    | None => throw (DocError CACHE_ERROR)
    | Some c =>
        try_catch
          (let docDir := path_dirname env (docPath c) in
           let* results :=
             traverseDirectory env (searchHandler env crateName query options)
               docDir crateName "" [] in
           ret (sort (fun a b => localeCompare env (res_title a) (res_title b))
                     results))
          (fun _ => throw (DocError SEARCH_FAILED))
    end.

Definition symbolHandler (crateName : string)
  (fileName filePath modulePath : string) (symbols : list SymbolInfo)
  : M (list SymbolInfo) :=
  match parseSymbolFromFile fileName modulePath crateName filePath with
  | Some symbol => ret (symbols ++ [symbol])%list
  | None => ret symbols
  end.

Definition listSymbols (env : Env) (projectPath crateName : string)
  : M (list SymbolInfo) :=
  let* isBuilt := checkDoc env projectPath crateName in
  if negb isBuilt then throw (DocError SEARCH_FAILED)
  else
    let* cached := DocCache.get env projectPath crateName in
    match cached with
    | None => throw (DocError CACHE_ERROR)
    | Some c =>
        try_catch
          (let docDir := path_dirname env (docPath c) in
           let* symbols :=
             traverseDirectory env (symbolHandler crateName)
               docDir crateName "" [] in
           ret (sort (fun a b => localeCompare env (sym_path a) (sym_path b))
                     symbols))
          (fun _ => throw (DocError SEARCH_FAILED))
    end.

End DocManager.


(** ** A concrete environment for examples

    Paths are joined with [/] without normalisation, which is what Node's
    [path.join] gives on segments that are free of [.], [..] and slashes at
    their ends; letters are lowered in ASCII only and strings are compared
    byte by byte. *)

Module Demo.

Fixpoint join_segments (l : list string) : string :=
  match l with
  | [] => ""
  | [s] => s
  | s :: rest => s +:+ "/" +:+ join_segments rest
  end.

(** The part of [s] before its last [/] and the part after it. *)
Fixpoint split_last_slash (s : string) : option (string * string) :=
  match s with
  | EmptyString => None
  | String c s' =>
      match split_last_slash s' with
      | Some (d, b) => Some (String c d, b)
      | None => if Ascii.eqb c "/"%char then Some ("", s') else None
      end
  end.

Definition dirname (s : string) : string :=
  match split_last_slash s with
  | Some (d, _) => d
  | None => "."
  end.

Definition basename (s ext : string) : string :=
  let b := match split_last_slash s with Some (_, b) => b | None => s end in
  if String.eqb b ext then ""
  else match strip_suffix ext b with Some r => r | None => b end.

Definition lower_ascii (c : ascii) : ascii :=
  let n := nat_of_ascii c in
  if (65 <=? n)%nat && (n <=? 90)%nat then ascii_of_nat (n + 32) else c.

Fixpoint lower (s : string) : string :=
  match s with
  | EmptyString => EmptyString
  | String c s' => String (lower_ascii c) (lower s')
  end.

Fixpoint compare_bytes (a b : string) : Z :=
  match a, b with
  | EmptyString, EmptyString => 0
  | EmptyString, String _ _ => -1
  | String _ _, EmptyString => 1
  | String x a', String y b' =>
      if (nat_of_ascii x <? nat_of_ascii y)%nat then -1
      else if (nat_of_ascii y <? nat_of_ascii x)%nat then 1
      else compare_bytes a' b'
  end.

Definition manifest : string := "/proj/Cargo.toml".
Definition index_html : string := "/tmp/t/doc/my-crate/index.html".

(** The tree under [/tmp/t/doc/my-crate]. *)
Definition tree : list Dirent :=
  [ File "index.html";
    File "struct.Foo-Bar.html";
    File "all.html";
    Dir "src" [ File "struct.Hidden.html"; Dir "deep" [ File "fn.buried.html" ] ];
    Dir "net" [ File "fn.connect.html"; File "index.html";
                Dir "implementors" [ File "trait.Secret.html" ];
                Dir "tcp" [ File "enum.State.html" ] ];
    File "sidebar-items.js";
    File "trait.Alpha.html" ].

Definition contents (p : string) : option string :=
  if String.eqb p "/tmp/t/doc/my-crate/sidebar-items.js" then None
  else Some ("<html>Needle in " +:+ p +:+ "</html>").

Definition env (built : bool) : Env :=
  mkEnv join_segments dirname basename lower compare_bytes
        (fun n => 1000 + Z.of_nat n)
        (fun _ => true)
        (fun p => String.eqb p manifest || (built && String.eqb p index_html))
        (fun d => if String.eqb d "/tmp/t/doc/my-crate" then Some tree else None)
        contents
        (fun cwd => if String.eqb cwd "/proj" then Some "/tmp/t" else None)
        (fun cwd _ => String.eqb cwd "/proj").

Definition w0 : World := mkWorld ∅ ∅ 0 0 [].

End Demo.

(** ** Notions used to state the properties *)

(** The entry under the key of [(projectPath, crateName)] in state [w],
    when there is one and it has not expired at the next reading of the
    clock: the cache holds an unexpired entry when this is [Some], and the
    lookup is a miss when it is [None]. *)
Definition fresh_entry (env : Env) (projectPath crateName : string) (w : World)
  : option DocCacheEntry :=
  match cache w !! DocCache.getCacheKey projectPath crateName with
  | Some e =>
      if date_now env (clock_reads w) - lastBuildTime e >? DocCache.CACHE_TTL
      then None else Some e
  | None => None
  end.

(** The events of a walk of the documentation tree. *)
Definition is_traversal (ev : Event) : bool :=
  match ev with
  | EvReaddir _ | EvReadFile _ => true
  | _ => false
  end.

Definition no_traversal (ev : Event) : Prop := is_traversal ev = false.

(** [m] only appends events that satisfy [P] to the trace. *)
Definition emits {A} (P : Event -> Prop) (m : M A) : Prop :=
  forall w, exists evs, trace (snd (m w)) = (trace w ++ evs)%list /\ Forall P evs.

Fixpoint has_hyphen (s : string) : bool :=
  match s with
  | EmptyString => false
  | String c s' => Ascii.eqb c "-"%char || has_hyphen s'
  end.

(** *** The walk of the tree as a sequence of steps *)

(** What [traverseDirectory] does, in order: a call of the handler on a
    file, the listing of a subdirectory, or the failure of such a listing. *)
Inductive Step :=
  | Visit (fileName filePath modulePath : string)
  | Enter (dir : string)
  | Fail (dir : string).

Fixpoint steps_entry (env : Env) (entry : Dirent) (docDir modulePath : string)
  : list Step :=
  match entry with
  | Dir name sub =>
      if DocManager.is_skipped name then []
      else
        let next := DocManager.nextModulePath modulePath name in
        let subDir := path_join env [docDir; name] in
        Enter subDir
        :: (fix loop (entries : list Dirent) : list Step :=
              match entries with
              | [] => []
              | e :: rest => (steps_entry env e subDir next ++ loop rest)%list
              end) sub
  | BrokenDir name =>
      if DocManager.is_skipped name then []
      else [Fail (path_join env [docDir; name])]
  | File name =>
      if DocManager.is_doc_file name
      then [Visit name (path_join env [docDir; name]) modulePath]
      else []
  end.

Fixpoint steps_entries (env : Env) (entries : list Dirent)
  (docDir modulePath : string) : list Step :=
  match entries with
  | [] => []
  | e :: rest =>
      (steps_entry env e docDir modulePath
       ++ steps_entries env rest docDir modulePath)%list
  end.

Fixpoint run_steps {A} (handler : string -> string -> string -> A -> M A)
  (steps : list Step) (acc : A) : M A :=
  match steps with
  | [] => ret acc
  | Visit f p m :: rest =>
      let* acc' := handler f p m acc in run_steps handler rest acc'
  | Enter d :: rest => emit (EvReaddir d) ;;; run_steps handler rest acc
  | Fail d :: _ => emit (EvReaddir d) ;;; throw SysError
  end.

Definition is_fail (s : Step) : bool :=
  match s with
  | Fail _ => true
  | _ => false
  end.

(** The files handed to the handler, in order. *)
Fixpoint visited (steps : list Step) : list (string * string * string) :=
  match steps with
  | [] => []
  | Visit f p m :: rest => (f, p, m) :: visited rest
  | _ :: rest => visited rest
  end.

(** *** Where a file lies in the tree *)

(** [located env entries docDir modulePath dirs f p m]: descending from the
    listing [entries] of [docDir] through the directories named [dirs], one
    finds the file named [f]; [p] is its path and [m] the module path of the
    directory that holds it. *)
Inductive located (env : Env)
  : list Dirent -> string -> string -> list string -> string -> string
    -> string -> Prop :=
  | located_here entries docDir modulePath name :
      In (File name) entries ->
      located env entries docDir modulePath []
              name (path_join env [docDir; name]) modulePath
  | located_below entries docDir modulePath d sub dirs f p m :
      In (Dir d sub) entries ->
      located env sub (path_join env [docDir; d])
              (DocManager.nextModulePath modulePath d) dirs f p m ->
      located env entries docDir modulePath (d :: dirs) f p m.

(** The tree with the contents of every skipped directory removed. *)
Fixpoint prune (entry : Dirent) : Dirent :=
  match entry with
  | Dir name sub =>
      if DocManager.is_skipped name then Dir name []
      else Dir name (map prune sub)
  | BrokenDir name =>
      if DocManager.is_skipped name then Dir name [] else BrokenDir name
  | File name => File name
  end.

(** [env] with another report of the directory listings. *)
Definition with_readdir (env : Env) (rd : string -> option (list Dirent)) : Env :=
  mkEnv (path_join env) (path_dirname env) (path_basename env)
        (toLowerCase env) (localeCompare env) (date_now env) (write_ok env)
        (fs_access env) rd (fs_readFile env) (cargo_metadata env)
        (cargo_run env).

(** *** The search, file by file *)

Definition result_title (env : Env) (crateName : string)
  (file : string * string * string) : string :=
  let '(f, p, m) := file in
  match DocManager.parseSymbolFromFile f m crateName p with
  | Some s => sym_path s
  | None => path_basename env f ".html"
  end.

(** The result that the file gives when its content holds the query, both
    taken in lower case. *)
Definition search_result (env : Env) (crateName query : string)
  (file : string * string * string) : option SearchResult :=
  let '(f, p, m) := file in
  match fs_readFile env p with
  | Some content =>
      if includes (toLowerCase env content) (toLowerCase env query)
      then Some (mkResult (result_title env crateName file) (RustdocUrl.create p))
      else None
  | None => None
  end.

(** How many matches a limit lets through, [None] for all of them: the
    least count that is not below the limit, when the limit is a number
    other than [0] and [NaN]. *)
Definition kept (n : JsNumber) : option nat :=
  match n with
  | JsNaN | JsInfinity => None
  | JsNegInfinity => Some 0%nat
  | JsNum q => if Qeq_bool q 0 then None else Some (Z.to_nat (Qceiling q))
  end.

Definition limit_count (options : SearchOptions) : option nat :=
  match limit options with
  | None => None
  | Some n => kept n
  end.

(** What a limit keeps of the matches in the order of the walk. *)
Definition apply_limit (options : SearchOptions) (l : list SearchResult)
  : list SearchResult :=
  match limit_count options with
  | None => l
  | Some k => firstn k l
  end.

Definition symbol_of (crateName : string) (file : string * string * string)
  : option SymbolInfo :=
  let '(f, p, m) := file in DocManager.parseSymbolFromFile f m crateName p.

(** *** Comparators *)

(** A comparator is consistent when the order it induces is total and
    transitive; [Array.prototype.sort] sorts with respect to such a
    comparator. *)
Record Consistent {A} (cmp : A -> A -> Z) : Prop := {
  cmp_total : forall a b, 0 <= cmp a b -> cmp b a <= 0;
  cmp_trans : forall a b c, cmp a b <= 0 -> cmp b c <= 0 -> cmp a c <= 0
}.

Definition cmp_le {A} (cmp : A -> A -> Z) (a b : A) : Prop := cmp a b <= 0.

(** What the handler of [searchDoc] has collected after the files [files],
    all readable, starting from [results]. *)
Fixpoint collect (env : Env) (crateName query : string) (options : SearchOptions)
  (files : list (string * string * string)) (results : list SearchResult)
  : list SearchResult :=
  match files with
  | [] => results
  | file :: rest =>
      if DocManager.limit_reached options results
      then collect env crateName query options rest results
      else
        match search_result env crateName query file with
        | Some r => collect env crateName query options rest (results ++ [r])
        | None => collect env crateName query options rest results
        end
  end.

Definition readable (env : Env) (file : string * string * string) : Prop :=
  fs_readFile env (snd (fst file)) <> None.

(** ** A second example: ten files that all hold the query *)

Module Demo10.

Definition tree : list Dirent :=
  [ File "fn.f0.html"; File "fn.f1.html"; File "fn.f2.html"; File "fn.f3.html";
    File "fn.f4.html"; File "fn.f5.html"; File "fn.f6.html"; File "fn.f7.html";
    File "fn.f8.html"; File "fn.f9.html" ].

Definition env : Env :=
  with_readdir (Demo.env true)
    (fun d => if String.eqb d "/tmp/t/doc/my-crate" then Some tree else None).

End Demo10.

(** ** A third example: the tree of the first with other contents below
    the skipped directories *)

Module DemoSkip.

Definition tree : list Dirent :=
  [ File "index.html";
    File "struct.Foo-Bar.html";
    File "all.html";
    BrokenDir "src";
    Dir "net" [ File "fn.connect.html"; File "index.html";
                Dir "implementors" [ File "struct.Needle.html";
                                     Dir "more" [ File "fn.needle.html" ] ];
                Dir "tcp" [ File "enum.State.html" ] ];
    File "sidebar-items.js";
    File "trait.Alpha.html" ].

Definition readdir (d : string) : option (list Dirent) :=
  if String.eqb d "/tmp/t/doc/my-crate" then Some tree else None.

End DemoSkip.

(** ** A fourth example: [cargo doc] succeeds and [cargo metadata] fails *)

Module DemoMeta.

Definition env : Env :=
  mkEnv Demo.join_segments Demo.dirname Demo.basename Demo.lower
        Demo.compare_bytes
        (fun n => 1000 + Z.of_nat n)
        (fun _ => true)
        (fun p => String.eqb p Demo.manifest)
        (fun _ => None)
        Demo.contents
        (fun _ => None)
        (fun cwd _ => String.eqb cwd "/proj").

End DemoMeta.

(** ** Notions used to state the further properties *)

Fixpoint has_colon (s : string) : bool :=
  match s with
  | EmptyString => false
  | String c s' => Ascii.eqb c ":"%char || has_colon s'
  end.

(** The entry is older than the TTL at time [now]. *)
Definition expired_at (now : Z) (e : DocCacheEntry) : bool :=
  now - lastBuildTime e >? DocCache.CACHE_TTL.

(** What is left of a store once the entries expired at [now] are gone,
    key by key. *)
Definition unexpired_at (now : Z) (c : CacheStorage) (k : string)
  : option DocCacheEntry :=
  match c !! k with
  | Some e => if expired_at now e then None else Some e
  | None => None
  end.

Definition some_expired (now : Z) (c : CacheStorage) : bool :=
  existsb (fun kv => expired_at now (snd kv)) (map_to_list c).

(** The store file mirrors the cache in memory. *)
Definition synced (w : World) : Prop := store w = cache w.

(** The entries under the keys other than [k] are the same in both states. *)
Definition same_elsewhere (k : string) (w w' : World) : Prop :=
  forall k', k' <> k -> cache w' !! k' = cache w !! k'.

(** Whatever [m] does and however it ends, the state it reaches is related
    by [R] to the state it started from. *)
Definition preserves {A} (R : World -> World -> Prop) (m : M A) : Prop :=
  forall w, R w (snd (m w)).

(** [m] throws no exception other than those of [P]. *)
Definition throws_only {A} (P : Exn -> Prop) (m : M A) : Prop :=
  forall w e w', m w = (inl e, w') -> P e.

(** When [m] returns, the store file mirrors the cache; and [m] keeps them
    in step when they were. *)
Definition ends_synced {A} (m : M A) : Prop :=
  forall w r w', m w = (inr r, w') -> synced w'.

Definition keeps_synced {A} (m : M A) : Prop :=
  forall w r w', synced w -> m w = (inr r, w') -> synced w'.

(** The exceptions that are a [DocError] with one of the codes of [codes]. *)
Definition doc_error_in (codes : list DocErrorCode) (e : Exn) : Prop :=
  exists code, e = DocError code /\ In code codes.

(** Neither the cache nor the store file differ between the two states. *)
Definition untouched (w w' : World) : Prop :=
  cache w' = cache w /\ store w' = store w.

(** The trace of [w'] is the trace of [w] followed by events that are all
    [good]. *)
Definition appends (good : Event -> Prop) (w w' : World) : Prop :=
  exists evs, trace w' = trace w ++ evs /\ Forall good evs.

(** The events other than a run of [cargo doc]. *)
Definition not_build (ev : Event) : Prop :=
  match ev with
  | EvCargo _ _ => False
  | _ => True
  end.

(** The events other than a run of [cargo doc] and the reading of a file. *)
Definition names_only (ev : Event) : Prop :=
  match ev with
  | EvCargo _ _ | EvReadFile _ => False
  | _ => True
  end.

(** *** The same tree in another order *)




(** ** A fifth example: a function and a macro of the same name, listed in
    one order and in the other *)

Module DemoTie.

Definition tree : list Dirent := [ File "fn.run.html"; File "macro.run.html" ].


Definition env (entries : list Dirent) : Env :=
  with_readdir (Demo.env true)
    (fun d => if String.eqb d "/tmp/t/doc/my-crate" then Some entries else None).

End DemoTie.

(** ** A sixth example: a collation that compares letters before their
    case, as that of the default locale of the runtime does *)

Module DemoCase.

Definition compare_caseless (a b : string) : Z :=
  let c := Demo.compare_bytes (Demo.lower a) (Demo.lower b) in
  if c =? 0 then Demo.compare_bytes b a else c.

Definition tree : list Dirent := [ File "struct.Beta.html"; File "fn.alpha.html" ].

Definition env : Env :=
  mkEnv Demo.join_segments Demo.dirname Demo.basename Demo.lower
        compare_caseless
        (fun n => 1000 + Z.of_nat n)
        (fun _ => true)
        (fun p => String.eqb p Demo.manifest || String.eqb p Demo.index_html)
        (fun d => if String.eqb d "/tmp/t/doc/my-crate" then Some tree else None)
        Demo.contents
        (fun cwd => if String.eqb cwd "/proj" then Some "/tmp/t" else None)
        (fun cwd _ => String.eqb cwd "/proj").

End DemoCase.

(** * Properties *)

(** ** The cache *)

Section CacheFacts.

Context (env : Env).

Lemma save_ok (w : World) :
  write_ok env (writes w) = true ->
  DocCache.save env w
  = (inr tt, mkWorld (cache w) (cache w) (clock_reads w) (S (writes w))
                     (trace w ++ [EvWriteStore (cache w)])).
Proof.
  intros Hw. unfold DocCache.save, try_catch, fs_writeStore. by rewrite Hw.
Qed.

Lemma save_fails (w : World) :
  write_ok env (writes w) = false ->
  DocCache.save env w
  = (inl (DocError CACHE_ERROR),
     mkWorld (cache w) (store w) (clock_reads w) (S (writes w)) (trace w)).
Proof.
  intros Hw. unfold DocCache.save, try_catch, fs_writeStore. by rewrite Hw.
Qed.

(** Whatever becomes of the write, [set] has updated the object in memory
    and has read the clock once. *)
Lemma set_cache (e : DocCacheEntry) (w : World) :
  cache (snd (DocCache.set env e w))
  = <[DocCache.getCacheKey (projectPath e) (crateName e)
      := with_lastBuildTime e (date_now env (clock_reads w))]> (cache w)
  /\ clock_reads (snd (DocCache.set env e w)) = S (clock_reads w).
Proof.
  unfold DocCache.set, bind, Date_now, read_cache, write_cache,
    DocCache.save, try_catch, fs_writeStore, throw. simpl.
  by destruct (write_ok env (writes w)).
Qed.

Lemma set_ok (e : DocCacheEntry) (w : World) :
  write_ok env (writes w) = true ->
  DocCache.set env e w
  = let c := <[DocCache.getCacheKey (projectPath e) (crateName e)
               := with_lastBuildTime e (date_now env (clock_reads w))]> (cache w) in
    (inr tt, mkWorld c c (S (clock_reads w)) (S (writes w))
                     (trace w ++ [EvWriteStore c])).
Proof.
  intros Hw. unfold DocCache.set, bind, Date_now, read_cache, write_cache. simpl.
  rewrite save_ok; [done | exact Hw].
Qed.

Lemma get_absent (pp cn : string) (w : World) :
  cache w !! DocCache.getCacheKey pp cn = None ->
  DocCache.get env pp cn w = (inr None, w).
Proof.
  intros Hk. unfold DocCache.get, bind, read_cache. by rewrite Hk.
Qed.

Lemma get_fresh (pp cn : string) (w : World) (entry : DocCacheEntry) :
  cache w !! DocCache.getCacheKey pp cn = Some entry ->
  date_now env (clock_reads w) - lastBuildTime entry <= DocCache.CACHE_TTL ->
  DocCache.get env pp cn w
  = (inr (Some entry),
     mkWorld (cache w) (store w) (S (clock_reads w)) (writes w) (trace w)).
Proof.
  intros Hk Ht. unfold DocCache.get, bind, read_cache, Date_now. rewrite Hk. simpl.
  destruct (Z.gtb_spec (date_now env (clock_reads w) - lastBuildTime entry)
              DocCache.CACHE_TTL); [lia | done].
Qed.

Lemma get_expired (pp cn : string) (w : World) (entry : DocCacheEntry) :
  cache w !! DocCache.getCacheKey pp cn = Some entry ->
  date_now env (clock_reads w) - lastBuildTime entry > DocCache.CACHE_TTL ->
  write_ok env (writes w) = true ->
  DocCache.get env pp cn w
  = let c := delete (DocCache.getCacheKey pp cn) (cache w) in
    (inr None, mkWorld c c (S (clock_reads w)) (S (writes w))
                       (trace w ++ [EvWriteStore c])).
Proof.
  intros Hk Ht Hw.
  unfold DocCache.get, bind, read_cache, Date_now, write_cache. rewrite Hk. simpl.
  destruct (Z.gtb_spec (date_now env (clock_reads w) - lastBuildTime entry)
              DocCache.CACHE_TTL); [| lia].
  rewrite save_ok; [done | exact Hw].
Qed.

End CacheFacts.

(** C3 (cache round-trip). Take any entry [e] and any state. After
    [set(e)], a [get(e.projectPath, e.crateName)] whose reading of the clock
    is not more than the TTL after the reading made by [set] returns the
    entry [e] with [lastBuildTime] replaced by the time read by [set], and
    with every other field as in [e]. *)
Theorem C3_set_get_round_trip (env : Env) (e : DocCacheEntry) (w : World) :
  let now_set := date_now env (clock_reads w) in
  let w1 := snd (DocCache.set env e w) in
  let now_get := date_now env (clock_reads w1) in
  now_get - now_set <= DocCache.CACHE_TTL ->
  fst (DocCache.get env (projectPath e) (crateName e) w1)
  = inr (Some (with_lastBuildTime e now_set)).
Proof.
  intros now_set w1 now_get Ht.
  destruct (set_cache env e w) as [Hc Hn].
  rewrite (get_fresh env _ _ w1 (with_lastBuildTime e now_set)); [done | |].
  - subst w1. rewrite Hc. apply lookup_insert_eq.
  - exact Ht.
Qed.

Lemma C3_set_get_round_trip_witness :
  let e := mkEntry "my-crate" "/proj" "/tmp/t/doc/my-crate/index.html" 7 true in
  let w1 := snd (DocCache.set (Demo.env true) e Demo.w0) in
  1001 - 1000 <= DocCache.CACHE_TTL
  /\ fst (DocCache.get (Demo.env true) "/proj" "my-crate" w1)
     = inr (Some (mkEntry "my-crate" "/proj" "/tmp/t/doc/my-crate/index.html"
                          1000 true)).
Proof.
  intros e w1.
  assert (Ht : 1001 - 1000 <= DocCache.CACHE_TTL) by (vm_compute; discriminate).
  split; [exact Ht |].
  exact (C3_set_get_round_trip (Demo.env true) e Demo.w0 Ht).
Defined.

(** C4 (cache expiry). If the cache holds an entry under the key of
    [(projectPath, crateName)] with [now - lastBuildTime > TTL], and the
    store file can be written, then [get] returns absent, the entry is
    deleted from the cache, the store file is rewritten with the cache so
    reduced, and the key is present neither in the cache nor in the store
    file afterwards. *)
Theorem C4_get_expired_deletes (env : Env) (pp cn : string) (w : World)
  (entry : DocCacheEntry) :
  cache w !! DocCache.getCacheKey pp cn = Some entry ->
  date_now env (clock_reads w) - lastBuildTime entry > DocCache.CACHE_TTL ->
  write_ok env (writes w) = true ->
  let r := DocCache.get env pp cn w in
  let key := DocCache.getCacheKey pp cn in
  fst r = inr None
  /\ cache (snd r) = delete key (cache w)
  /\ store (snd r) = delete key (cache w)
  /\ trace (snd r) = (trace w ++ [EvWriteStore (delete key (cache w))])%list
  /\ cache (snd r) !! key = None
  /\ store (snd r) !! key = None.
Proof.
  intros Hk Ht Hw r key. subst r.
  rewrite (get_expired env pp cn w entry Hk Ht Hw). simpl.
  repeat split; apply lookup_delete_eq.
Qed.

Lemma C4_get_expired_deletes_witness :
  let old := mkEntry "my-crate" "/proj" "/d/index.html" (1000 - 86400000 - 1) true in
  let w := mkWorld {[ "/proj:my-crate" := old ]} {[ "/proj:my-crate" := old ]} 0 0 [] in
  let r := DocCache.get (Demo.env true) "/proj" "my-crate" w in
  fst r = inr None
  /\ cache (snd r) !! "/proj:my-crate" = None
  /\ store (snd r) !! "/proj:my-crate" = None.
Proof.
  intros old w r.
  assert (Hk : cache w !! DocCache.getCacheKey "/proj" "my-crate" = Some old)
    by apply lookup_singleton_eq.
  assert (Ht : date_now (Demo.env true) (clock_reads w) - lastBuildTime old
               > DocCache.CACHE_TTL) by (vm_compute; reflexivity).
  destruct (C4_get_expired_deletes (Demo.env true) "/proj" "my-crate" w old
              Hk Ht eq_refl) as (H1 & _ & _ & _ & H5 & H6).
  exact (conj H1 (conj H5 H6)).
Defined.

(** ** What a computation may append to the trace *)

Section Emits.

Context {A B : Type} (P : Event -> Prop).

Lemma emits_ret (a : A) : emits P (ret a).
Proof. intros w. exists []. simpl. by rewrite app_nil_r. Qed.

Lemma emits_throw (e : Exn) : emits P (@throw A e).
Proof. intros w. exists []. simpl. by rewrite app_nil_r. Qed.

Lemma emits_bind (m : M A) (k : A -> M B) :
  emits P m -> (forall a, emits P (k a)) -> emits P (bind m k).
Proof.
  intros Hm Hk w. unfold bind.
  destruct (Hm w) as (evs & Ht & Hp).
  destruct (m w) as [[e | a] w1]; simpl in *.
  - by exists evs.
  - destruct (Hk a w1) as (evs' & Ht' & Hp').
    exists (evs ++ evs')%list. split.
    + by rewrite Ht', Ht, app_assoc.
    + by apply Forall_app.
Qed.

Lemma emits_try_catch (m : M A) (h : Exn -> M A) :
  emits P m -> (forall e, emits P (h e)) -> emits P (try_catch m h).
Proof.
  intros Hm Hh w. unfold try_catch.
  destruct (Hm w) as (evs & Ht & Hp).
  destruct (m w) as [[e | a] w1]; simpl in *.
  - destruct (Hh e w1) as (evs' & Ht' & Hp').
    exists (evs ++ evs')%list. split.
    + by rewrite Ht', Ht, app_assoc.
    + by apply Forall_app.
  - by exists evs.
Qed.

End Emits.

Lemma emits_emit (P : Event -> Prop) (ev : Event) : P ev -> emits P (emit ev).
Proof. intros Hp w. exists [ev]. simpl. split; [done | by constructor]. Qed.

Lemma emits_Date_now (P : Event -> Prop) (env : Env) : emits P (Date_now env).
Proof. intros w. exists []. simpl. by rewrite app_nil_r. Qed.

Lemma emits_read_cache (P : Event -> Prop) : emits P read_cache.
Proof. intros w. exists []. simpl. by rewrite app_nil_r. Qed.

Lemma emits_write_cache (P : Event -> Prop) (c : CacheStorage) :
  emits P (write_cache c).
Proof. intros w. exists []. simpl. by rewrite app_nil_r. Qed.

Lemma emits_if (P : Event -> Prop) {A} (b : bool) (m1 m2 : M A) :
  emits P m1 -> emits P m2 -> emits P (if b then m1 else m2).
Proof. by destruct b. Qed.

Section EmitsNoTraversal.

Context (env : Env).

Lemma emits_save : emits no_traversal (DocCache.save env).
Proof.
  apply emits_try_catch; [| intros; apply emits_throw].
  intros w. unfold fs_writeStore. destruct (write_ok env (writes w)); simpl.
  - exists [EvWriteStore (cache w)]. split; [done | by constructor].
  - exists []. by rewrite app_nil_r.
Qed.

Lemma emits_get (pp cn : string) : emits no_traversal (DocCache.get env pp cn).
Proof.
  unfold DocCache.get.
  apply emits_bind; [apply emits_read_cache |]. intros c.
  destruct (c !! _); [| apply emits_ret].
  apply emits_bind; [apply emits_Date_now |]. intros now.
  apply emits_if; [| apply emits_ret].
  apply emits_bind; [apply emits_read_cache |]. intros c'.
  apply emits_bind; [apply emits_write_cache |]. intros _.
  apply emits_bind; [apply emits_save |]. intros _. apply emits_ret.
Qed.

Lemma emits_set (e : DocCacheEntry) : emits no_traversal (DocCache.set env e).
Proof.
  unfold DocCache.set.
  apply emits_bind; [apply emits_Date_now |]. intros now.
  apply emits_bind; [apply emits_read_cache |]. intros c.
  apply emits_bind; [apply emits_write_cache |]. intros _. apply emits_save.
Qed.

Lemma emits_access (p : string) : emits no_traversal (access env p).
Proof.
  unfold access. apply emits_bind; [by apply emits_emit |]. intros _.
  apply emits_if; [apply emits_ret | apply emits_throw].
Qed.

Lemma emits_getTargetDir (pp : string) : emits no_traversal (DocManager.getTargetDir env pp).
Proof.
  unfold DocManager.getTargetDir, execa_metadata.
  apply emits_try_catch; [| intros; apply emits_throw].
  apply emits_bind; [by apply emits_emit |]. intros _.
  destruct (cargo_metadata env pp); [apply emits_ret | apply emits_throw].
Qed.

Lemma emits_checkDoc (pp cn : string) : emits no_traversal (DocManager.checkDoc env pp cn).
Proof.
  unfold DocManager.checkDoc.
  apply emits_bind.
  { apply emits_try_catch; [apply emits_access | intros; apply emits_throw]. }
  intros _. apply emits_bind; [apply emits_get |]. intros [c |]; [apply emits_ret |].
  apply emits_try_catch; [| intros; apply emits_throw].
  apply emits_bind; [apply emits_getTargetDir |]. intros targetDir.
  apply emits_try_catch.
  - apply emits_bind; [apply emits_access |]. intros _.
    apply emits_bind; [apply emits_Date_now |]. intros t.
    apply emits_bind; [apply emits_set |]. intros _. apply emits_ret.
  - intros _. apply emits_bind; [apply emits_Date_now |]. intros t.
    apply emits_bind; [apply emits_set |]. intros _. apply emits_ret.
Qed.

End EmitsNoTraversal.

(** ** The status check *)

Section CheckDocFacts.

Context (env : Env).

Lemma verifyProjectPath_ok (pp : string) (w : World) :
  fs_access env (path_join env [pp; "Cargo.toml"]) = true ->
  DocManager.verifyProjectPath env pp w
  = (inr tt, mkWorld (cache w) (store w) (clock_reads w) (writes w)
                     (trace w ++ [EvAccess (path_join env [pp; "Cargo.toml"])])).
Proof.
  intros Ha. unfold DocManager.verifyProjectPath, try_catch, access, bind, emit.
  by rewrite Ha.
Qed.

Lemma verifyProjectPath_invalid (pp : string) (w : World) :
  fs_access env (path_join env [pp; "Cargo.toml"]) = false ->
  DocManager.verifyProjectPath env pp w
  = (inl (DocError INVALID_PATH),
     mkWorld (cache w) (store w) (clock_reads w) (writes w)
             (trace w ++ [EvAccess (path_join env [pp; "Cargo.toml"])])).
Proof.
  intros Ha. unfold DocManager.verifyProjectPath, try_catch, access, bind, emit.
  by rewrite Ha.
Qed.

Lemma getTargetDir_ok (pp dir : string) (w : World) :
  cargo_metadata env pp = Some dir ->
  DocManager.getTargetDir env pp w
  = (inr dir, mkWorld (cache w) (store w) (clock_reads w) (writes w)
                      (trace w ++ [EvMetadata pp])).
Proof.
  intros Hm. unfold DocManager.getTargetDir, try_catch, execa_metadata, bind, emit.
  by rewrite Hm.
Qed.

Lemma getTargetDir_fails (pp : string) (w : World) :
  cargo_metadata env pp = None ->
  DocManager.getTargetDir env pp w
  = (inl (DocError CARGO_ERROR),
     mkWorld (cache w) (store w) (clock_reads w) (writes w)
             (trace w ++ [EvMetadata pp])).
Proof.
  intros Hm. unfold DocManager.getTargetDir, try_catch, execa_metadata, bind, emit.
  by rewrite Hm.
Qed.

Lemma fresh_entry_Some (pp cn : string) (w : World) (e : DocCacheEntry) :
  fresh_entry env pp cn w = Some e ->
  cache w !! DocCache.getCacheKey pp cn = Some e
  /\ date_now env (clock_reads w) - lastBuildTime e <= DocCache.CACHE_TTL.
Proof.
  unfold fresh_entry. destruct (cache w !! _) as [e' |]; [| done].
  destruct (Z.gtb_spec (date_now env (clock_reads w) - lastBuildTime e')
              DocCache.CACHE_TTL); [done |].
  intros [= ->]. split; [done | lia].
Qed.

(** A hit: the manifest is looked at, the clock is read once, and nothing
    else happens. *)
Lemma checkDoc_hit (pp cn : string) (w : World) (e : DocCacheEntry) :
  fs_access env (path_join env [pp; "Cargo.toml"]) = true ->
  fresh_entry env pp cn w = Some e ->
  DocManager.checkDoc env pp cn w
  = (inr (isBuilt e),
     mkWorld (cache w) (store w) (S (clock_reads w)) (writes w)
             (trace w ++ [EvAccess (path_join env [pp; "Cargo.toml"])])).
Proof.
  intros Ha [Hk Ht]%fresh_entry_Some.
  unfold DocManager.checkDoc, bind.
  rewrite (verifyProjectPath_ok pp w Ha).
  match goal with
  | |- context [DocCache.get env pp cn ?w1] =>
      by rewrite (get_fresh env pp cn w1 e Hk Ht)
  end.
Qed.

(** The part of [checkDoc] that runs after a miss, from the state [w] in
    which [get] has returned. *)
Lemma checkDoc_probe (pp cn dir : string) (w : World) :
  cargo_metadata env pp = Some dir ->
  write_ok env (writes w) = true ->
  let docPath := path_join env [dir; "doc"; cn; "index.html"] in
  let b := fs_access env docPath in
  let c := <[DocCache.getCacheKey pp cn
             := mkEntry cn pp docPath (date_now env (S (clock_reads w))) b]>
           (cache w) in
  try_catch
    (let* targetDir := DocManager.getTargetDir env pp in
     let docPath := path_join env [targetDir; "doc"; cn; "index.html"] in
     try_catch
       (access env docPath ;;;
        let* t := Date_now env in
        DocCache.set env (mkEntry cn pp docPath t true) ;;;
        ret true)
       (fun _ =>
        let* t := Date_now env in
        DocCache.set env (mkEntry cn pp docPath t false) ;;;
        ret false))
    (fun _ => throw (DocError CARGO_ERROR)) w
  = (inr b, mkWorld c c (S (S (clock_reads w))) (S (writes w))
                    (trace w ++ [EvMetadata pp; EvAccess docPath; EvWriteStore c])).
Proof.
  intros Hm Hw docPath b c.
  unfold try_catch at 1. unfold bind at 1. rewrite (getTargetDir_ok pp dir w Hm).
  fold docPath. unfold try_catch, bind, access, emit, Date_now. simpl.
  fold b. destruct b eqn:Hb; simpl.
  - rewrite set_ok; [| done]. simpl. subst c.
    unfold with_lastBuildTime. simpl. by rewrite <- !app_assoc.
  - rewrite set_ok; [| done]. simpl. subst c.
    unfold with_lastBuildTime. simpl. by rewrite <- !app_assoc.
Qed.

End CheckDocFacts.

Section CheckDocMiss.

Context (env : Env) (pp cn dir : string) (w : World).
Context (Ha : fs_access env (path_join env [pp; "Cargo.toml"]) = true).
Context (Hm : cargo_metadata env pp = Some dir).
Context (Hw : forall n, write_ok env n = true).

(** A miss with nothing under the key. *)
Lemma checkDoc_miss_absent :
  cache w !! DocCache.getCacheKey pp cn = None ->
  let docPath := path_join env [dir; "doc"; cn; "index.html"] in
  let c := <[DocCache.getCacheKey pp cn
             := mkEntry cn pp docPath (date_now env (S (clock_reads w)))
                        (fs_access env docPath)]> (cache w) in
  DocManager.checkDoc env pp cn w
  = (inr (fs_access env docPath),
     mkWorld c c (S (S (clock_reads w))) (S (writes w))
       (trace w ++ [EvAccess (path_join env [pp; "Cargo.toml"]);
                    EvMetadata pp; EvAccess docPath; EvWriteStore c])).
Proof.
  intros Hk docPath c.
  unfold DocManager.checkDoc. unfold bind at 1.
  rewrite (verifyProjectPath_ok env pp w Ha). unfold bind at 1.
  match goal with
  | |- context [DocCache.get env pp cn ?w1] =>
      rewrite (get_absent env pp cn w1 Hk)
  end.
  match goal with
  | |- context [try_catch _ _ ?w1] =>
      pose proof (checkDoc_probe env pp cn dir w1 Hm (Hw _)) as Hp
  end.
  cbv zeta in Hp |- *. rewrite Hp.
  simpl. fold docPath c. by rewrite <- !app_assoc.
Qed.

(** A miss with an expired entry under the key: the entry is purged and the
    store file rewritten before the toolchain is queried. *)
Lemma checkDoc_miss_expired (old : DocCacheEntry) :
  cache w !! DocCache.getCacheKey pp cn = Some old ->
  date_now env (clock_reads w) - lastBuildTime old > DocCache.CACHE_TTL ->
  let key := DocCache.getCacheKey pp cn in
  let docPath := path_join env [dir; "doc"; cn; "index.html"] in
  let c := <[key := mkEntry cn pp docPath (date_now env (S (S (clock_reads w))))
                            (fs_access env docPath)]> (cache w) in
  DocManager.checkDoc env pp cn w
  = (inr (fs_access env docPath),
     mkWorld c c (S (S (S (clock_reads w)))) (S (S (writes w)))
       (trace w ++ [EvAccess (path_join env [pp; "Cargo.toml"]);
                    EvWriteStore (delete key (cache w));
                    EvMetadata pp; EvAccess docPath; EvWriteStore c])).
Proof.
  intros Hk Hexp key docPath c.
  unfold DocManager.checkDoc. unfold bind at 1.
  rewrite (verifyProjectPath_ok env pp w Ha). unfold bind at 1.
  match goal with
  | |- context [DocCache.get env pp cn ?w1] =>
      rewrite (get_expired env pp cn w1 old Hk Hexp (Hw _))
  end.
  cbv beta iota zeta.
  match goal with
  | |- context [try_catch _ _ ?w1] =>
      pose proof (checkDoc_probe env pp cn dir w1 Hm (Hw _)) as Hp
  end.
  cbv zeta in Hp |- *. rewrite Hp.
  simpl. fold key docPath. rewrite insert_delete_eq. fold c.
  by rewrite <- !app_assoc.
Qed.

End CheckDocMiss.

(** C1 (status check). Let the manifest of the project be present. When
    the cache holds an unexpired entry under the key of
    [(projectPath, crateName)], [checkDoc] returns the [isBuilt] flag of that
    entry, leaves the cache and the store file as they are, and its only
    effect is the look at the manifest: the toolchain is not invoked and the
    entry-point file is not looked at. On a miss, when the metadata query
    reports the directory [dir] and the store file can be written, [checkDoc]
    queries the toolchain, looks at [dir/doc/crateName/index.html], returns
    whether that file exists, and writes to the cache and to the store file
    an entry that carries this path, the existence flag (also when it is
    false) and the time of the write. *)
Theorem C1_checkDoc_hit_and_miss (env : Env) (pp cn : string) (w : World) :
  fs_access env (path_join env [pp; "Cargo.toml"]) = true ->
  let manifest := path_join env [pp; "Cargo.toml"] in
  let key := DocCache.getCacheKey pp cn in
  let r := DocManager.checkDoc env pp cn w in
  (forall e : DocCacheEntry,
     fresh_entry env pp cn w = Some e ->
     fst r = inr (isBuilt e)
     /\ cache (snd r) = cache w
     /\ store (snd r) = store w
     /\ trace (snd r) = (trace w ++ [EvAccess manifest])%list)
  /\
  (forall dir : string,
     fresh_entry env pp cn w = None ->
     cargo_metadata env pp = Some dir ->
     (forall n, write_ok env n = true) ->
     let docPath := path_join env [dir; "doc"; cn; "index.html"] in
     let exists_ := fs_access env docPath in
     let purge := match cache w !! key with
                  | Some _ => [EvWriteStore (delete key (cache w))]
                  | None => []
                  end in
     fst r = inr exists_
     /\ cache (snd r)
        = <[key := mkEntry cn pp docPath
                     (date_now env (pred (clock_reads (snd r)))) exists_]> (cache w)
     /\ store (snd r) = cache (snd r)
     /\ trace (snd r)
        = (trace w ++ [EvAccess manifest] ++ purge
           ++ [EvMetadata pp; EvAccess docPath; EvWriteStore (cache (snd r))])%list).
Proof.
  intros Ha manifest key r. split.
  - intros e He. subst r. by rewrite (checkDoc_hit env pp cn w e Ha He).
  - intros dir Hmiss Hm Hw docPath exists_ purge.
    unfold fresh_entry in Hmiss. fold key in Hmiss.
    destruct (cache w !! key) as [old |] eqn:Hk.
    + destruct (Z.gtb_spec (date_now env (clock_reads w) - lastBuildTime old)
                  DocCache.CACHE_TTL) as [Hexp | _]; [clear Hmiss | done].
      subst r.
      rewrite (checkDoc_miss_expired env pp cn dir w Ha Hm Hw old Hk
                 ltac:(lia)).
      done.
    + subst r. rewrite (checkDoc_miss_absent env pp cn dir w Ha Hm Hw Hk).
      done.
Qed.

(** Status caching: a first check on a cache without the key, with the
    entry-point file absent, returns [false]; a second check in the state so
    reached, within the TTL, returns [false] again, whatever the file system
    and the toolchain have become, and only looks at the manifest. *)
Lemma checkDoc_status_caching (env env' : Env) (pp cn dir : string) (w : World) :
  fs_access env (path_join env [pp; "Cargo.toml"]) = true ->
  cache w !! DocCache.getCacheKey pp cn = None ->
  cargo_metadata env pp = Some dir ->
  (forall n, write_ok env n = true) ->
  fs_access env (path_join env [dir; "doc"; cn; "index.html"]) = false ->
  fs_access env' (path_join env' [pp; "Cargo.toml"]) = true ->
  date_now env' (S (S (clock_reads w))) - date_now env (S (clock_reads w))
  <= DocCache.CACHE_TTL ->
  let r1 := DocManager.checkDoc env pp cn w in
  let r2 := DocManager.checkDoc env' pp cn (snd r1) in
  fst r1 = inr false
  /\ fst r2 = inr false
  /\ trace (snd r2)
     = trace (snd r1) ++ [EvAccess (path_join env' [pp; "Cargo.toml"])].
Proof.
  intros Ha Hk Hm Hw Hno Ha' Ht r1 r2. subst r2 r1.
  rewrite (checkDoc_miss_absent env pp cn dir w Ha Hm Hw Hk). cbv zeta.
  rewrite Hno. simpl fst. simpl snd.
  match goal with
  | |- context [DocManager.checkDoc env' pp cn ?w1] =>
      rewrite (checkDoc_hit env' pp cn w1
                 (mkEntry cn pp (path_join env [dir; "doc"; cn; "index.html"])
                    (date_now env (S (clock_reads w))) false) Ha')
  end.
  - done.
  - unfold fresh_entry. simpl. rewrite lookup_insert_eq. simpl.
    destruct (Z.gtb_spec (date_now env' (S (S (clock_reads w)))
                          - date_now env (S (clock_reads w)))
                DocCache.CACHE_TTL); [lia | done].
Qed.

Lemma C1_checkDoc_hit_and_miss_witness :
  let env := Demo.env false in
  let cached := mkEntry "my-crate" "/proj" Demo.index_html 900 true in
  let w_hit := mkWorld {[ "/proj:my-crate" := cached ]} ∅ 0 0 [] in
  (fst (DocManager.checkDoc env "/proj" "my-crate" w_hit) = inr true
   /\ trace (snd (DocManager.checkDoc env "/proj" "my-crate" w_hit))
      = [EvAccess Demo.manifest])
  /\ (fst (DocManager.checkDoc env "/proj" "my-crate" Demo.w0) = inr false
      /\ trace (snd (DocManager.checkDoc env "/proj" "my-crate" Demo.w0))
         = [EvAccess Demo.manifest; EvMetadata "/proj"; EvAccess Demo.index_html;
            EvWriteStore (cache (snd (DocManager.checkDoc env "/proj" "my-crate"
                                        Demo.w0)))]).
Proof.
  intros env cached w_hit. split.
  - destruct (C1_checkDoc_hit_and_miss env "/proj" "my-crate" w_hit eq_refl)
      as [Hhit _].
    destruct (Hhit cached eq_refl) as (H1 & _ & _ & H4).
    exact (conj H1 H4).
  - destruct (C1_checkDoc_hit_and_miss env "/proj" "my-crate" Demo.w0 eq_refl)
      as [_ Hmiss].
    destruct (Hmiss "/tmp/t" eq_refl eq_refl (fun _ => eq_refl))
      as (H1 & _ & _ & H4).
    exact (conj H1 H4).
Defined.

(** ** Listing and searching before the documentation is built *)

(** C2 (precondition). When [checkDoc] returns [false] for
    [(projectPath, crateName)], [searchDoc] and [listSymbols] both throw a
    [DocError] with code [SEARCH_FAILED], in the state that [checkDoc] left,
    and no [readdir] and no [readFile] has been performed. *)
Theorem C2_not_built_fails_without_traversal (env : Env) (pp cn query : string)
  (options : SearchOptions) (w w1 : World) :
  DocManager.checkDoc env pp cn w = (inr false, w1) ->
  DocManager.searchDoc env pp cn query options w
  = (inl (DocError SEARCH_FAILED), w1)
  /\ DocManager.listSymbols env pp cn w = (inl (DocError SEARCH_FAILED), w1)
  /\ exists evs, trace w1 = (trace w ++ evs)%list
                 /\ Forall (fun ev => is_traversal ev = false) evs.
Proof.
  intros Hc. repeat split.
  - unfold DocManager.searchDoc, bind. by rewrite Hc.
  - unfold DocManager.listSymbols, bind. by rewrite Hc.
  - destruct (emits_checkDoc env pp cn w) as (evs & Ht & Hq).
    rewrite Hc in Ht. by exists evs.
Qed.

Lemma C2_not_built_fails_without_traversal_witness :
  let env := Demo.env false in
  fst (DocManager.searchDoc env "/proj" "my-crate" "needle" (mkOptions None) Demo.w0)
  = inl (DocError SEARCH_FAILED)
  /\ fst (DocManager.listSymbols env "/proj" "my-crate" Demo.w0)
     = inl (DocError SEARCH_FAILED).
Proof.
  intros env.
  destruct (C2_not_built_fails_without_traversal env "/proj" "my-crate" "needle"
              (mkOptions None) Demo.w0
              (snd (DocManager.checkDoc env "/proj" "my-crate" Demo.w0)))
    as (H1 & H2 & _).
  - vm_compute. reflexivity.
  - rewrite H1, H2. split; reflexivity.
Defined.

(** ** Strings *)

Lemma ascii_eqb_eq (a b : ascii) : Ascii.eqb a b = true <-> a = b.
Proof. apply Ascii.eqb_eq. Qed.

Lemma strip_prefix_app (p s : string) : strip_prefix p (p +:+ s) = Some s.
Proof.
  induction p as [| a p IH]; simpl; [done |].
  by rewrite Ascii.eqb_refl.
Qed.

Lemma strip_prefix_Some (p s r : string) :
  strip_prefix p s = Some r -> s = p +:+ r.
Proof.
  revert s. induction p as [| a p IH]; intros s; simpl.
  - by intros [= ->].
  - destruct s as [| b s]; [done |].
    destruct (Ascii.eqb a b) eqn:Hab; [| done].
    apply Ascii.eqb_eq in Hab as ->. intros Hs. by rewrite (IH s Hs).
Qed.

Lemma length_app_string (a b : string) :
  String.length (a +:+ b) = (String.length a + String.length b)%nat.
Proof. induction a as [| c a IH]; simpl; [done | by rewrite IH]. Qed.

Lemma strip_suffix_unfold (suf s : string) :
  strip_suffix suf s
  = if String.eqb s suf then Some EmptyString
    else match s with
         | EmptyString => None
         | String c s' =>
             match strip_suffix suf s' with
             | Some r => Some (String c r)
             | None => None
             end
         end.
Proof. by destruct s. Qed.

Lemma strip_suffix_app (suf s : string) : strip_suffix suf (s +:+ suf) = Some s.
Proof.
  induction s as [| c s IH].
  - simpl. by rewrite strip_suffix_unfold, String.eqb_refl.
  - change (String c s +:+ suf) with (String c (s +:+ suf)).
    rewrite strip_suffix_unfold, IH.
    destruct (String.eqb (String c (s +:+ suf)) suf) eqn:He; [| done].
    apply String.eqb_eq in He. apply (f_equal String.length) in He.
    simpl in He. rewrite length_app_string in He. lia.
Qed.

Lemma strip_suffix_Some (suf s r : string) :
  strip_suffix suf s = Some r -> s = r +:+ suf.
Proof.
  revert r. induction s as [| c s IH]; intros r; rewrite strip_suffix_unfold.
  - destruct (String.eqb "" suf) eqn:He; [| done].
    apply String.eqb_eq in He as <-. by intros [= <-].
  - destruct (String.eqb (String c s) suf) eqn:He.
    + apply String.eqb_eq in He as <-. by intros [= <-].
    + destruct (strip_suffix suf s) as [r' |]; [| done].
      intros [= <-]. change (String c r' +:+ suf) with (String c (r' +:+ suf)).
      f_equal. by apply IH.
Qed.

Lemma is_empty_false (s : string) : is_empty s = false <-> s <> "".
Proof. by destruct s. Qed.

(** [replace_hyphens] turns each hyphen into [::] and nothing else. *)
Lemma replace_hyphens_app (a b : string) :
  replace_hyphens (a +:+ b) = replace_hyphens a +:+ replace_hyphens b.
Proof.
  induction a as [| c a IH]; simpl; [done |].
  rewrite IH. by destruct (Ascii.eqb c "-").
Qed.

Lemma replace_hyphens_hyphen (a b : string) :
  replace_hyphens (a +:+ "-" +:+ b)
  = replace_hyphens a +:+ "::" +:+ replace_hyphens b.
Proof. by rewrite !replace_hyphens_app. Qed.

Lemma replace_hyphens_id (s : string) :
  has_hyphen s = false -> replace_hyphens s = s.
Proof.
  induction s as [| c s IH]; simpl; [done |].
  destruct (Ascii.eqb c "-"); [done |]. simpl. intros Hs. by rewrite IH.
Qed.

Lemma replace_hyphens_no_hyphen (s : string) :
  has_hyphen (replace_hyphens s) = false.
Proof.
  induction s as [| c s IH]; simpl; [done |].
  destruct (Ascii.eqb c "-") eqn:Hc; simpl; [done |]. by rewrite Hc.
Qed.

Lemma append_String (c : ascii) (a b : string) :
  String c a +:+ b = String c (a +:+ b).
Proof. reflexivity. Qed.

Lemma append_empty (b : string) : "" +:+ b = b.
Proof. reflexivity. Qed.

Lemma append_assoc (a b c : string) : (a +:+ b) +:+ c = a +:+ (b +:+ c).
Proof.
  induction a as [| x a IH]; [done |]. by rewrite !append_String, IH.
Qed.

(** ** Symbol parsing *)

Section ParseFacts.

Import DocManager.

(** The file names that the pattern matches: a keyword of the vocabulary, a
    dot, a name that is not empty and holds no line terminator, and [.html]. *)
Lemma match_keyword_hit (kw : string) (ty : SymbolType) (name : string) :
  is_empty name = false ->
  has_line_terminator name = false ->
  match_keyword (kw +:+ "." +:+ name +:+ ".html") (kw, ty) = Some (ty, name).
Proof.
  intros Hn Hl. unfold match_keyword. simpl fst. simpl snd.
  rewrite <- append_assoc, strip_prefix_app, strip_suffix_app.
  by rewrite Hn, Hl.
Qed.

Lemma match_keyword_Some (fileName : string) (kw : string * SymbolType)
  (ty : SymbolType) (name : string) :
  match_keyword fileName kw = Some (ty, name) ->
  ty = snd kw
  /\ fileName = fst kw +:+ "." +:+ name +:+ ".html"
  /\ is_empty name = false
  /\ has_line_terminator name = false.
Proof.
  unfold match_keyword.
  destruct (strip_prefix _ fileName) as [rest |] eqn:Hp; [| done].
  destruct (strip_suffix _ rest) as [name' |] eqn:Hs; [| done].
  destruct (is_empty name') eqn:He; [done |].
  destruct (has_line_terminator name') eqn:Hl; [done |]. simpl.
  intros [= <- <-].
  apply strip_prefix_Some in Hp. apply strip_suffix_Some in Hs.
  by rewrite Hp, Hs, append_assoc.
Qed.

Lemma match_alternatives_Some (fileName : string)
  (kws : list (string * SymbolType)) (ty : SymbolType) (name : string) :
  match_alternatives fileName kws = Some (ty, name) ->
  exists kw, In (kw, ty) kws
             /\ fileName = kw +:+ "." +:+ name +:+ ".html"
             /\ is_empty name = false
             /\ has_line_terminator name = false.
Proof.
  induction kws as [| [kw ty'] kws IH]; simpl; [done |].
  destruct (match_keyword fileName (kw, ty')) as [[ty0 name0] |] eqn:Hk.
  - intros [= -> ->].
    apply match_keyword_Some in Hk as (-> & Hf & He & Hl).
    exists kw. simpl in *. by repeat split; [left | ..].
  - intros (kw0 & Hin & H)%IH. exists kw0. split; [by right | done].
Qed.

(** No keyword followed by a dot is the start of another keyword followed
    by a dot, so at most one alternative fits a file name. *)
Lemma match_alternatives_hit (kw : string) (ty : SymbolType) (name : string) :
  In (kw, ty) symbol_keywords ->
  is_empty name = false ->
  has_line_terminator name = false ->
  match_alternatives (kw +:+ "." +:+ name +:+ ".html") symbol_keywords
  = Some (ty, name).
Proof.
  intros Hin Hn Hl.
  pose proof (match_keyword_hit kw ty name Hn Hl) as Hhit.
  unfold symbol_keywords in *. simpl in Hin.
  destruct Hin as [H | [H | [H | [H | [H | [H | [H | [H | []]]]]]]]];
    injection H as <- <-;
    cbn [match_alternatives]; rewrite ?Hhit; try reflexivity;
    repeat (match goal with
            | |- context [match_keyword ?f (?k, ?t)] =>
                first
                  [ rewrite Hhit
                  | replace (match_keyword f (k, t)) with (@None (SymbolType * string))
                      by (unfold match_keyword; simpl fst;
                          rewrite ?append_String, ?append_empty; reflexivity) ]
            end); reflexivity.
Qed.

End ParseFacts.

(** C5 (symbol parsing). For a file name made of a keyword of the
    vocabulary of eight, a dot, a name (not empty, free of line terminators)
    and [.html], [parseSymbolFromFile] produces a symbol of the kind of the
    keyword, whose name is the name portion with each hyphen replaced by
    [::], and whose path is the crate name, the module path when it is not
    empty, and that name, joined by [::]. The file [struct.Foo-Bar.html]
    under the crate root of [my-crate] gives kind struct, name [Foo::Bar] and
    path [my-crate::Foo::Bar]. A file name that is not of that form gives no
    symbol; the function is total, so it raises nothing. *)
Theorem C5_parseSymbolFromFile (modulePath crateName filePath : string) :
  (forall (kw : string) (ty : SymbolType) (name : string),
     In (kw, ty) DocManager.symbol_keywords ->
     name <> "" ->
     has_line_terminator name = false ->
     DocManager.parseSymbolFromFile (kw +:+ "." +:+ name +:+ ".html")
       modulePath crateName filePath
     = Some (mkSymbol (replace_hyphens name) ty
               (String.concat "::"
                  (crateName
                   :: (if is_empty modulePath then [] else [modulePath])
                   ++ [replace_hyphens name])%list)
               (RustdocUrl.create filePath)))
  /\ (forall a b : string,
        replace_hyphens (a +:+ "-" +:+ b)
        = replace_hyphens a +:+ "::" +:+ replace_hyphens b)
  /\ (forall s : string, has_hyphen s = false -> replace_hyphens s = s)
  /\ DocManager.parseSymbolFromFile "struct.Foo-Bar.html" "" "my-crate" filePath
     = Some (mkSymbol "Foo::Bar" STRUCT "my-crate::Foo::Bar"
               (RustdocUrl.create filePath))
  /\ (forall fileName : string,
        (forall (kw : string) (ty : SymbolType) (name : string),
           In (kw, ty) DocManager.symbol_keywords ->
           name <> "" ->
           has_line_terminator name = false ->
           fileName <> kw +:+ "." +:+ name +:+ ".html") ->
        DocManager.parseSymbolFromFile fileName modulePath crateName filePath
        = None).
Proof.
  split; [| split; [| split; [| split]]].
  - intros kw ty name Hin Hne%is_empty_false Hl.
    unfold DocManager.parseSymbolFromFile.
    rewrite (match_alternatives_hit kw ty name Hin Hne Hl).
    destruct modulePath; reflexivity.
  - apply replace_hyphens_hyphen.
  - apply replace_hyphens_id.
  - reflexivity.
  - intros fileName Hno. unfold DocManager.parseSymbolFromFile.
    destruct (DocManager.match_alternatives fileName DocManager.symbol_keywords)
      as [[ty name] |] eqn:Hm; [| done].
    apply match_alternatives_Some in Hm as (kw & Hin & Hf & He%is_empty_false & Hl).
    by destruct (Hno kw ty name Hin He Hl).
Qed.

Lemma C5_parseSymbolFromFile_witness :
  DocManager.parseSymbolFromFile "fn.read-all.html" "net" "my-crate" "/d/net/fn.read-all.html"
  = Some (mkSymbol "read::all" FUNCTION "my-crate::net::read::all"
            "rustdoc:///d/net/fn.read-all.html")
  /\ DocManager.parseSymbolFromFile "all.html" "net" "my-crate" "/d/net/fn.read-all.html"
     = None.
Proof.
  destruct (C5_parseSymbolFromFile "net" "my-crate" "/d/net/fn.read-all.html")
    as (Hhit & _ & _ & _ & Hmiss).
  split.
  - apply (Hhit "fn" FUNCTION "read-all"); [| discriminate | reflexivity].
    simpl. tauto.
  - apply Hmiss. intros kw ty name Hin _ _.
    unfold DocManager.symbol_keywords in Hin. simpl in Hin.
    destruct Hin as [H | [H | [H | [H | [H | [H | [H | [H | []]]]]]]]];
      injection H as <- <-; rewrite ?append_String, ?append_empty; discriminate.
Defined.

(** ** Sorting *)

Section SortFacts.

Context {A : Type} (cmp : A -> A -> Z).

Lemma insert_sorted_Permutation (x : A) (l : list A) :
  Permutation (insert_sorted cmp x l) (x :: l).
Proof.
  induction l as [| y r IH]; simpl; [done |].
  destruct (cmp x y <? 0); [done |].
  rewrite IH. apply perm_swap.
Qed.

Lemma fold_insert_Permutation (l acc : list A) :
  Permutation (fold_left (fun acc x => insert_sorted cmp x acc) l acc)
              (acc ++ l).
Proof.
  revert acc. induction l as [| x l IH]; intros acc; simpl.
  - by rewrite app_nil_r.
  - rewrite IH, insert_sorted_Permutation. simpl.
    apply Permutation_middle.
Qed.

Lemma sort_Permutation (l : list A) : Permutation (sort cmp l) l.
Proof. unfold sort. by rewrite fold_insert_Permutation. Qed.


Context (Hcmp : Consistent cmp).

Lemma insert_sorted_StronglySorted (x : A) (l : list A) :
  StronglySorted (cmp_le cmp) l ->
  StronglySorted (cmp_le cmp) (insert_sorted cmp x l).
Proof.
  induction l as [| y r IH]; simpl; intros Hs.
  - repeat constructor.
  - apply StronglySorted_inv in Hs as [Hr Hy].
    destruct (Z.ltb_spec (cmp x y) 0) as [Hlt | Hge].
    + constructor; [by constructor |].
      constructor; [unfold cmp_le; lia |].
      eapply Forall_impl; [exact Hy |]. intros z Hz. unfold cmp_le in *.
      apply (cmp_trans cmp Hcmp x y z); [lia | done].
    + constructor; [by apply IH |].
      rewrite insert_sorted_Permutation.
      constructor; [| done]. by apply (cmp_total cmp Hcmp).
Qed.

Lemma sort_StronglySorted (l : list A) : StronglySorted (cmp_le cmp) (sort cmp l).
Proof.
  unfold sort.
  assert (Hgen : forall acc, StronglySorted (cmp_le cmp) acc ->
            StronglySorted (cmp_le cmp)
              (fold_left (fun acc x => insert_sorted cmp x acc) l acc)).
  { induction l as [| x l' IH]; intros acc Hacc; simpl; [done |].
    by apply IH, insert_sorted_StronglySorted. }
  apply Hgen. constructor.
Qed.

End SortFacts.

(** The comparator of a sort by a key is consistent when the comparison of
    the keys is. *)
Lemma Consistent_on_key {A K} (cmp : K -> K -> Z) (key : A -> K) :
  Consistent cmp -> Consistent (fun a b => cmp (key a) (key b)).
Proof.
  intros [Ht Hr]. split.
  - intros a b. apply Ht.
  - intros a b c. apply Hr.
Qed.

(** ** The walk of the tree *)

(** Induction on a tree of directory entries. *)
Lemma Dirent_tree_ind (P : Dirent -> Prop) :
  (forall name, P (File name)) ->
  (forall name sub, Forall P sub -> P (Dir name sub)) ->
  (forall name, P (BrokenDir name)) ->
  forall d, P d.
Proof.
  intros HF HD HB. fix IH 1. intros [name | name sub | name].
  - apply HF.
  - apply HD. induction sub as [| e sub IHsub]; constructor; [apply IH | exact IHsub].
  - apply HB.
Qed.

Lemma steps_entry_Dir (env : Env) (name : string) (sub : list Dirent)
  (docDir modulePath : string) :
  steps_entry env (Dir name sub) docDir modulePath
  = if DocManager.is_skipped name then []
    else Enter (path_join env [docDir; name])
         :: steps_entries env sub (path_join env [docDir; name])
              (DocManager.nextModulePath modulePath name).
Proof.
  simpl. destruct (DocManager.is_skipped name); [done |]. f_equal.
  induction sub as [| e sub IH]; simpl; [done | by rewrite IH].
Qed.

Section WalkFacts.

Context {A : Type} (env : Env).
Context (handler : string -> string -> string -> A -> M A).

Lemma run_steps_app (l1 l2 : list Step) (acc : A) (w : World) :
  run_steps handler (l1 ++ l2) acc w
  = bind (run_steps handler l1 acc) (run_steps handler l2) w.
Proof.
  revert acc w. induction l1 as [| [f p m | d | d] l1 IH]; intros acc w; simpl.
  - done.
  - unfold bind. destruct (handler f p m acc w) as [[e | acc'] w1]; [done |].
    by rewrite IH.
  - unfold bind. simpl. by rewrite IH.
  - done.
Qed.

Lemma traverseEntry_steps (crateName : string) (entry : Dirent) :
  forall (docDir modulePath : string) (acc : A) (w : World),
    DocManager.traverseEntry env handler entry docDir crateName modulePath acc w
    = run_steps handler (steps_entry env entry docDir modulePath) acc w.
Proof.
  induction entry as [name | name sub IH | name] using Dirent_tree_ind;
    intros docDir modulePath acc w; simpl.
  - destruct (DocManager.is_doc_file name); simpl; [| done].
    unfold bind. by destruct (handler _ _ _ acc w) as [[e | acc'] w1].
  - destruct (DocManager.is_skipped name); simpl; [done |].
    unfold bind at 1 3. unfold emit.
    match goal with
    | |- context [mkWorld ?a ?b ?c ?d ?t] => generalize (mkWorld a b c d t)
    end.
    intros w1. revert acc w1.
    induction IH as [| e sub He Hsub IHsub]; intros acc w1; [reflexivity |].
    rewrite run_steps_app. unfold bind. rewrite He.
    destruct (run_steps handler _ acc w1) as [[err | acc'] w2]; [done |].
    apply IHsub.
  - by destruct (DocManager.is_skipped name).
Qed.

Lemma traverseEntries_steps (crateName : string) (entries : list Dirent)
  (docDir modulePath : string) (acc : A) (w : World) :
  DocManager.traverseEntries env handler entries docDir crateName modulePath acc w
  = run_steps handler (steps_entries env entries docDir modulePath) acc w.
Proof.
  revert acc w. induction entries as [| e entries IH]; intros acc w; simpl; [done |].
  rewrite run_steps_app. unfold bind. rewrite traverseEntry_steps.
  destruct (run_steps handler _ acc w) as [[err | acc'] w1]; [done |].
  apply IH.
Qed.

End WalkFacts.

(** ** Skipped directories *)

Section SkipFacts.

Context (env : Env).

Lemma steps_entry_prune (entry : Dirent) :
  forall docDir modulePath,
    steps_entry env (prune entry) docDir modulePath
    = steps_entry env entry docDir modulePath.
Proof.
  induction entry as [name | name sub IH | name] using Dirent_tree_ind;
    intros docDir modulePath; simpl.
  - done.
  - destruct (DocManager.is_skipped name) eqn:Hs; simpl; rewrite Hs; [done |].
    f_equal.
    induction IH as [| e sub He Hsub IHsub]; simpl; [done |].
    by rewrite He, IHsub.
  - destruct (DocManager.is_skipped name) eqn:Hs; simpl; by rewrite Hs.
Qed.

Lemma steps_entries_prune (entries : list Dirent) (docDir modulePath : string) :
  steps_entries env (map prune entries) docDir modulePath
  = steps_entries env entries docDir modulePath.
Proof.
  induction entries as [| e entries IH]; simpl; [done |].
  by rewrite steps_entry_prune, IH.
Qed.

Lemma steps_entries_same_pruned (es es' : list Dirent) (docDir modulePath : string) :
  map prune es' = map prune es ->
  steps_entries env es' docDir modulePath = steps_entries env es docDir modulePath.
Proof.
  intros Hp.
  by rewrite <- (steps_entries_prune es'), Hp, steps_entries_prune.
Qed.

(** Every file handed to the handler is a documentation file that lies
    under directories none of which is skipped. *)
Lemma steps_entry_located (entry : Dirent) :
  forall entries docDir modulePath f p m,
    In entry entries ->
    In (Visit f p m) (steps_entry env entry docDir modulePath) ->
    exists dirs,
      located env entries docDir modulePath dirs f p m
      /\ Forall (fun d => DocManager.is_skipped d = false) dirs
      /\ DocManager.is_doc_file f = true.
Proof.
  induction entry as [name | name sub IH | name] using Dirent_tree_ind;
    intros entries docDir modulePath f p m Hin; simpl.
  - destruct (DocManager.is_doc_file name) eqn:Hd; simpl; [| done].
    intros [[= <- <- <-] | []]. exists []. repeat split; [| done | done].
    by constructor.
  - destruct (DocManager.is_skipped name) eqn:Hs; simpl; [done |].
    intros [[=] | Hv].
    assert (Hsub : exists dirs,
              located env sub (path_join env [docDir; name])
                (DocManager.nextModulePath modulePath name) dirs f p m
              /\ Forall (fun d => DocManager.is_skipped d = false) dirs
              /\ DocManager.is_doc_file f = true).
    { clear Hin. revert Hv.
      generalize (incl_refl sub). generalize sub at 2 4 as all.
      intros all Hincl.
      induction IH as [| e sub He Hsub IHsub]; simpl; [done |].
      intros [Hv | Hv]%in_app_or.
      - apply (He all _ _ f p m); [| done]. apply Hincl. by left.
      - apply IHsub; [| done]. intros x Hx. apply Hincl. by right. }
    destruct Hsub as (dirs & Hl & Hf & Hd).
    exists (name :: dirs). repeat split; [| by constructor | done].
    by apply (located_below env entries docDir modulePath name sub).
  - destruct (DocManager.is_skipped name); simpl; [done |]. by intros [[=] | []].
Qed.

Lemma steps_entries_located (entries : list Dirent) (docDir modulePath f p m : string) :
  In (Visit f p m) (steps_entries env entries docDir modulePath) ->
  exists dirs,
    located env entries docDir modulePath dirs f p m
    /\ Forall (fun d => DocManager.is_skipped d = false) dirs
    /\ DocManager.is_doc_file f = true.
Proof.
  generalize (incl_refl entries). generalize entries at 2 4 as all.
  intros all Hincl.
  induction entries as [| e entries IH]; simpl; [done |].
  intros [Hv | Hv]%in_app_or.
  - apply (steps_entry_located e all); [| done]. apply Hincl. by left.
  - apply IH; [| done]. intros x Hx. apply Hincl. by right.
Qed.

Lemma visited_In (steps : list Step) (f p m : string) :
  In (f, p, m) (visited steps) <-> In (Visit f p m) steps.
Proof.
  induction steps as [| [f' p' m' | d | d] steps IH]; simpl; [done | | |].
  - rewrite IH. split; intros [H | H]; auto; left; congruence.
  - rewrite IH. split; [by right | by intros [[=] |]].
  - rewrite IH. split; [by right | by intros [[=] |]].
Qed.

End SkipFacts.

(** ** The handlers along the walk *)

Section HandlerFacts.

Context (env : Env) (crateName : string).

Lemma run_symbolHandler (steps : list Step) (acc : list SymbolInfo) (w : World) :
  fst (run_steps (DocManager.symbolHandler crateName) steps acc w)
  = if existsb is_fail steps then inl SysError
    else inr (acc ++ omap (symbol_of crateName) (visited steps)).
Proof.
  revert acc w. induction steps as [| [f p m | d | d] steps IH]; intros acc w; simpl.
  - by rewrite app_nil_r.
  - unfold bind, DocManager.symbolHandler.
    destruct (DocManager.parseSymbolFromFile f m crateName p) as [s |]; simpl.
    + rewrite IH. by rewrite <- app_assoc.
    + by rewrite IH.
  - unfold bind, emit. by rewrite IH.
  - done.
Qed.

Context (query : string) (options : SearchOptions).

Lemma run_searchHandler (steps : list Step) (acc : list SearchResult) (w : World) :
  existsb is_fail steps = false ->
  Forall (readable env) (visited steps) ->
  fst (run_steps (DocManager.searchHandler env crateName query options) steps acc w)
  = inr (collect env crateName query options (visited steps) acc).
Proof.
  revert acc w. induction steps as [| [f p m | d | d] steps IH];
    intros acc w Hf Hr; simpl in *.
  - done.
  - apply Forall_cons in Hr as [Hp Hr]. unfold readable in Hp. simpl in Hp.
    unfold bind at 1, DocManager.searchHandler.
    destruct (DocManager.limit_reached options acc); simpl; [by apply IH |].
    unfold bind, readFile, emit. simpl.
    destruct (fs_readFile env p) as [content |]; [| done]. simpl.
    destruct (includes _ _); simpl; by apply IH.
  - unfold bind, emit. by apply IH.
  - done.
Qed.

(** Whatever the limit and whatever can be read, a result that the search
    has collected was given by a file of the walk. *)
Lemma run_searchHandler_sound (steps : list Step) (acc res : list SearchResult)
  (w w' : World) :
  run_steps (DocManager.searchHandler env crateName query options) steps acc w
  = (inr res, w') ->
  forall r, In r res ->
    In r acc
    \/ exists f p m, In (Visit f p m) steps
                     /\ search_result env crateName query (f, p, m) = Some r.
Proof.
  revert acc w. induction steps as [| [f p m | d | d] steps IH];
    intros acc w; simpl.
  - intros [= <- <-] r Hr. by left.
  - unfold bind at 1, DocManager.searchHandler.
    destruct (DocManager.limit_reached options acc); simpl.
    { intros Hrun r Hr. destruct (IH _ _ Hrun r Hr) as [? | (f0 & p0 & m0 & ? & ?)];
        [by left | right; exists f0, p0, m0; auto]. }
    unfold bind at 1, readFile at 1. unfold bind at 1, emit at 1. simpl.
    destruct (fs_readFile env p) as [content |] eqn:Hc; [| done]. simpl.
    destruct (includes _ _) eqn:Hi; simpl.
    + intros Hrun r Hr.
      destruct (IH _ _ Hrun r Hr) as [Hacc | (f0 & p0 & m0 & ? & ?)].
      * apply in_app_or in Hacc as [? | [<- | []]]; [by left |].
        right. exists f, p, m. split; [by left |].
        unfold search_result. by rewrite Hc, Hi.
      * right; exists f0, p0, m0; auto.
    + intros Hrun r Hr.
      destruct (IH _ _ Hrun r Hr) as [? | (f0 & p0 & m0 & ? & ?)];
        [by left | right; exists f0, p0, m0; auto].
  - unfold bind at 1, emit. simpl. intros Hrun r Hr.
    destruct (IH _ _ Hrun r Hr) as [? | (f0 & p0 & m0 & ? & ?)];
      [by left | right; exists f0, p0, m0; auto].
  - unfold bind, emit. simpl. done.
Qed.

End HandlerFacts.

(** ** The limit *)

Section LimitFacts.

Context (env : Env) (crateName query : string) (options : SearchOptions).

Local Abbreviation hit := (search_result env crateName query).

Lemma ceiling_pos (q : Q) : (0 < q)%Q -> 0 < Qceiling q.
Proof.
  intros Hq. rewrite Zlt_Qlt.
  apply Qlt_le_trans with q; [exact Hq | apply Qle_ceiling].
Qed.

(** A count that does not exceed the ceiling of [q] is below [q + 1]. *)
Lemma below_limit (q : Q) (n : nat) :
  (0 < q)%Q -> (n <= Z.to_nat (Qceiling q))%nat ->
  (inject_Z (Z.of_nat n) < q + 1)%Q.
Proof.
  intros Hq Hn. pose proof (ceiling_pos q Hq) as Hc.
  pose proof (Qceiling_lt q) as Hlt.
  assert (Hz : Z.of_nat n - 1 <= Qceiling q - 1) by lia.
  rewrite Zle_Qle in Hz.
  replace (Z.of_nat n) with ((Z.of_nat n - 1) + 1) by lia.
  rewrite inject_Z_plus.
  apply Qle_lt_trans with (inject_Z (Qceiling q - 1) + 1)%Q.
  - apply Qplus_le_compat; [exact Hz | apply Qle_refl].
  - apply Qplus_lt_le_compat; [exact Hlt | apply Qle_refl].
Qed.

Lemma kept_of_int (z : Z) : z <> 0 -> kept (of_int z) = Some (Z.to_nat z).
Proof.
  intros Hz. unfold kept, of_int.
  replace (Qeq_bool (inject_Z z) 0) with (z =? 0).
  - destruct (Z.eqb_spec z 0); [done |]. by rewrite Qceiling_Z.
  - unfold Qeq_bool, inject_Z. simpl. by rewrite Z.mul_1_r.
Qed.

Lemma kept_positive (q : Q) :
  (0 < q)%Q -> kept (JsNum q) = Some (Z.to_nat (Qceiling q)).
Proof.
  intros Hq. unfold kept. destruct (Qeq_bool q 0) eqn:H; [| done].
  apply Qeq_bool_iff in H. rewrite H in Hq. discriminate.
Qed.

Lemma ceiling_le (q : Q) (z : Z) : (q <= inject_Z z)%Q <-> Qceiling q <= z.
Proof.
  split; intros H.
  - apply Qceiling_resp_le in H. by rewrite Qceiling_Z in H.
  - apply Qle_trans with (inject_Z (Qceiling q)); [apply Qle_ceiling |].
    by rewrite <- Zle_Qle.
Qed.

(** The test of the handler counts the results against [limit_count]. *)
Lemma limit_reached_count (rs : list SearchResult) :
  DocManager.limit_reached options rs
  = match limit_count options with
    | None => false
    | Some k => (k <=? length rs)%nat
    end.
Proof.
  unfold DocManager.limit_reached, limit_count.
  destruct (limit options) as [[| | | q] |]; simpl; try done.
  destruct (Qeq_bool q 0); simpl; [done |].
  destruct (Nat.leb_spec (Z.to_nat (Qceiling q)) (length rs)) as [Hk | Hk].
  - apply Qle_bool_iff, ceiling_le. lia.
  - destruct (Qle_bool q (inject_Z (Z.of_nat (length rs)))) eqn:Hq; [| done].
    apply Qle_bool_iff, ceiling_le in Hq. lia.
Qed.

Lemma collect_unlimited (files : list (string * string * string))
  (results : list SearchResult) :
  limit_count options = None ->
  collect env crateName query options files results = results ++ omap hit files.
Proof.
  intros Hl.
  assert (Hnever : forall rs, DocManager.limit_reached options rs = false).
  { intros rs. by rewrite limit_reached_count, Hl. }
  revert results. induction files as [| file files IH]; intros results; simpl.
  - by rewrite app_nil_r.
  - rewrite Hnever. destruct (hit file) as [r |].
    + by rewrite IH, <- app_assoc.
    + apply IH.
Qed.

Lemma collect_limited (k : nat) (files : list (string * string * string))
  (results : list SearchResult) :
  limit_count options = Some k ->
  collect env crateName query options files results
  = results ++ firstn (k - length results) (omap hit files).
Proof.
  intros Hl.
  assert (Hreached : forall rs,
            DocManager.limit_reached options rs = true
            <-> (k - length rs = 0)%nat).
  { intros rs. rewrite limit_reached_count, Hl, Nat.leb_le. lia. }
  revert results. induction files as [| file files IH]; intros results; simpl.
  - by rewrite firstn_nil, app_nil_r.
  - destruct (DocManager.limit_reached options results) eqn:Hr.
    + rewrite IH. apply Hreached in Hr. by rewrite Hr.
    + assert (Hk : (k - length results <> 0)%nat).
      { intros Hk. apply Hreached in Hk. congruence. }
      destruct (hit file) as [r |].
      * rewrite IH, length_app. simpl.
        destruct (k - length results)%nat as [| k'] eqn:Hd; [done |].
        simpl. rewrite <- app_assoc. simpl.
        by replace (k - (length results + 1))%nat with k' by lia.
      * apply IH.
Qed.

Lemma collect_apply_limit (files : list (string * string * string)) :
  collect env crateName query options files []
  = apply_limit options (omap hit files).
Proof.
  unfold apply_limit. destruct (limit_count options) as [k |] eqn:Hl.
  - rewrite (collect_limited k); [| done]. simpl. by rewrite Nat.sub_0_r.
  - by rewrite collect_unlimited.
Qed.

(** When the walk of the search returns, no listing has failed and it has
    collected what [collect] says: a file that cannot be read is met only
    once the limit has been reached. *)
Lemma run_searchHandler_returns (steps : list Step) (acc res : list SearchResult)
  (w w' : World) :
  run_steps (DocManager.searchHandler env crateName query options) steps acc w
  = (inr res, w') ->
  existsb is_fail steps = false
  /\ res = collect env crateName query options (visited steps) acc.
Proof.
  revert acc w. induction steps as [| [f p m | d | d] steps IH];
    intros acc w; simpl.
  - by intros [= <- <-].
  - unfold bind at 1, DocManager.searchHandler.
    destruct (DocManager.limit_reached options acc); simpl; [apply IH |].
    unfold bind at 1, readFile at 1. unfold bind at 1, emit at 1. simpl.
    destruct (fs_readFile env p) as [content |] eqn:Hc; [| done]. simpl.
    destruct (includes _ _) eqn:Hi; simpl; apply IH.
  - unfold bind at 1, emit. simpl. apply IH.
  - unfold bind, emit. simpl. done.
Qed.

(** Without a limit, it has read every file of the walk. *)
Lemma run_searchHandler_reads_all (steps : list Step)
  (acc res : list SearchResult) (w w' : World) :
  limit_count options = None ->
  run_steps (DocManager.searchHandler env crateName query options) steps acc w
  = (inr res, w') ->
  Forall (readable env) (visited steps).
Proof.
  intros Hl. revert acc w. induction steps as [| [f p m | d | d] steps IH];
    intros acc w; simpl.
  - by constructor.
  - unfold bind at 1, DocManager.searchHandler.
    rewrite limit_reached_count, Hl.
    unfold bind at 1, readFile at 1. unfold bind at 1, emit at 1. simpl.
    destruct (fs_readFile env p) as [content |] eqn:Hc; [| done]. simpl.
    intros Hrun. constructor.
    + unfold readable. simpl. by rewrite Hc.
    + destruct (includes _ _); simpl in Hrun; by apply IH in Hrun.
  - unfold bind at 1, emit. simpl. apply IH.
  - unfold bind, emit. simpl. done.
Qed.

End LimitFacts.

(** ** Listing and searching built documentation *)

Section BuiltFacts.

Context (env : Env) (pp cn : string) (w w1 w2 : World) (c : DocCacheEntry).
Context (Hcheck : DocManager.checkDoc env pp cn w = (inr true, w1)).
Context (Hget : DocCache.get env pp cn w1 = (inr (Some c), w2)).

Lemma traverseDirectory_steps {A} (handler : string -> string -> string -> A -> M A)
  (docDir modulePath : string) (entries : list Dirent) (acc : A) (w0 : World) :
  fs_readdir env docDir = Some entries ->
  DocManager.traverseDirectory env handler docDir cn modulePath acc w0
  = run_steps handler (steps_entries env entries docDir modulePath) acc
      (snd (emit (EvReaddir docDir) w0)).
Proof.
  intros Hrd. unfold DocManager.traverseDirectory, bind. simpl. rewrite Hrd.
  apply traverseEntries_steps.
Qed.

(** Once the check has answered [true] and the entry has been found,
    [listSymbols] is the walk from the directory of the cached [docPath],
    its result sorted, and every exception becomes [SEARCH_FAILED]. *)
Lemma listSymbols_walk :
  DocManager.listSymbols env pp cn w
  = match DocManager.traverseDirectory env (DocManager.symbolHandler cn)
            (path_dirname env (docPath c)) cn "" [] w2 with
    | (inr symbols, w3) =>
        (inr (sort (fun a b => localeCompare env (sym_path a) (sym_path b))
                   symbols), w3)
    | (inl _, w3) => (inl (DocError SEARCH_FAILED), w3)
    end.
Proof.
  unfold DocManager.listSymbols. unfold bind at 1. rewrite Hcheck. simpl.
  unfold bind at 1. rewrite Hget. unfold try_catch, bind.
  by destruct (DocManager.traverseDirectory _ _ _ _ _ _ w2) as [[e | syms] w3].
Qed.

Lemma searchDoc_walk (query : string) (options : SearchOptions) :
  DocManager.searchDoc env pp cn query options w
  = match DocManager.traverseDirectory env
            (DocManager.searchHandler env cn query options)
            (path_dirname env (docPath c)) cn "" [] w2 with
    | (inr results, w3) =>
        (inr (sort (fun a b => localeCompare env (res_title a) (res_title b))
                   results), w3)
    | (inl _, w3) => (inl (DocError SEARCH_FAILED), w3)
    end.
Proof.
  unfold DocManager.searchDoc. unfold bind at 1. rewrite Hcheck. simpl.
  unfold bind at 1. rewrite Hget. unfold try_catch, bind.
  by destruct (DocManager.traverseDirectory _ _ _ _ _ _ w2) as [[e | res] w3].
Qed.

Context (entries : list Dirent).
Context (Hrd : fs_readdir env (path_dirname env (docPath c)) = Some entries).

Local Abbreviation steps :=
  (steps_entries env entries (path_dirname env (docPath c)) "").

Lemma listSymbols_result :
  existsb is_fail steps = false ->
  fst (DocManager.listSymbols env pp cn w)
  = inr (sort (fun a b => localeCompare env (sym_path a) (sym_path b))
              (omap (symbol_of cn) (visited steps))).
Proof.
  intros Hf. rewrite listSymbols_walk, (traverseDirectory_steps _ _ _ entries _ _ Hrd).
  pose proof (run_symbolHandler cn steps [] (snd (emit (EvReaddir
                (path_dirname env (docPath c))) w2))) as Hrun.
  rewrite Hf in Hrun. simpl in Hrun.
  destruct (run_steps _ _ _ _) as [[e | syms] w3]; simpl in *; congruence.
Qed.

Lemma searchDoc_result (query : string) (options : SearchOptions) :
  existsb is_fail steps = false ->
  Forall (readable env) (visited steps) ->
  fst (DocManager.searchDoc env pp cn query options w)
  = inr (sort (fun a b => localeCompare env (res_title a) (res_title b))
              (apply_limit options
                 (omap (search_result env cn query) (visited steps)))).
Proof.
  intros Hf Hr.
  rewrite searchDoc_walk, (traverseDirectory_steps _ _ _ entries _ _ Hrd).
  pose proof (run_searchHandler env cn query options steps []
                (snd (emit (EvReaddir (path_dirname env (docPath c))) w2))
                Hf Hr) as Hrun.
  rewrite collect_apply_limit in Hrun.
  destruct (run_steps _ _ _ _) as [[e | res] w3]; simpl in *; congruence.
Qed.

End BuiltFacts.

(** A search that returns: the check has answered [true], the entry has
    been found, every directory of the walk has been listed, and the results
    are the sorted matches that the limit keeps. *)
Lemma searchDoc_returns (env : Env) (pp cn query : string)
  (options : SearchOptions) (w w' : World) (results : list SearchResult) :
  DocManager.searchDoc env pp cn query options w = (inr results, w') ->
  exists (w1 w2 : World) (c : DocCacheEntry) (entries : list Dirent),
    DocManager.checkDoc env pp cn w = (inr true, w1)
    /\ DocCache.get env pp cn w1 = (inr (Some c), w2)
    /\ fs_readdir env (path_dirname env (docPath c)) = Some entries
    /\ existsb is_fail
         (steps_entries env entries (path_dirname env (docPath c)) "") = false
    /\ results
       = sort (fun a b => localeCompare env (res_title a) (res_title b))
           (apply_limit options
              (omap (search_result env cn query)
                 (visited (steps_entries env entries
                             (path_dirname env (docPath c)) ""))))
    /\ (limit_count options = None ->
        Forall (readable env)
          (visited (steps_entries env entries
                      (path_dirname env (docPath c)) ""))).
Proof.
  intros Hrun.
  destruct (DocManager.checkDoc env pp cn w) as [[e | [|]] w1] eqn:Hcheck.
  1, 3: unfold DocManager.searchDoc, bind in Hrun; rewrite Hcheck in Hrun;
    simpl in Hrun; done.
  destruct (DocCache.get env pp cn w1) as [[e | [c |]] w2] eqn:Hget.
  1, 3: unfold DocManager.searchDoc in Hrun; unfold bind at 1 in Hrun;
    rewrite Hcheck in Hrun; simpl in Hrun; unfold bind at 1 in Hrun;
    rewrite Hget in Hrun; simpl in Hrun; done.
  rewrite (searchDoc_walk env pp cn w w1 w2 c Hcheck Hget) in Hrun.
  destruct (fs_readdir env (path_dirname env (docPath c))) as [entries |] eqn:Hrd.
  2: { unfold DocManager.traverseDirectory, bind, emit in Hrun. simpl in Hrun.
       rewrite Hrd in Hrun. done. }
  rewrite (traverseDirectory_steps env cn _ _ _ entries _ _ Hrd) in Hrun.
  destruct (run_steps _ _ _ _) as [[e | res] w3] eqn:Hsteps; [done |].
  injection Hrun as <- <-.
  exists w1, w2, c, entries. split; [done |]. split; [done |]. split; [done |].
  assert (Hall : limit_count options = None ->
                 Forall (readable env)
                   (visited (steps_entries env entries
                               (path_dirname env (docPath c)) ""))).
  { intros Hl. by eapply run_searchHandler_reads_all. }
  apply run_searchHandler_returns in Hsteps as [Hf ->].
  rewrite collect_apply_limit. done.
Qed.

(** The comparison byte by byte of the examples is consistent. *)
Lemma compare_bytes_Consistent : Consistent Demo.compare_bytes.
Proof.
  split.
  - intros a. induction a as [| x a IH]; intros [| y b]; simpl; try lia.
    destruct (Nat.ltb_spec (nat_of_ascii x) (nat_of_ascii y));
      destruct (Nat.ltb_spec (nat_of_ascii y) (nat_of_ascii x)); try lia.
    apply IH.
  - intros a. induction a as [| x a IH]; intros [| y b] [| z c]; simpl; try lia.
    destruct (Nat.ltb_spec (nat_of_ascii x) (nat_of_ascii y));
      destruct (Nat.ltb_spec (nat_of_ascii y) (nat_of_ascii x));
      destruct (Nat.ltb_spec (nat_of_ascii y) (nat_of_ascii z));
      destruct (Nat.ltb_spec (nat_of_ascii z) (nat_of_ascii y));
      destruct (Nat.ltb_spec (nat_of_ascii x) (nat_of_ascii z));
      destruct (Nat.ltb_spec (nat_of_ascii z) (nat_of_ascii x));
      try lia.
    apply IH.
Qed.

(** ** The search *)

(** C7, as stated, fails when the limit supplied is [0], and when it is
    not an integer. The test [options.limit && ...] takes [0] for an absent
    limit, and the five files of the first example that hold the query all
    give a result. With a limit of [2.5] and the ten files of the second
    example the test [results.length >= 2.5] is first true at three
    results, and three results are returned. *)
Lemma C7_counterexample_limits :
  (exists results,
     fst (DocManager.searchDoc (Demo.env true) "/proj" "my-crate" "needle"
            (mkOptions (Some (of_int 0))) Demo.w0) = inr results
     /\ ~ (Z.of_nat (length results) <= 0))
  /\ (exists results,
        fst (DocManager.searchDoc Demo10.env "/proj" "my-crate" "needle"
               (mkOptions (Some (JsNum (5 # 2)))) Demo.w0) = inr results
        /\ length results = 3%nat
        /\ ~ (inject_Z (Z.of_nat (length results)) <= 5 # 2)%Q).
Proof.
  split.
  - eexists. split; [vm_compute; reflexivity |]. simpl. lia.
  - eexists. split; [vm_compute; reflexivity |]. split; [reflexivity |].
    simpl. intros H. apply Qle_bool_iff in H. discriminate.
Qed.

(** C7 (search, amended). The matches are the results of the files of the
    walk, in the order of the walk, whose content holds the query, both in
    lower case; a match is titled by the path of the symbol parsed from the
    file name, or by [path.basename(fileName, '.html')] when the name does
    not parse. Whenever [searchDoc] returns, the check has answered [true],
    the entry has been found, and the results are the matches kept by the
    limit: all of them without a limit, in which case every file of the walk
    has been read; the first [n] of them for an integer limit [n > 0], so
    that at most [n] results are returned, and exactly 3 for 10 matches and
    a limit of 3; and for any limit [q > 0] the matches collected while
    their number was below [q], so that the number of results is below
    [q + 1]. With a consistent [localeCompare] the results are sorted by
    title. And [searchDoc] does return when the check answers [true], the
    entry is found, and every directory and every documentation file of the
    walk can be read. *)
Theorem C7_search_semantics (env : Env) (pp cn query : string)
  (options : SearchOptions) (w : World) :
  (forall (results : list SearchResult) (w' : World),
     DocManager.searchDoc env pp cn query options w = (inr results, w') ->
     exists (w1 w2 : World) (c : DocCacheEntry) (entries : list Dirent),
       DocManager.checkDoc env pp cn w = (inr true, w1)
       /\ DocCache.get env pp cn w1 = (inr (Some c), w2)
       /\ fs_readdir env (path_dirname env (docPath c)) = Some entries
       /\ let steps :=
            steps_entries env entries (path_dirname env (docPath c)) "" in
          let matches := omap (search_result env cn query) (visited steps) in
          Permutation results (apply_limit options matches)
          /\ (limit options = None ->
                Forall (readable env) (visited steps)
                /\ Permutation results matches)
          /\ (forall n, limit options = Some (of_int n) -> 0 < n ->
                Permutation results (firstn (Z.to_nat n) matches)
                /\ Z.of_nat (length results) <= n
                /\ Z.of_nat (length results)
                   = Z.min n (Z.of_nat (length matches)))
          /\ (forall q, limit options = Some (JsNum q) -> (0 < q)%Q ->
                Permutation results (firstn (Z.to_nat (Qceiling q)) matches)
                /\ (inject_Z (Z.of_nat (length results)) < q + 1)%Q
                /\ length results
                   = Nat.min (Z.to_nat (Qceiling q)) (length matches))
          /\ (limit options = Some (of_int 3) -> length matches = 10%nat ->
                length results = 3%nat)
          /\ (Consistent (localeCompare env) ->
                StronglySorted
                  (fun a b => localeCompare env (res_title a) (res_title b) <= 0)
                  results))
  /\ (forall (w1 w2 : World) (c : DocCacheEntry) (entries : list Dirent),
        DocManager.checkDoc env pp cn w = (inr true, w1) ->
        DocCache.get env pp cn w1 = (inr (Some c), w2) ->
        fs_readdir env (path_dirname env (docPath c)) = Some entries ->
        let steps :=
          steps_entries env entries (path_dirname env (docPath c)) "" in
        existsb is_fail steps = false ->
        Forall (readable env) (visited steps) ->
        exists results,
          fst (DocManager.searchDoc env pp cn query options w) = inr results).
Proof.
  split.
  - intros results w' Hrun.
    destruct (searchDoc_returns env pp cn query options w w' results Hrun)
      as (w1 & w2 & c & entries & Hcheck & Hget & Hrd & Hf & Hres & Hall).
    exists w1, w2, c, entries. split; [done |]. split; [done |].
    split; [done |]. intros steps matches. fold steps matches in Hres, Hall.
    set (cmp := fun a b => localeCompare env (res_title a) (res_title b))
      in Hres.
    assert (Hperm : Permutation results (apply_limit options matches)).
    { rewrite Hres. apply sort_Permutation. }
    assert (Hcount : forall n k, limit options = Some n -> kept n = Some k ->
              Permutation results (firstn k matches)
              /\ length results = Nat.min k (length matches)).
    { intros n k Hl Hk.
      assert (Hk' : apply_limit options matches = firstn k matches).
      { unfold apply_limit, limit_count. by rewrite Hl, Hk. }
      rewrite Hk' in Hperm. split; [exact Hperm |].
      by rewrite (Permutation_length Hperm), length_firstn. }
    split; [exact Hperm |]. split; [| split; [| split; [| split]]].
    + intros Hl.
      assert (Hc : limit_count options = None)
        by (unfold limit_count; by rewrite Hl).
      split; [by apply Hall |].
      unfold apply_limit in Hperm. by rewrite Hc in Hperm.
    + intros n Hl Hn.
      destruct (Hcount _ _ Hl (kept_of_int n ltac:(lia))) as [Hp Hlen].
      split; [exact Hp |]. lia.
    + intros q Hl Hq.
      destruct (Hcount _ _ Hl (kept_positive q Hq)) as [Hp Hlen].
      split; [exact Hp |]. split; [| exact Hlen].
      apply below_limit; [exact Hq | lia].
    + intros Hl Hten.
      destruct (Hcount _ _ Hl (kept_of_int 3 ltac:(lia))) as [_ Hlen].
      rewrite Hlen, Hten. reflexivity.
    + intros Hcmp. rewrite Hres. apply (sort_StronglySorted cmp).
      by apply (Consistent_on_key (localeCompare env) res_title).
  - intros w1 w2 c entries Hcheck Hget Hrd steps Hf Hr.
    eexists.
    by apply (searchDoc_result env pp cn w w1 w2 c Hcheck Hget entries Hrd).
Qed.

Lemma C7_search_semantics_witness :
  exists results,
    fst (DocManager.searchDoc Demo10.env "/proj" "my-crate" "needle"
           (mkOptions (Some (of_int 3))) Demo.w0) = inr results
    /\ length results = 3%nat
    /\ map res_title results
       = ["my-crate::f0"; "my-crate::f1"; "my-crate::f2"]
    /\ StronglySorted
         (fun a b => Demo.compare_bytes (res_title a) (res_title b) <= 0) results.
Proof.
  pose (r := DocManager.searchDoc Demo10.env "/proj" "my-crate" "needle"
               (mkOptions (Some (of_int 3))) Demo.w0).
  assert (Hv : r = (inr [mkResult "my-crate::f0" "rustdoc:///tmp/t/doc/my-crate/fn.f0.html";
                         mkResult "my-crate::f1" "rustdoc:///tmp/t/doc/my-crate/fn.f1.html";
                         mkResult "my-crate::f2" "rustdoc:///tmp/t/doc/my-crate/fn.f2.html"],
                    snd r))
    by (vm_compute; reflexivity).
  destruct (C7_search_semantics Demo10.env "/proj" "my-crate" "needle"
              (mkOptions (Some (of_int 3))) Demo.w0) as [Hret _].
  destruct (Hret _ _ Hv)
    as (w1 & w2 & c & entries & Hcheck & Hget & Hrd & _ & _ & Hn & _ & _ & Hsorted).
  eexists. split; [fold r; by rewrite Hv |]. split; [reflexivity |].
  split; [reflexivity |].
  apply Hsorted, compare_bytes_Consistent.
Defined.

(** C10 (a limit of 0). With [limit: 0] the test of the handler never
    fires, as with no limit: [searchDoc] behaves in every state exactly as
    without a limit, and where the walk succeeds it returns a result for
    every file of the walk that holds the query. *)
Theorem C10_limit_zero_is_no_limit (env : Env) (pp cn query : string) (w : World) :
  (forall results, DocManager.limit_reached (mkOptions (Some (of_int 0))) results = false)
  /\ DocManager.searchDoc env pp cn query (mkOptions (Some (of_int 0))) w
     = DocManager.searchDoc env pp cn query (mkOptions None) w
  /\ (forall (w1 w2 : World) (c : DocCacheEntry) (entries : list Dirent),
        DocManager.checkDoc env pp cn w = (inr true, w1) ->
        DocCache.get env pp cn w1 = (inr (Some c), w2) ->
        fs_readdir env (path_dirname env (docPath c)) = Some entries ->
        let steps := steps_entries env entries (path_dirname env (docPath c)) "" in
        existsb is_fail steps = false ->
        Forall (readable env) (visited steps) ->
        exists results,
          fst (DocManager.searchDoc env pp cn query (mkOptions (Some (of_int 0))) w)
          = inr results
          /\ Permutation results
               (omap (search_result env cn query) (visited steps))).
Proof.
  split; [done |]. split; [reflexivity |].
  intros w1 w2 c entries Hcheck Hget Hrd steps Hf Hr.
  eexists. split.
  - by apply (searchDoc_result env pp cn w w1 w2 c Hcheck Hget entries Hrd).
  - apply sort_Permutation.
Qed.

Lemma C10_limit_zero_is_no_limit_witness :
  exists results,
    fst (DocManager.searchDoc Demo10.env "/proj" "my-crate" "needle"
           (mkOptions (Some (of_int 0))) Demo.w0) = inr results
    /\ length results = 10%nat.
Proof.
  pose (w1 := snd (DocManager.checkDoc Demo10.env "/proj" "my-crate" Demo.w0)).
  pose (w2 := snd (DocCache.get Demo10.env "/proj" "my-crate" w1)).
  destruct (C10_limit_zero_is_no_limit Demo10.env "/proj" "my-crate" "needle"
              Demo.w0) as (_ & _ & Hall).
  destruct (Hall w1 w2 (mkEntry "my-crate" "/proj" Demo.index_html 1001 true)
              Demo10.tree) as (results & Hres & Hperm).
  - vm_compute. reflexivity.
  - vm_compute. reflexivity.
  - vm_compute. reflexivity.
  - vm_compute. reflexivity.
  - repeat constructor; discriminate.
  - exists results. split; [exact Hres |].
    rewrite (Permutation_length Hperm). vm_compute. reflexivity.
Defined.

(** ** Directory exclusion *)

Lemma is_skipped_false (d : string) :
  DocManager.is_skipped d = false <-> d <> "src" /\ d <> "implementors".
Proof.
  unfold DocManager.is_skipped. rewrite orb_false_iff.
  by rewrite !String.eqb_neq.
Qed.

Section Exclusion.

Context (env : Env) (rd' : string -> option (list Dirent)).
Context (Hsame : forall d, option_map (map prune) (rd' d)
                           = option_map (map prune) (fs_readdir env d)).

Lemma steps_entry_with_readdir (entry : Dirent) :
  forall docDir modulePath,
    steps_entry (with_readdir env rd') entry docDir modulePath
    = steps_entry env entry docDir modulePath.
Proof.
  induction entry as [name | name sub IH | name] using Dirent_tree_ind;
    intros docDir modulePath; simpl; [done | | done].
  destruct (DocManager.is_skipped name); [done |]. f_equal.
  induction IH as [| e sub He Hsub IHsub]; simpl; [done |].
  by rewrite He, IHsub.
Qed.

Lemma steps_entries_with_readdir (entries : list Dirent) (docDir modulePath : string) :
  steps_entries (with_readdir env rd') entries docDir modulePath
  = steps_entries env entries docDir modulePath.
Proof.
  induction entries as [| e entries IH]; simpl; [done |].
  by rewrite steps_entry_with_readdir, IH.
Qed.

Lemma traverseDirectory_with_readdir {A}
  (handler : string -> string -> string -> A -> M A)
  (docDir crateName modulePath : string) (acc : A) (w : World) :
  DocManager.traverseDirectory (with_readdir env rd') handler docDir crateName
    modulePath acc w
  = DocManager.traverseDirectory env handler docDir crateName modulePath acc w.
Proof.
  unfold DocManager.traverseDirectory, bind. simpl.
  specialize (Hsame docDir).
  destruct (rd' docDir) as [es' |], (fs_readdir env docDir) as [es |];
    simpl in Hsame; try done.
  injection Hsame as Hp.
  rewrite !traverseEntries_steps.
  by rewrite steps_entries_with_readdir, (steps_entries_same_pruned env es es').
Qed.

Lemma listSymbols_with_readdir (pp cn : string) (w : World) :
  DocManager.listSymbols (with_readdir env rd') pp cn w
  = DocManager.listSymbols env pp cn w.
Proof.
  unfold DocManager.listSymbols, bind.
  change (DocManager.checkDoc (with_readdir env rd')) with (DocManager.checkDoc env).
  destruct (DocManager.checkDoc env pp cn w) as [[e | [|]] w1]; simpl; try done.
  change (DocCache.get (with_readdir env rd')) with (DocCache.get env).
  destruct (DocCache.get env pp cn w1) as [[e | [c |]] w2]; simpl; try done.
  unfold try_catch, bind. by rewrite traverseDirectory_with_readdir.
Qed.

Lemma searchDoc_with_readdir (pp cn query : string) (options : SearchOptions)
  (w : World) :
  DocManager.searchDoc (with_readdir env rd') pp cn query options w
  = DocManager.searchDoc env pp cn query options w.
Proof.
  unfold DocManager.searchDoc, bind.
  change (DocManager.checkDoc (with_readdir env rd')) with (DocManager.checkDoc env).
  destruct (DocManager.checkDoc env pp cn w) as [[e | [|]] w1]; simpl; try done.
  change (DocCache.get (with_readdir env rd')) with (DocCache.get env).
  destruct (DocCache.get env pp cn w1) as [[e | [c |]] w2]; simpl; try done.
  unfold try_catch, bind. by rewrite traverseDirectory_with_readdir.
Qed.

End Exclusion.

Section Provenance.

Context (env : Env) (pp cn : string) (w : World).

(** Where a successful walk has found the files it handed to the handler. *)
Lemma traverseDirectory_success {A}
  (handler : string -> string -> string -> A -> M A)
  (docDir : string) (acc res : A) (w0 w' : World) :
  DocManager.traverseDirectory env handler docDir cn "" acc w0 = (inr res, w') ->
  exists entries,
    fs_readdir env docDir = Some entries
    /\ run_steps handler (steps_entries env entries docDir "") acc
         (snd (emit (EvReaddir docDir) w0)) = (inr res, w').
Proof.
  intros Hrun.
  destruct (fs_readdir env docDir) as [entries |] eqn:Hrd.
  - exists entries. split; [done |].
    by rewrite <- (traverseDirectory_steps env cn handler docDir "" entries acc w0 Hrd).
  - unfold DocManager.traverseDirectory, bind in Hrun. simpl in Hrun.
    by rewrite Hrd in Hrun.
Qed.

Lemma listSymbols_provenance (symbols : list SymbolInfo) (w' : World) :
  DocManager.listSymbols env pp cn w = (inr symbols, w') ->
  forall s, In s symbols ->
    exists docDir entries dirs f p m,
      fs_readdir env docDir = Some entries
      /\ located env entries docDir "" dirs f p m
      /\ Forall (fun d => d <> "src" /\ d <> "implementors") dirs
      /\ DocManager.parseSymbolFromFile f m cn p = Some s.
Proof.
  unfold DocManager.listSymbols, bind, try_catch.
  destruct (DocManager.checkDoc env pp cn w) as [[e | [|]] w1]; simpl; try done.
  destruct (DocCache.get env pp cn w1) as [[e | [c |]] w2]; simpl; try done.
  destruct (DocManager.traverseDirectory _ _ _ _ _ _ w2) as [[e | syms] w3] eqn:Ht;
    simpl; [done |].
  intros [= <- <-] s Hs.
  apply traverseDirectory_success in Ht as (entries & Hrd & Hrun).
  pose proof (run_symbolHandler cn
                (steps_entries env entries (path_dirname env (docPath c)) "") []
                (snd (emit (EvReaddir (path_dirname env (docPath c))) w2))) as Hfst.
  rewrite Hrun in Hfst. simpl in Hfst.
  destruct (existsb is_fail _); [done |]. injection Hfst as ->.
  rewrite (sort_Permutation _ _) in Hs.
  apply list_elem_of_In, list_elem_of_omap in Hs as ([[f p] m] & Hin & Hsym).
  apply list_elem_of_In, visited_In, steps_entries_located in Hin
    as (dirs & Hloc & Hdirs & _).
  exists (path_dirname env (docPath c)), entries, dirs, f, p, m.
  repeat split; [done | done | | done].
  eapply Forall_impl; [exact Hdirs |]. intros d. by rewrite is_skipped_false.
Qed.

Lemma searchDoc_provenance (query : string) (options : SearchOptions)
  (results : list SearchResult) (w' : World) :
  DocManager.searchDoc env pp cn query options w = (inr results, w') ->
  forall r, In r results ->
    exists docDir entries dirs f p m,
      fs_readdir env docDir = Some entries
      /\ located env entries docDir "" dirs f p m
      /\ Forall (fun d => d <> "src" /\ d <> "implementors") dirs
      /\ search_result env cn query (f, p, m) = Some r.
Proof.
  unfold DocManager.searchDoc, bind, try_catch.
  destruct (DocManager.checkDoc env pp cn w) as [[e | [|]] w1]; simpl; try done.
  destruct (DocCache.get env pp cn w1) as [[e | [c |]] w2]; simpl; try done.
  destruct (DocManager.traverseDirectory _ _ _ _ _ _ w2) as [[e | res] w3] eqn:Ht;
    simpl; [done |].
  intros [= <- <-] r Hr.
  apply traverseDirectory_success in Ht as (entries & Hrd & Hrun).
  rewrite (sort_Permutation _ _) in Hr.
  destruct (run_searchHandler_sound env cn query options _ _ _ _ _ Hrun r Hr)
    as [[] | (f & p & m & Hin & Hres)].
  apply steps_entries_located in Hin as (dirs & Hloc & Hdirs & _).
  exists (path_dirname env (docPath c)), entries, dirs, f, p, m.
  repeat split; [done | done | | done].
  eapply Forall_impl; [exact Hdirs |]. intros d. by rewrite is_skipped_false.
Qed.

End Provenance.

(** C6 (directory exclusion). What lies below a directory named [src] or
    [implementors], at any depth, has no bearing on [listSymbols] and
    [searchDoc]: two file systems whose trees agree once the contents of
    those directories are removed give the same outcome in the same final
    state. And every symbol that [listSymbols] returns, and every result that
    [searchDoc] returns, comes from a file reached from the root of the walk
    through directories none of which is named [src] or [implementors]. *)
Theorem C6_skipped_directories (env : Env) (pp cn query : string)
  (options : SearchOptions) (w : World) :
  (forall rd' : string -> option (list Dirent),
     (forall d, option_map (map prune) (rd' d)
                = option_map (map prune) (fs_readdir env d)) ->
     DocManager.listSymbols (with_readdir env rd') pp cn w
     = DocManager.listSymbols env pp cn w
     /\ DocManager.searchDoc (with_readdir env rd') pp cn query options w
        = DocManager.searchDoc env pp cn query options w)
  /\ (forall (symbols : list SymbolInfo) (w' : World),
        DocManager.listSymbols env pp cn w = (inr symbols, w') ->
        forall s, In s symbols ->
          exists docDir entries dirs f p m,
            fs_readdir env docDir = Some entries
            /\ located env entries docDir "" dirs f p m
            /\ Forall (fun d => d <> "src" /\ d <> "implementors") dirs
            /\ DocManager.parseSymbolFromFile f m cn p = Some s)
  /\ (forall (results : list SearchResult) (w' : World),
        DocManager.searchDoc env pp cn query options w = (inr results, w') ->
        forall r, In r results ->
          exists docDir entries dirs f p m,
            fs_readdir env docDir = Some entries
            /\ located env entries docDir "" dirs f p m
            /\ Forall (fun d => d <> "src" /\ d <> "implementors") dirs
            /\ search_result env cn query (f, p, m) = Some r).
Proof.
  split; [| split].
  - intros rd' Hsame. split.
    + by apply listSymbols_with_readdir.
    + by apply searchDoc_with_readdir.
  - apply listSymbols_provenance.
  - apply searchDoc_provenance.
Qed.

Lemma C6_skipped_directories_witness :
  DocManager.listSymbols (with_readdir (Demo.env true) DemoSkip.readdir)
    "/proj" "my-crate" Demo.w0
  = DocManager.listSymbols (Demo.env true) "/proj" "my-crate" Demo.w0
  /\ DocManager.searchDoc (with_readdir (Demo.env true) DemoSkip.readdir)
       "/proj" "my-crate" "needle" (mkOptions None) Demo.w0
     = DocManager.searchDoc (Demo.env true) "/proj" "my-crate" "needle"
         (mkOptions None) Demo.w0.
Proof.
  destruct (C6_skipped_directories (Demo.env true) "/proj" "my-crate" "needle"
              (mkOptions None) Demo.w0) as [Hsame _].
  apply (Hsame DemoSkip.readdir).
  intros d. unfold DemoSkip.readdir. simpl.
  destruct (String.eqb d "/tmp/t/doc/my-crate"); reflexivity.
Defined.

(** ** The order of the listing *)

Section Stable.

Context {A : Type} (cmp : A -> A -> Z) (P : A -> bool).
Context (Hcmp : Consistent cmp).
Context (Hasym : forall a b, cmp a b < 0 -> 0 < cmp b a).
Context (Htie : forall a b, P a = true -> P b = true -> cmp a b = 0).





End Stable.


Section Reordering.

Context (env : Env).





End Reordering.









(** ** Failure of the metadata query *)

(** C8 (error code of a metadata failure). Let the manifest be present and
    the metadata query fail. On a miss of the cache, [checkDoc], and with it
    [listSymbols] and [searchDoc], throw [CARGO_ERROR]. [buildDoc], whose
    build command has succeeded, throws [BUILD_FAILED] instead: the
    [CARGO_ERROR] of [getTargetDir] is raised inside the [try] of [buildDoc]
    and its [catch] replaces it. *)
Theorem C8_metadata_failure (env : Env) (pp cn : string) (w : World) :
  fs_access env (path_join env [pp; "Cargo.toml"]) = true ->
  cargo_metadata env pp = None ->
  (forall noDeps : bool,
     cargo_run env pp
       (["doc"; "--no-deps"] ++ (if noDeps then ["--no-deps"] else [])
        ++ ["-p"; cn]) = true ->
     fst (DocManager.buildDoc env pp cn noDeps w) = inl (DocError BUILD_FAILED))
  /\ (cache w !! DocCache.getCacheKey pp cn = None ->
      fst (DocManager.checkDoc env pp cn w) = inl (DocError CARGO_ERROR)
      /\ fst (DocManager.listSymbols env pp cn w) = inl (DocError CARGO_ERROR)
      /\ forall query options,
           fst (DocManager.searchDoc env pp cn query options w)
           = inl (DocError CARGO_ERROR)).
Proof.
  intros Ha Hm. split.
  - intros noDeps Hrun. unfold DocManager.buildDoc. unfold bind at 1.
    rewrite (verifyProjectPath_ok env pp w Ha).
    unfold try_catch, bind, execa_cargo, emit. simpl in Hrun |- *.
    rewrite Hrun. simpl.
    match goal with
    | |- context [DocManager.getTargetDir env pp ?w1] =>
        rewrite (getTargetDir_fails env pp w1 Hm)
    end.
    done.
  - intros Hk.
    assert (Hc : fst (DocManager.checkDoc env pp cn w) = inl (DocError CARGO_ERROR)).
    { unfold DocManager.checkDoc. unfold bind at 1.
      rewrite (verifyProjectPath_ok env pp w Ha). unfold bind at 1.
      match goal with
      | |- context [DocCache.get env pp cn ?w1] =>
          rewrite (get_absent env pp cn w1 Hk)
      end.
      unfold try_catch, bind.
      match goal with
      | |- context [DocManager.getTargetDir env pp ?w1] =>
          rewrite (getTargetDir_fails env pp w1 Hm)
      end.
      done. }
    split; [exact Hc |]. split.
    + unfold DocManager.listSymbols, bind.
      destruct (DocManager.checkDoc env pp cn w) as [[e | b] w1]; simpl in *;
        congruence.
    + intros query options. unfold DocManager.searchDoc, bind.
      destruct (DocManager.checkDoc env pp cn w) as [[e | b] w1]; simpl in *;
        congruence.
Qed.

Lemma C8_metadata_failure_witness :
  fst (DocManager.buildDoc DemoMeta.env "/proj" "my-crate" false Demo.w0)
  = inl (DocError BUILD_FAILED)
  /\ trace (snd (DocManager.buildDoc DemoMeta.env "/proj" "my-crate" false Demo.w0))
     = [EvAccess Demo.manifest;
        EvCargo "/proj" ["doc"; "--no-deps"; "-p"; "my-crate"];
        EvMetadata "/proj"]
  /\ fst (DocManager.checkDoc DemoMeta.env "/proj" "my-crate" Demo.w0)
     = inl (DocError CARGO_ERROR).
Proof.
  destruct (C8_metadata_failure DemoMeta.env "/proj" "my-crate" Demo.w0
              eq_refl eq_refl) as [Hbuild Hcheck].
  split; [apply (Hbuild false); reflexivity |].
  split; [vm_compute; reflexivity |].
  apply Hcheck. reflexivity.
Defined.

(** * Further properties *)

(** ** URLs *)

Lemma replace_first_prefix (pat s : string) :
  replace_first pat "" (pat +:+ s) = s.
Proof.
  destruct pat as [| a pat].
  - by destruct s.
  - change (String a pat +:+ s) with (String a (pat +:+ s)).
    cbn [replace_first]. change (String a (pat +:+ s)) with (String a pat +:+ s).
    by rewrite strip_prefix_app.
Qed.

Lemma parse_of_create (p : string) :
  RustdocUrl.parse (RustdocUrl.create p) = inr p.
Proof.
  unfold RustdocUrl.parse, RustdocUrl.create, startsWith.
  rewrite strip_prefix_app. simpl negb. cbv iota.
  by rewrite replace_first_prefix.
Qed.

Lemma parse_form (url r : string) :
  RustdocUrl.parse url = inr r -> exists p, url = RustdocUrl.create p.
Proof.
  unfold RustdocUrl.parse, startsWith.
  destruct (strip_prefix "rustdoc://" url) as [rest |] eqn:Hp; [| done].
  intros _. exists rest. by apply strip_prefix_Some.
Qed.

(** X1. [parse] inverts [create], and nothing else parses: [parse(url)]
    returns [p] exactly when [url] is [create(p)], and throws otherwise. *)
Theorem RustdocUrl_parse_create (url : string) :
  (forall p, RustdocUrl.parse url = inr p <-> url = RustdocUrl.create p)
  /\ ((forall p, url <> RustdocUrl.create p) -> RustdocUrl.parse url = inl SysError).
Proof.
  pose proof parse_of_create as Hcreate.
  pose proof (parse_form url) as Hform.
  split.
  - intros p. split.
    + intros Hp. destruct (Hform p Hp) as (q & ->).
      rewrite Hcreate in Hp. by injection Hp as ->.
    + intros ->. apply Hcreate.
  - intros Hno. destruct (RustdocUrl.parse url) as [[c |] | r] eqn:Hp.
    + unfold RustdocUrl.parse in Hp. by destruct (negb _).
    + done.
    + destruct (Hform r eq_refl) as (q & ->). by destruct (Hno q).
Qed.

Lemma RustdocUrl_parse_create_witness :
  RustdocUrl.parse "rustdoc:///tmp/t/doc/my-crate/fn.f0.html"
  = inr "/tmp/t/doc/my-crate/fn.f0.html"
  /\ RustdocUrl.parse "file:///tmp/t/doc/my-crate/fn.f0.html" = inl SysError.
Proof.
  split.
  - apply (proj1 (RustdocUrl_parse_create _)). reflexivity.
  - apply (proj2 (RustdocUrl_parse_create _)). intros p. discriminate.
Defined.

(** ** More on the cache *)

Section MoreCacheFacts.

Context (env : Env).

Lemma remove_ok (pp cn : string) (w : World) :
  write_ok env (writes w) = true ->
  DocCache.remove env pp cn w
  = let c := delete (DocCache.getCacheKey pp cn) (cache w) in
    (inr tt, mkWorld c c (clock_reads w) (S (writes w))
                     (trace w ++ [EvWriteStore c])).
Proof.
  intros Hw. unfold DocCache.remove, bind, read_cache, write_cache. simpl.
  rewrite save_ok; [done | exact Hw].
Qed.

Lemma remove_cache (pp cn : string) (w : World) :
  cache (snd (DocCache.remove env pp cn w))
  = delete (DocCache.getCacheKey pp cn) (cache w).
Proof.
  unfold DocCache.remove, bind, read_cache, write_cache, DocCache.save,
    try_catch, fs_writeStore, throw. simpl.
  by destruct (write_ok env (writes w)).
Qed.

Lemma get_cache (pp cn : string) (w : World) :
  cache (snd (DocCache.get env pp cn w)) = cache w
  \/ cache (snd (DocCache.get env pp cn w))
     = delete (DocCache.getCacheKey pp cn) (cache w).
Proof.
  unfold DocCache.get, bind, read_cache, write_cache, Date_now, DocCache.save,
    try_catch, fs_writeStore, throw. simpl.
  destruct (cache w !! _) as [e |]; simpl; [| by left].
  destruct (_ >? _); simpl; [| by left].
  destruct (write_ok env (writes w)); by right.
Qed.

End MoreCacheFacts.

(** X2. [remove] deletes the entry under the key of the pair from the cache
    and rewrites the store file, also when there is no such entry; a [get]
    of the pair then returns absent without reading the clock. *)
Theorem DocCache_remove_then_get (env : Env) (pp cn : string) (w : World) :
  write_ok env (writes w) = true ->
  let key := DocCache.getCacheKey pp cn in
  let r := DocCache.remove env pp cn w in
  fst r = inr tt
  /\ cache (snd r) = delete key (cache w)
  /\ store (snd r) = delete key (cache w)
  /\ trace (snd r) = trace w ++ [EvWriteStore (delete key (cache w))]
  /\ DocCache.get env pp cn (snd r) = (inr None, snd r).
Proof.
  intros Hw key r. subst r. rewrite (remove_ok env pp cn w Hw). simpl.
  repeat split. apply get_absent. simpl. apply lookup_delete_eq.
Qed.

Lemma DocCache_remove_then_get_witness :
  let e := mkEntry "my-crate" "/proj" Demo.index_html 7 true in
  let w1 := snd (DocCache.set (Demo.env true) e Demo.w0) in
  let r := DocCache.remove (Demo.env true) "/proj" "my-crate" w1 in
  fst r = inr tt
  /\ fst (DocCache.get (Demo.env true) "/proj" "my-crate" (snd r)) = inr None.
Proof.
  intros e w1 r.
  destruct (DocCache_remove_then_get (Demo.env true) "/proj" "my-crate" w1 eq_refl)
    as (H1 & _ & _ & _ & H5).
  split; [exact H1 |]. subst r. by rewrite H5.
Defined.

(** X3. The operations of the cache on one pair leave the entries under
    every other key as they are, however they end. *)
Theorem DocCache_other_keys_untouched (env : Env) (pp cn : string)
  (e : DocCacheEntry) (w : World) (k' : string) :
  (k' <> DocCache.getCacheKey pp cn ->
   cache (snd (DocCache.get env pp cn w)) !! k' = cache w !! k'
   /\ cache (snd (DocCache.remove env pp cn w)) !! k' = cache w !! k')
  /\ (k' <> DocCache.getCacheKey (projectPath e) (crateName e) ->
      cache (snd (DocCache.set env e w)) !! k' = cache w !! k').
Proof.
  split.
  - intros Hk. split.
    + destruct (get_cache env pp cn w) as [-> | ->]; [done |].
      by apply lookup_delete_ne.
    + rewrite remove_cache. by apply lookup_delete_ne.
  - intros Hk. destruct (set_cache env e w) as [-> _].
    by apply lookup_insert_ne.
Qed.

Lemma DocCache_other_keys_untouched_witness :
  let a := mkEntry "a" "/proj" "/t/doc/a/index.html" 7 true in
  let b := mkEntry "b" "/proj" "/t/doc/b/index.html" 7 false in
  let w1 := snd (DocCache.set (Demo.env true) a Demo.w0) in
  cache (snd (DocCache.set (Demo.env true) b w1)) !! "/proj:a" = cache w1 !! "/proj:a"
  /\ cache (snd (DocCache.remove (Demo.env true) "/proj" "b" w1)) !! "/proj:a"
     = cache w1 !! "/proj:a".
Proof.
  intros a b w1.
  destruct (DocCache_other_keys_untouched (Demo.env true) "/proj" "b" b w1
              "/proj:a") as [Hgr Hset].
  split.
  - apply Hset. discriminate.
  - apply Hgr. discriminate.
Defined.

(** ** The keys of the cache *)

Lemma has_colon_app (a b : string) :
  has_colon (a +:+ ":" +:+ b) = true.
Proof.
  induction a as [| c a IH]; [done |].
  rewrite append_String. simpl. rewrite IH. apply orb_true_r.
Qed.

(** X4. Two pairs whose crate names hold no colon have the same key only
    when they are the same pair. *)
Theorem getCacheKey_injective (pp1 cn1 pp2 cn2 : string) :
  has_colon cn1 = false ->
  has_colon cn2 = false ->
  DocCache.getCacheKey pp1 cn1 = DocCache.getCacheKey pp2 cn2 ->
  pp1 = pp2 /\ cn1 = cn2.
Proof.
  unfold DocCache.getCacheKey. intros H1 H2. revert pp2.
  induction pp1 as [| a pp1 IH]; intros [| b pp2];
    rewrite ?append_String, ?append_empty.
  - by intros [= ->].
  - intros [= <- ->]. pose proof (has_colon_app pp2 cn2) as Hc.
    rewrite ?append_String, ?append_empty in Hc. congruence.
  - intros [= -> <-]. pose proof (has_colon_app pp1 cn1) as Hc.
    rewrite ?append_String, ?append_empty in Hc. congruence.
  - intros [= -> Hk]. destruct (IH pp2 Hk) as [-> ->]. done.
Qed.

Lemma getCacheKey_injective_witness :
  DocCache.getCacheKey "/proj" "my-crate"
  = DocCache.getCacheKey ("/pr" +:+ "oj") ("my-" +:+ "crate")
  /\ "/proj" = "/pr" +:+ "oj" /\ "my-crate" = "my-" +:+ "crate".
Proof.
  split; [reflexivity |].
  exact (getCacheKey_injective "/proj" "my-crate" ("/pr" +:+ "oj")
           ("my-" +:+ "crate") eq_refl eq_refl eq_refl).
Defined.

(** X5. An entry is found by its key alone. When the key of [(pp, cn)] is
    the key of the pair of an entry [e] just set, as happens for other pairs
    when a colon is part of the names, [get(pp, cn)] returns the entry of
    [e], with the project path and the crate name of [e]. *)
Theorem DocCache_get_by_key_only (env : Env) (e : DocCacheEntry) (pp cn : string)
  (w : World) :
  DocCache.getCacheKey pp cn
  = DocCache.getCacheKey (projectPath e) (crateName e) ->
  let now_set := date_now env (clock_reads w) in
  let w1 := snd (DocCache.set env e w) in
  date_now env (clock_reads w1) - now_set <= DocCache.CACHE_TTL ->
  fst (DocCache.get env pp cn w1) = inr (Some (with_lastBuildTime e now_set)).
Proof.
  intros Hkey now_set w1 Ht.
  destruct (set_cache env e w) as [Hc Hn].
  rewrite (get_fresh env _ _ w1 (with_lastBuildTime e now_set)); [done | |].
  - subst w1. rewrite Hc, Hkey. apply lookup_insert_eq.
  - exact Ht.
Qed.

Lemma DocCache_get_by_key_only_witness :
  let e := mkEntry "c" "a:b" "/t/doc/c/index.html" 7 true in
  let w1 := snd (DocCache.set (Demo.env true) e Demo.w0) in
  fst (DocCache.get (Demo.env true) "a" "b:c" w1)
  = inr (Some (mkEntry "c" "a:b" "/t/doc/c/index.html" 1000 true)).
Proof.
  intros e w1.
  apply (DocCache_get_by_key_only (Demo.env true) e "a" "b:c" Demo.w0 eq_refl).
  vm_compute. discriminate.
Defined.

(** ** Loading the cache *)

Section CleanupFacts.

Context (env : Env) (now : Z).

Lemma cleanup_fold_lookup (l : list (string * DocCacheEntry))
  (acc : CacheStorage) (ch : bool) (k : string) :
  fst (fold_left (DocCache.cleanup_step now) l (acc, ch)) !! k
  = if existsb (fun kv => String.eqb (fst kv) k && expired_at now (snd kv)) l
    then None else acc !! k.
Proof.
  revert acc ch. induction l as [| [k0 e0] l IH]; intros acc ch; simpl; [done |].
  unfold DocCache.cleanup_step at 2. simpl. fold (expired_at now e0).
  destruct (expired_at now e0); simpl.
  - rewrite IH. destruct (String.eqb_spec k0 k) as [-> | Hne]; simpl.
    + destruct (existsb _ l); [done | apply lookup_delete_eq].
    + destruct (existsb _ l); [done | by apply lookup_delete_ne].
  - rewrite IH. by rewrite andb_false_r.
Qed.

Lemma cleanup_fold_changed (l : list (string * DocCacheEntry))
  (acc : CacheStorage) (ch : bool) :
  snd (fold_left (DocCache.cleanup_step now) l (acc, ch))
  = ch || existsb (fun kv => expired_at now (snd kv)) l.
Proof.
  revert acc ch. induction l as [| [k0 e0] l IH]; intros acc ch; simpl.
  - by rewrite orb_false_r.
  - unfold DocCache.cleanup_step at 2. simpl. fold (expired_at now e0).
    destruct (expired_at now e0); simpl; rewrite IH; [| done].
    by rewrite orb_true_r.
Qed.

(** The loop of [cleanup] leaves exactly the entries that have not expired. *)
Lemma cleanup_loop_lookup (c : CacheStorage) (k : string) :
  fst (fold_left (DocCache.cleanup_step now) (map_to_list c) (c, false)) !! k
  = unexpired_at now c k.
Proof.
  rewrite cleanup_fold_lookup. unfold unexpired_at.
  destruct (existsb _ (map_to_list c)) eqn:Hex.
  - apply existsb_exists in Hex as ([k' e'] & Hin & Hb). simpl in Hb.
    apply andb_true_iff in Hb as [Hk He]. apply String.eqb_eq in Hk as ->.
    apply list_elem_of_In, elem_of_map_to_list in Hin. by rewrite Hin, He.
  - destruct (c !! k) as [e |] eqn:Hk; [| done].
    destruct (expired_at now e) eqn:He; [| done].
    assert (Hex' : existsb (fun kv => String.eqb (fst kv) k
                                      && expired_at now (snd kv))
                     (map_to_list c) = true); [| congruence].
    apply existsb_exists. exists (k, e). split.
    + by apply list_elem_of_In, elem_of_map_to_list.
    + simpl. by rewrite String.eqb_refl, He.
Qed.

Lemma cleanup_loop_changed (c : CacheStorage) :
  snd (fold_left (DocCache.cleanup_step now) (map_to_list c) (c, false))
  = some_expired now c.
Proof. by rewrite cleanup_fold_changed. Qed.

Lemma some_expired_false (c : CacheStorage) :
  some_expired now c = false ->
  fst (fold_left (DocCache.cleanup_step now) (map_to_list c) (c, false)) = c.
Proof.
  intros Hno. apply map_eq. intros k. rewrite cleanup_loop_lookup.
  unfold unexpired_at. destruct (c !! k) as [e |] eqn:Hk; [| done].
  destruct (expired_at now e) eqn:He; [| done].
  assert (Hex : some_expired now c = true); [| congruence].
  apply existsb_exists. exists (k, e). split; [| done].
  by apply list_elem_of_In, elem_of_map_to_list.
Qed.

End CleanupFacts.

(** What [initialize] makes of a store that parses, case by case. *)
Lemma initialize_parsed (env : Env) (cachePath : string) (c : CacheStorage)
  (w : World) :
  let now := date_now env (clock_reads w) in
  let c' := fst (fold_left (DocCache.cleanup_step now) (map_to_list c) (c, false)) in
  DocCache.initialize env cachePath (DocCache.Parsed c) w
  = if some_expired now c then
      if write_ok env (writes w) then
        (inr tt, mkWorld c' c' (S (clock_reads w)) (S (writes w))
                   (trace w ++ [EvReadFile cachePath; EvWriteStore c']))
      else
        (inl (DocError CACHE_ERROR),
         mkWorld c' (store w) (S (clock_reads w)) (S (writes w))
           (trace w ++ [EvReadFile cachePath]))
    else
      (inr tt, mkWorld c' (store w) (S (clock_reads w)) (writes w)
                 (trace w ++ [EvReadFile cachePath])).
Proof.
  intros now c'.
  unfold DocCache.initialize, DocCache.cleanup, bind, try_catch, emit,
    write_cache, Date_now, read_cache. simpl. fold now.
  rewrite cleanup_loop_changed. fold c'.
  destruct (some_expired now c); [| done].
  destruct (write_ok env (writes w)) eqn:Hw.
  - rewrite save_ok; [| exact Hw]. simpl. by rewrite <- app_assoc.
  - rewrite save_fails; [done | exact Hw].
Qed.

(** X6. [initialize] on a store that parses keeps, key by key, the entries
    not older than the TTL at the one reading of the clock it makes, and
    drops the others. When nothing has expired it writes nothing, and so
    succeeds even if the store file cannot be written; when something has
    expired and the write succeeds, the file holds the purged store. *)
Theorem DocCache_initialize_purges (env : Env) (cachePath : string)
  (c : CacheStorage) (w : World) :
  let now := date_now env (clock_reads w) in
  let r := DocCache.initialize env cachePath (DocCache.Parsed c) w in
  (forall k, cache (snd r) !! k = unexpired_at now c k)
  /\ (some_expired now c = false ->
      r = (inr tt, mkWorld c (store w) (S (clock_reads w)) (writes w)
                           (trace w ++ [EvReadFile cachePath])))
  /\ (some_expired now c = true ->
      write_ok env (writes w) = true ->
      fst r = inr tt
      /\ store (snd r) = cache (snd r)
      /\ trace (snd r)
         = trace w ++ [EvReadFile cachePath; EvWriteStore (cache (snd r))]).
Proof.
  intros now r. subst r. rewrite initialize_parsed. fold now.
  split; [| split].
  - intros k. rewrite <- cleanup_loop_lookup.
    destruct (some_expired now c); [| done].
    by destruct (write_ok env (writes w)).
  - intros Hno. rewrite Hno. by rewrite (some_expired_false now c Hno).
  - intros Hsome Hw. by rewrite Hsome, Hw.
Qed.

Lemma DocCache_initialize_purges_witness :
  let old := mkEntry "a" "/proj" "/t/doc/a/index.html" (1000 - 86400000 - 1) true in
  let new := mkEntry "b" "/proj" "/t/doc/b/index.html" (1000 - 86400000) false in
  let c : CacheStorage := {[ "/proj:a" := old; "/proj:b" := new ]} in
  let r := DocCache.initialize (Demo.env true) "/tmp/docs-rs-mcp-cache.json"
             (DocCache.Parsed c) Demo.w0 in
  fst r = inr tt
  /\ cache (snd r) !! "/proj:a" = None
  /\ cache (snd r) !! "/proj:b" = Some new
  /\ store (snd r) = cache (snd r).
Proof.
  intros old new c r.
  destruct (DocCache_initialize_purges (Demo.env true)
              "/tmp/docs-rs-mcp-cache.json" c Demo.w0) as (Hl & _ & Hw).
  destruct Hw as (H1 & H2 & _); [vm_compute; reflexivity | reflexivity |].
  split; [exact H1 |]. split; [| split; [| exact H2]].
  - subst r. rewrite Hl. vm_compute. reflexivity.
  - subst r. rewrite Hl. vm_compute. reflexivity.
Defined.

(** X7. [initialize] of the manager is that of the cache. Of a store file
    that is absent, that cannot be read, that is not JSON, or that holds a
    store of the declared type, it makes the following. Without a file it
    returns with the empty cache, and reads no clock and writes nothing. When
    the read fails or [JSON.parse] throws, it throws [CACHE_ERROR] and the
    state is as before, the read apart. On a store [c] it reads the clock
    once, and either returns or throws [CACHE_ERROR]: it returns exactly when
    [c] holds nothing expired or the store file can be rewritten, and the
    cache then holds no expired entry. *)
Theorem DocManager_initialize_outcome (env : Env) (cachePath : string)
  (w : World) :
  let now := date_now env (clock_reads w) in
  let read :=
    mkWorld (cache w) (store w) (clock_reads w) (writes w)
      (trace w ++ [EvReadFile cachePath]) in
  DocManager.initialize env cachePath DocCache.NoSuchFile w
  = (inr tt,
     mkWorld ∅ (store w) (clock_reads w) (writes w)
       (trace w ++ [EvReadFile cachePath]))
  /\ DocManager.initialize env cachePath DocCache.ReadFails w
     = (inl (DocError CACHE_ERROR), read)
  /\ DocManager.initialize env cachePath DocCache.ParseFails w
     = (inl (DocError CACHE_ERROR), read)
  /\ (forall c : CacheStorage,
        let r := DocManager.initialize env cachePath (DocCache.Parsed c) w in
        (fst r = inr tt \/ fst r = inl (DocError CACHE_ERROR))
        /\ (fst r = inr tt <->
            some_expired now c = false \/ write_ok env (writes w) = true)
        /\ (fst r = inr tt ->
            forall k e, cache (snd r) !! k = Some e ->
                        now - lastBuildTime e <= DocCache.CACHE_TTL)
        /\ clock_reads (snd r) = S (clock_reads w)).
Proof.
  intros now read. split; [done |]. split; [done |]. split; [done |].
  intros c r. unfold DocManager.initialize in r.
  pose proof (initialize_parsed env cachePath c w) as Hini.
  fold now r in Hini. cbv zeta in Hini.
  assert (Hl : forall k, cache (snd r) !! k = unexpired_at now c k).
  { intros k. rewrite <- cleanup_loop_lookup, Hini.
    destruct (some_expired now c); [| done].
    by destruct (write_ok env (writes w)). }
  assert (Hcases : (fst r = inr tt
                    /\ (some_expired now c = false
                        \/ write_ok env (writes w) = true))
                   \/ (fst r = inl (DocError CACHE_ERROR)
                       /\ some_expired now c = true
                       /\ write_ok env (writes w) = false)).
  { rewrite Hini. destruct (some_expired now c) eqn:Hs.
    - destruct (write_ok env (writes w)) eqn:Hw.
      + left. split; [done | by right].
      + by right.
    - left. split; [done | by left]. }
  split; [| split; [| split]].
  - destruct Hcases as [[H _] | [H _]]; [by left | by right].
  - split.
    + intros Hr. destruct Hcases as [[_ H] | [H _]]; [done | congruence].
    + intros H. destruct Hcases as [[H1 _] | (_ & H2 & H3)]; [done |].
      destruct H; congruence.
  - intros _ k e. rewrite Hl. unfold unexpired_at.
    destruct (c !! k) as [e' |]; [| done]. unfold expired_at.
    destruct (Z.gtb_spec (now - lastBuildTime e') DocCache.CACHE_TTL); [done |].
    by intros [= <-].
  - rewrite Hini. destruct (some_expired now c); [| done].
    by destruct (write_ok env (writes w)).
Qed.

Lemma DocManager_initialize_outcome_witness :
  fst (DocManager.initialize (Demo.env true) "/tmp/docs-rs-mcp-cache.json"
         DocCache.NoSuchFile Demo.w0) = inr tt
  /\ fst (DocManager.initialize (Demo.env true) "/tmp/docs-rs-mcp-cache.json"
            DocCache.ParseFails Demo.w0) = inl (DocError CACHE_ERROR)
  /\ fst (DocManager.initialize (Demo.env true) "/tmp/docs-rs-mcp-cache.json"
            (DocCache.Parsed
               {[ "/proj:old" := mkEntry "old" "/proj" "/d/old/index.html"
                                   (1000 - DocCache.CACHE_TTL - 1) true ]})
            Demo.w0) = inr tt.
Proof.
  destruct (DocManager_initialize_outcome (Demo.env true)
              "/tmp/docs-rs-mcp-cache.json" Demo.w0)
    as (Hnone & _ & Hparse & Hstore).
  split; [by rewrite Hnone |]. split; [by rewrite Hparse |].
  apply Hstore. by right.
Defined.



(** ** How exceptions and invariants pass through the monad *)

Section ThrowsOnly.

Context {A B : Type} (P : Exn -> Prop).

Lemma throws_ret (a : A) : throws_only P (ret a).
Proof. by intros w e w'. Qed.

Lemma throws_throw (e : Exn) : P e -> throws_only P (@throw A e).
Proof. intros He w e' w'. by intros [= <- _]. Qed.

Lemma throws_bind (m : M A) (k : A -> M B) :
  throws_only P m -> (forall a, throws_only P (k a)) -> throws_only P (bind m k).
Proof.
  intros Hm Hk w e w'. unfold bind.
  destruct (m w) as [[e0 | a] w1] eqn:Hr.
  - intros [= <- <-]. by apply (Hm w e0 w1).
  - apply Hk.
Qed.

(** What a [try] throws is what its [catch] throws. *)
Lemma throws_try_catch (m : M A) (h : Exn -> M A) :
  (forall e, throws_only P (h e)) -> throws_only P (try_catch m h).
Proof.
  intros Hh w e w'. unfold try_catch.
  destruct (m w) as [[e0 | a] w1]; [apply Hh | done].
Qed.

End ThrowsOnly.

Lemma throws_only_weaken {A} (P Q : Exn -> Prop) (m : M A) :
  (forall e, P e -> Q e) -> throws_only P m -> throws_only Q m.
Proof. intros Hpq Hm w e w' Hr. apply Hpq. by apply (Hm w e w'). Qed.

Lemma doc_error_in_here (code : DocErrorCode) (codes : list DocErrorCode) :
  In code codes -> doc_error_in codes (DocError code).
Proof. intros Hin. by exists code. Qed.

Section ThrowsFacts.

Context (env : Env).

Lemma throws_save (P : Exn -> Prop) :
  P (DocError CACHE_ERROR) -> throws_only P (DocCache.save env).
Proof. intros Hp. apply throws_try_catch. intros _. by apply throws_throw. Qed.

Lemma throws_get (P : Exn -> Prop) (pp cn : string) :
  P (DocError CACHE_ERROR) -> throws_only P (DocCache.get env pp cn).
Proof.
  intros Hp. unfold DocCache.get.
  apply throws_bind; [done |]. intros c.
  destruct (c !! _); [| apply throws_ret].
  apply throws_bind; [done |]. intros now.
  destruct (_ >? _); [| apply throws_ret].
  apply throws_bind; [done |]. intros c'.
  apply throws_bind; [done |]. intros _.
  apply throws_bind; [by apply throws_save |]. intros _. apply throws_ret.
Qed.

Lemma throws_verifyProjectPath (P : Exn -> Prop) (pp : string) :
  P (DocError INVALID_PATH) -> throws_only P (DocManager.verifyProjectPath env pp).
Proof. intros Hp. apply throws_try_catch. intros _. by apply throws_throw. Qed.

Lemma throws_checkDoc (pp cn : string) :
  throws_only (doc_error_in [INVALID_PATH; CACHE_ERROR; CARGO_ERROR])
    (DocManager.checkDoc env pp cn).
Proof.
  unfold DocManager.checkDoc.
  apply throws_bind.
  { apply throws_verifyProjectPath, doc_error_in_here. simpl. tauto. }
  intros _. apply throws_bind.
  { apply throws_get, doc_error_in_here. simpl. tauto. }
  intros [c |]; [apply throws_ret |].
  apply throws_try_catch. intros _.
  apply throws_throw, doc_error_in_here. simpl. tauto.
Qed.

Lemma throws_buildDoc (pp cn : string) (noDeps : bool) :
  throws_only (doc_error_in [INVALID_PATH; BUILD_FAILED])
    (DocManager.buildDoc env pp cn noDeps).
Proof.
  unfold DocManager.buildDoc.
  apply throws_bind.
  { apply throws_verifyProjectPath, doc_error_in_here. simpl. tauto. }
  intros _. apply throws_try_catch. intros _.
  apply throws_throw, doc_error_in_here. simpl. tauto.
Qed.

Lemma throws_listSymbols (pp cn : string) :
  throws_only
    (doc_error_in [INVALID_PATH; CACHE_ERROR; CARGO_ERROR; SEARCH_FAILED])
    (DocManager.listSymbols env pp cn).
Proof.
  unfold DocManager.listSymbols.
  apply throws_bind.
  { eapply throws_only_weaken; [| apply throws_checkDoc].
    intros e (code & -> & Hin). apply doc_error_in_here. simpl in *. tauto. }
  intros [|]; simpl; [| apply throws_throw, doc_error_in_here; simpl; tauto].
  apply throws_bind.
  { apply throws_get, doc_error_in_here. simpl. tauto. }
  intros [c |].
  - apply throws_try_catch. intros _.
    apply throws_throw, doc_error_in_here. simpl. tauto.
  - apply throws_throw, doc_error_in_here. simpl. tauto.
Qed.

Lemma throws_searchDoc (pp cn query : string) (options : SearchOptions) :
  throws_only
    (doc_error_in [INVALID_PATH; CACHE_ERROR; CARGO_ERROR; SEARCH_FAILED])
    (DocManager.searchDoc env pp cn query options).
Proof.
  unfold DocManager.searchDoc.
  apply throws_bind.
  { eapply throws_only_weaken; [| apply throws_checkDoc].
    intros e (code & -> & Hin). apply doc_error_in_here. simpl in *. tauto. }
  intros [|]; simpl; [| apply throws_throw, doc_error_in_here; simpl; tauto].
  apply throws_bind.
  { apply throws_get, doc_error_in_here. simpl. tauto. }
  intros [c |].
  - apply throws_try_catch. intros _.
    apply throws_throw, doc_error_in_here. simpl. tauto.
  - apply throws_throw, doc_error_in_here. simpl. tauto.
Qed.

Lemma throws_getDocPath (pp cn : string) :
  throws_only (doc_error_in [CACHE_ERROR]) (DocManager.getDocPath env pp cn).
Proof.
  unfold DocManager.getDocPath.
  apply throws_bind.
  { apply throws_get, doc_error_in_here. simpl. tauto. }
  intros [c |]; apply throws_ret.
Qed.

End ThrowsFacts.

(** X9. The public operations throw nothing but a [DocError], and each one
    only the codes of its own: [checkDoc] throws [INVALID_PATH],
    [CACHE_ERROR] or [CARGO_ERROR]; [buildDoc] throws [INVALID_PATH] or
    [BUILD_FAILED]; [listSymbols] and [searchDoc] throw one of those of
    [checkDoc] or [SEARCH_FAILED]; [getDocPath] throws [CACHE_ERROR] only. *)
Theorem DocManager_error_codes (env : Env) (pp cn query : string)
  (options : SearchOptions) (noDeps : bool) (w w' : World) (e : Exn) :
  (DocManager.checkDoc env pp cn w = (inl e, w') ->
   doc_error_in [INVALID_PATH; CACHE_ERROR; CARGO_ERROR] e)
  /\ (DocManager.buildDoc env pp cn noDeps w = (inl e, w') ->
      doc_error_in [INVALID_PATH; BUILD_FAILED] e)
  /\ (DocManager.listSymbols env pp cn w = (inl e, w') ->
      doc_error_in [INVALID_PATH; CACHE_ERROR; CARGO_ERROR; SEARCH_FAILED] e)
  /\ (DocManager.searchDoc env pp cn query options w = (inl e, w') ->
      doc_error_in [INVALID_PATH; CACHE_ERROR; CARGO_ERROR; SEARCH_FAILED] e)
  /\ (DocManager.getDocPath env pp cn w = (inl e, w') ->
      doc_error_in [CACHE_ERROR] e).
Proof.
  repeat split.
  - apply throws_checkDoc.
  - apply throws_buildDoc.
  - apply throws_listSymbols.
  - apply throws_searchDoc.
  - apply throws_getDocPath.
Qed.

Lemma DocManager_error_codes_witness :
  doc_error_in [INVALID_PATH; CACHE_ERROR; CARGO_ERROR; SEARCH_FAILED]
    (DocError SEARCH_FAILED)
  /\ doc_error_in [INVALID_PATH; BUILD_FAILED] (DocError BUILD_FAILED).
Proof.
  split.
  - apply (proj1 (proj2 (proj2 (DocManager_error_codes (Demo.env false) "/proj"
             "my-crate" "needle" (mkOptions None) false Demo.w0
             (snd (DocManager.listSymbols (Demo.env false) "/proj" "my-crate"
                     Demo.w0))
             (DocError SEARCH_FAILED))))).
    vm_compute. reflexivity.
  - apply (proj1 (proj2 (DocManager_error_codes DemoMeta.env "/proj"
             "my-crate" "needle" (mkOptions None) false Demo.w0
             (snd (DocManager.buildDoc DemoMeta.env "/proj" "my-crate" false
                     Demo.w0))
             (DocError BUILD_FAILED)))).
    vm_compute. reflexivity.
Defined.

(** ** A project without a manifest *)

(** X10. Without [Cargo.toml] under the project path, [checkDoc],
    [buildDoc], [listSymbols] and [searchDoc] all throw [INVALID_PATH]; the
    look at the manifest is their only effect: no subprocess is run, the
    clock is not read and the cache and the store file are not touched. *)
Theorem DocManager_invalid_project (env : Env) (pp cn query : string)
  (options : SearchOptions) (noDeps : bool) (w : World) :
  fs_access env (path_join env [pp; "Cargo.toml"]) = false ->
  let failed :=
    mkWorld (cache w) (store w) (clock_reads w) (writes w)
            (trace w ++ [EvAccess (path_join env [pp; "Cargo.toml"])]) in
  DocManager.checkDoc env pp cn w = (inl (DocError INVALID_PATH), failed)
  /\ DocManager.buildDoc env pp cn noDeps w = (inl (DocError INVALID_PATH), failed)
  /\ DocManager.listSymbols env pp cn w = (inl (DocError INVALID_PATH), failed)
  /\ DocManager.searchDoc env pp cn query options w
     = (inl (DocError INVALID_PATH), failed).
Proof.
  intros Ha failed.
  assert (Hc : DocManager.checkDoc env pp cn w
               = (inl (DocError INVALID_PATH), failed)).
  { unfold DocManager.checkDoc. unfold bind at 1.
    by rewrite (verifyProjectPath_invalid env pp w Ha). }
  split; [exact Hc |]. split; [| split].
  - unfold DocManager.buildDoc. unfold bind at 1.
    by rewrite (verifyProjectPath_invalid env pp w Ha).
  - unfold DocManager.listSymbols. unfold bind at 1. by rewrite Hc.
  - unfold DocManager.searchDoc. unfold bind at 1. by rewrite Hc.
Qed.

Lemma DocManager_invalid_project_witness :
  fst (DocManager.checkDoc (Demo.env true) "/elsewhere" "my-crate" Demo.w0)
  = inl (DocError INVALID_PATH)
  /\ trace (snd (DocManager.buildDoc (Demo.env true) "/elsewhere" "my-crate"
                   false Demo.w0))
     = [EvAccess "/elsewhere/Cargo.toml"].
Proof.
  destruct (DocManager_invalid_project (Demo.env true) "/elsewhere" "my-crate"
              "needle" (mkOptions None) false Demo.w0 eq_refl) as (H1 & H2 & _).
  rewrite H1, H2. split; reflexivity.
Defined.

(** ** Building *)

Section BuildFacts.

Context (env : Env) (pp cn : string) (noDeps : bool) (w : World).
Context (Ha : fs_access env (path_join env [pp; "Cargo.toml"]) = true).

Local Abbreviation manifest := (path_join env [pp; "Cargo.toml"]).
Local Abbreviation args :=
  ("doc" :: "--no-deps" :: (if noDeps then ["--no-deps"] else []) ++ ["-p"; cn]).

Lemma buildDoc_ok (dir : string) :
  cargo_run env pp args = true ->
  cargo_metadata env pp = Some dir ->
  write_ok env (writes w) = true ->
  let docPath := path_join env [dir; "doc"; cn; "index.html"] in
  let c := <[DocCache.getCacheKey pp cn
             := mkEntry cn pp docPath (date_now env (S (clock_reads w))) true]>
           (cache w) in
  DocManager.buildDoc env pp cn noDeps w
  = (inr docPath,
     mkWorld c c (S (S (clock_reads w))) (S (writes w))
       (trace w ++ [EvAccess manifest; EvCargo pp args; EvMetadata pp;
                    EvWriteStore c])).
Proof.
  intros Hrun Hm Hw docPath c.
  unfold DocManager.buildDoc. unfold bind at 1.
  rewrite (verifyProjectPath_ok env pp w Ha).
  unfold try_catch, bind at 1, execa_cargo, bind at 1, emit. simpl.
  rewrite Hrun. simpl. unfold bind at 1.
  match goal with
  | |- context [DocManager.getTargetDir env pp ?w1] =>
      rewrite (getTargetDir_ok env pp dir w1 Hm)
  end.
  unfold bind, Date_now. simpl. rewrite set_ok; [| exact Hw]. simpl.
  fold docPath. unfold with_lastBuildTime. simpl. fold c.
  by rewrite <- !app_assoc.
Qed.

Lemma buildDoc_command_fails :
  cargo_run env pp args = false ->
  DocManager.buildDoc env pp cn noDeps w
  = (inl (DocError BUILD_FAILED),
     mkWorld (cache w) (store w) (clock_reads w) (writes w)
       (trace w ++ [EvAccess manifest; EvCargo pp args])).
Proof.
  intros Hrun.
  unfold DocManager.buildDoc. unfold bind at 1.
  rewrite (verifyProjectPath_ok env pp w Ha).
  unfold try_catch, bind, execa_cargo, emit. simpl.
  rewrite Hrun. simpl. by rewrite <- !app_assoc.
Qed.

End BuildFacts.

(** X11. When the build command exits with code 0, the metadata query
    reports [dir] and the store file can be written, [buildDoc] returns
    [dir/doc/crateName/index.html] and records under the key of the pair, in
    the cache and in the store file, an entry with that path, [isBuilt] true
    and the time of the write. The command always carries [--no-deps]; with
    [noDeps] set the flag is passed twice and nothing else changes. *)
Theorem DocManager_buildDoc_success (env : Env) (pp cn dir : string)
  (noDeps : bool) (w : World) :
  fs_access env (path_join env [pp; "Cargo.toml"]) = true ->
  let args := "doc" :: "--no-deps"
              :: (if noDeps then ["--no-deps"] else []) ++ ["-p"; cn] in
  cargo_run env pp args = true ->
  cargo_metadata env pp = Some dir ->
  write_ok env (writes w) = true ->
  let docPath := path_join env [dir; "doc"; cn; "index.html"] in
  let r := DocManager.buildDoc env pp cn noDeps w in
  fst r = inr docPath
  /\ cache (snd r)
     = <[DocCache.getCacheKey pp cn
         := mkEntry cn pp docPath (date_now env (S (clock_reads w))) true]>
       (cache w)
  /\ store (snd r) = cache (snd r)
  /\ trace (snd r)
     = trace w ++ [EvAccess (path_join env [pp; "Cargo.toml"]); EvCargo pp args;
                   EvMetadata pp; EvWriteStore (cache (snd r))].
Proof.
  intros Ha args Hrun Hm Hw docPath r. subst r.
  by rewrite (buildDoc_ok env pp cn noDeps w Ha dir Hrun Hm Hw).
Qed.

Lemma DocManager_buildDoc_success_witness :
  let r := DocManager.buildDoc (Demo.env true) "/proj" "my-crate" true Demo.w0 in
  fst r = inr "/tmp/t/doc/my-crate/index.html"
  /\ cache (snd r) !! "/proj:my-crate"
     = Some (mkEntry "my-crate" "/proj" "/tmp/t/doc/my-crate/index.html" 1001 true)
  /\ trace (snd r)
     = [EvAccess "/proj/Cargo.toml";
        EvCargo "/proj" ["doc"; "--no-deps"; "--no-deps"; "-p"; "my-crate"];
        EvMetadata "/proj"; EvWriteStore (cache (snd r))].
Proof.
  intros r.
  destruct (DocManager_buildDoc_success (Demo.env true) "/proj" "my-crate"
              "/tmp/t" true Demo.w0 eq_refl eq_refl eq_refl eq_refl)
    as (H1 & H2 & _ & H4).
  split; [exact H1 |]. split; [| exact H4].
  subst r. rewrite H2. apply lookup_insert_eq.
Defined.

(** X12. When the build command fails, [buildDoc] throws [BUILD_FAILED]
    after the look at the manifest and the one run of the command: the
    metadata query is not made, and the cache and the store file are left as
    they were. *)
Theorem DocManager_buildDoc_command_fails (env : Env) (pp cn : string)
  (noDeps : bool) (w : World) :
  fs_access env (path_join env [pp; "Cargo.toml"]) = true ->
  let args := "doc" :: "--no-deps"
              :: (if noDeps then ["--no-deps"] else []) ++ ["-p"; cn] in
  cargo_run env pp args = false ->
  DocManager.buildDoc env pp cn noDeps w
  = (inl (DocError BUILD_FAILED),
     mkWorld (cache w) (store w) (clock_reads w) (writes w)
       (trace w ++ [EvAccess (path_join env [pp; "Cargo.toml"]);
                    EvCargo pp args])).
Proof.
  intros Ha args Hrun. by apply buildDoc_command_fails.
Qed.

Lemma DocManager_buildDoc_command_fails_witness :
  let env := mkEnv Demo.join_segments Demo.dirname Demo.basename Demo.lower
               Demo.compare_bytes (fun _ => 0) (fun _ => true)
               (fun _ => true) (fun _ => None) (fun _ => None)
               (fun _ => Some "/tmp/t") (fun _ _ => false) in
  DocManager.buildDoc env "/proj" "my-crate" false Demo.w0
  = (inl (DocError BUILD_FAILED),
     mkWorld ∅ ∅ 0 0
       [EvAccess "/proj/Cargo.toml";
        EvCargo "/proj" ["doc"; "--no-deps"; "-p"; "my-crate"]]).
Proof.
  intros env.
  exact (DocManager_buildDoc_command_fails env "/proj" "my-crate" false Demo.w0
           eq_refl eq_refl).
Defined.



(** ** The status check when the store file cannot be written *)

Ltac unfold_checkDoc :=
  unfold DocManager.checkDoc, DocManager.verifyProjectPath,
    DocManager.getTargetDir, DocCache.get, DocCache.set, DocCache.save,
    execa_metadata, access, fs_writeStore, try_catch, bind, emit, Date_now,
    read_cache, write_cache, ret, throw; simpl.

(** X14. On a miss, [checkDoc] catches a failed write of the entry like an
    absent entry-point file. When the file exists, the first write of the
    store fails and the second succeeds, [checkDoc] returns [false] and
    records [isBuilt] false for a file that is there. When no write
    succeeds, [checkDoc] throws [CARGO_ERROR], not [CACHE_ERROR]. *)
Theorem DocManager_checkDoc_write_failure (env : Env) (pp cn dir : string)
  (w : World) :
  fs_access env (path_join env [pp; "Cargo.toml"]) = true ->
  cache w !! DocCache.getCacheKey pp cn = None ->
  cargo_metadata env pp = Some dir ->
  write_ok env (writes w) = false ->
  let docPath := path_join env [dir; "doc"; cn; "index.html"] in
  let r := DocManager.checkDoc env pp cn w in
  (fs_access env docPath = true ->
   write_ok env (S (writes w)) = true ->
   fst r = inr false
   /\ cache (snd r)
      = <[DocCache.getCacheKey pp cn
          := mkEntry cn pp docPath (date_now env (S (S (S (clock_reads w)))))
                     false]> (cache w)
   /\ store (snd r) = cache (snd r))
  /\ ((fs_access env docPath = true -> write_ok env (S (writes w)) = false) ->
      fst r = inl (DocError CARGO_ERROR)).
Proof.
  intros Ha Hk Hm Hw docPath r. subst r. split.
  - intros Hacc Hw2. unfold_checkDoc. rewrite Ha. simpl. rewrite Hk. simpl.
    rewrite Hm. simpl. fold docPath. rewrite Hacc. simpl. rewrite Hw. simpl.
    rewrite Hw2. simpl. unfold with_lastBuildTime. simpl.
    by rewrite insert_insert_eq.
  - intros Hw2. unfold_checkDoc. rewrite Ha. simpl. rewrite Hk. simpl.
    rewrite Hm. simpl. fold docPath.
    destruct (fs_access env docPath); simpl; rewrite Hw; simpl; [| done].
    by rewrite Hw2.
Qed.

Lemma DocManager_checkDoc_write_failure_witness :
  let env := mkEnv Demo.join_segments Demo.dirname Demo.basename Demo.lower
               Demo.compare_bytes (fun n => 1000 + Z.of_nat n)
               (fun n => negb (Nat.eqb n 0))
               (fun _ => true) (fun _ => None) (fun _ => None)
               (fun _ => Some "/tmp/t") (fun _ _ => true) in
  let r := DocManager.checkDoc env "/proj" "my-crate" Demo.w0 in
  fst r = inr false
  /\ cache (snd r) !! "/proj:my-crate"
     = Some (mkEntry "my-crate" "/proj" "/tmp/t/doc/my-crate/index.html" 1003 false).
Proof.
  intros env r.
  destruct (DocManager_checkDoc_write_failure env "/proj" "my-crate" "/tmp/t"
              Demo.w0 eq_refl eq_refl eq_refl eq_refl) as [Hslip _].
  destruct (Hslip eq_refl eq_refl) as (H1 & H2 & _).
  split; [exact H1 |]. subst r. rewrite H2. apply lookup_insert_eq.
Defined.

(** ** Listing and searching: the entry that expires in between *)



(** ** Failures of the walk *)

Section WalkFailures.

Context {A : Type} (handler : string -> string -> string -> A -> M A).

Lemma run_steps_fail (steps : list Step) (acc : A) (w : World) :
  existsb is_fail steps = true ->
  exists e w', run_steps handler steps acc w = (inl e, w').
Proof.
  revert acc w. induction steps as [| [f p m | d | d] steps IH];
    intros acc w; simpl; [done | | |].
  - intros Hf. unfold bind.
    destruct (handler f p m acc w) as [[e | acc'] w1]; [by eauto |].
    by apply IH.
  - intros Hf. unfold bind, emit. by apply IH.
  - intros _. unfold bind, emit, throw. by eauto.
Qed.

End WalkFailures.

Lemma run_search_unreadable (env : Env) (cn query : string)
  (options : SearchOptions) (steps : list Step) (acc : list SearchResult)
  (w : World) :
  limit_count options = None ->
  Exists (fun file => fs_readFile env (snd (fst file)) = None) (visited steps) ->
  exists e w',
    run_steps (DocManager.searchHandler env cn query options) steps acc w
    = (inl e, w').
Proof.
  intros Hl.
  assert (Hnever : forall rs, DocManager.limit_reached options rs = false).
  { intros rs. by rewrite limit_reached_count, Hl. }
  revert acc w. induction steps as [| [f p m | d | d] steps IH];
    intros acc w; simpl.
  - by intros ?%Exists_nil.
  - intros [Hbad | Hrest]%Exists_cons; simpl in *.
    + unfold bind at 1, DocManager.searchHandler. rewrite Hnever.
      unfold bind, readFile, emit, throw. simpl. rewrite Hbad. by eauto.
    + unfold bind at 1.
      destruct (DocManager.searchHandler env cn query options f p m acc w)
        as [[e | acc'] w1]; [by eauto |].
      by apply IH.
  - intros Hex. unfold bind, emit. by apply IH.
  - intros Hex. unfold bind, emit, throw. by eauto.
Qed.

(** X16. Once the check has answered [true] and the entry has been found,
    a failure to read the tree ends [listSymbols] and [searchDoc] in
    [SEARCH_FAILED]: when the root directory cannot be listed, and when a
    directory of the walk cannot be listed, whatever the limit; and
    [searchDoc] without a limit also when a documentation file of the walk
    cannot be read. *)
Theorem DocManager_walk_failure (env : Env) (pp cn query : string)
  (options : SearchOptions) (w w1 w2 : World) (c : DocCacheEntry) :
  DocManager.checkDoc env pp cn w = (inr true, w1) ->
  DocCache.get env pp cn w1 = (inr (Some c), w2) ->
  let docDir := path_dirname env (docPath c) in
  (fs_readdir env docDir = None
   \/ (exists entries, fs_readdir env docDir = Some entries
         /\ existsb is_fail (steps_entries env entries docDir "") = true) ->
   fst (DocManager.listSymbols env pp cn w) = inl (DocError SEARCH_FAILED)
   /\ fst (DocManager.searchDoc env pp cn query options w)
      = inl (DocError SEARCH_FAILED))
  /\ (forall entries,
        fs_readdir env docDir = Some entries ->
        limit options = None \/ limit options = Some (of_int 0) ->
        Exists (fun file => fs_readFile env (snd (fst file)) = None)
          (visited (steps_entries env entries docDir "")) ->
        fst (DocManager.searchDoc env pp cn query options w)
        = inl (DocError SEARCH_FAILED)).
Proof.
  intros Hcheck Hget docDir. split.
  - intros Hbad.
    rewrite (listSymbols_walk env pp cn w w1 w2 c Hcheck Hget).
    rewrite (searchDoc_walk env pp cn w w1 w2 c Hcheck Hget).
    fold docDir.
    destruct Hbad as [Hnone | (entries & Hrd & Hfail)].
    + unfold DocManager.traverseDirectory, bind, emit, throw. simpl.
      by rewrite Hnone.
    + rewrite !(traverseDirectory_steps env cn _ docDir "" entries _ _ Hrd).
      destruct (run_steps_fail (DocManager.symbolHandler cn) _ []
                  (snd (emit (EvReaddir docDir) w2)) Hfail) as (e1 & w3 & ->).
      destruct (run_steps_fail (DocManager.searchHandler env cn query options)
                  _ [] (snd (emit (EvReaddir docDir) w2)) Hfail)
        as (e2 & w4 & ->).
      done.
  - intros entries Hrd Hl Hex.
    assert (Hc : limit_count options = None)
      by (unfold limit_count; by destruct Hl as [-> | ->]).
    rewrite (searchDoc_walk env pp cn w w1 w2 c Hcheck Hget). fold docDir.
    rewrite (traverseDirectory_steps env cn _ docDir "" entries _ _ Hrd).
    by destruct (run_search_unreadable env cn query options _ []
                   (snd (emit (EvReaddir docDir) w2)) Hc Hex) as (e & w3 & ->).
Qed.

Lemma DocManager_walk_failure_witness :
  let env := with_readdir (Demo.env true)
               (fun d => if String.eqb d "/tmp/t/doc/my-crate"
                         then Some [File "fn.a.html"; BrokenDir "net"]
                         else None) in
  fst (DocManager.listSymbols env "/proj" "my-crate" Demo.w0)
  = inl (DocError SEARCH_FAILED)
  /\ fst (DocManager.searchDoc env "/proj" "my-crate" "needle"
            (mkOptions (Some (of_int 1))) Demo.w0) = inl (DocError SEARCH_FAILED).
Proof.
  intros env.
  pose (w1 := snd (DocManager.checkDoc env "/proj" "my-crate" Demo.w0)).
  pose (w2 := snd (DocCache.get env "/proj" "my-crate" w1)).
  destruct (DocManager_walk_failure env "/proj" "my-crate" "needle"
              (mkOptions (Some (of_int 1))) Demo.w0 w1 w2
              (mkEntry "my-crate" "/proj" Demo.index_html 1001 true))
    as [Hfail _].
  - vm_compute. reflexivity.
  - vm_compute. reflexivity.
  - apply Hfail. right. exists [File "fn.a.html"; BrokenDir "net"].
    split; vm_compute; reflexivity.
Defined.

(** ** What the walk reaches *)

Section Reach.

Context (env : Env).

Lemma steps_entries_In (entries : list Dirent) (entry : Dirent)
  (docDir modulePath : string) (s : Step) :
  In entry entries ->
  In s (steps_entry env entry docDir modulePath) ->
  In s (steps_entries env entries docDir modulePath).
Proof.
  induction entries as [| e entries IH]; simpl; [done |].
  intros [-> | Hin] Hs; apply in_or_app; [by left | right; by apply IH].
Qed.

(** The converse of [steps_entries_located]: the walk hands every
    documentation file below directories that are not skipped to the
    handler. *)
Lemma located_steps (entries : list Dirent) (docDir modulePath : string)
  (dirs : list string) (f p m : string) :
  located env entries docDir modulePath dirs f p m ->
  Forall (fun d => DocManager.is_skipped d = false) dirs ->
  DocManager.is_doc_file f = true ->
  In (Visit f p m) (steps_entries env entries docDir modulePath).
Proof.
  intros Hloc. induction Hloc as [entries docDir modulePath name Hin
    | entries docDir modulePath d sub dirs f p m Hin Hloc IH]; intros Hdirs Hdoc.
  - apply (steps_entries_In entries (File name)); [done |].
    simpl. rewrite Hdoc. by left.
  - apply Forall_cons in Hdirs as [Hd Hdirs].
    apply (steps_entries_In entries (Dir d sub)); [done |].
    rewrite steps_entry_Dir, Hd. right. by apply IH.
Qed.

(** The module path at a file is the names of the directories that lead to
    it, joined by [::]. *)
Lemma located_modulePath_from (entries : list Dirent) (docDir modulePath : string)
  (dirs : list string) (f p m : string) :
  located env entries docDir modulePath dirs f p m ->
  modulePath <> "" ->
  m = String.concat "::" (modulePath :: dirs).
Proof.
  intros Hloc. induction Hloc as [entries docDir modulePath name Hin
    | entries docDir modulePath d sub dirs f p m Hin Hloc IH]; intros Hne.
  - done.
  - unfold DocManager.nextModulePath in IH.
    destruct modulePath as [| a mp]; [done |]. simpl is_empty in IH. cbv iota in IH.
    rewrite IH.
    + destruct dirs; simpl; by rewrite ?append_assoc.
    + by rewrite append_String.
Qed.

Lemma located_modulePath (entries : list Dirent) (docDir : string)
  (dirs : list string) (f p m : string) :
  located env entries docDir "" dirs f p m ->
  Forall (fun d => d <> "") dirs ->
  m = String.concat "::" dirs.
Proof.
  intros Hloc Hdirs. inversion Hloc as [| ? ? ? d sub dirs' ? ? ? Hin Hloc']; subst.
  - done.
  - apply Forall_cons in Hdirs as [Hd _].
    apply (located_modulePath_from _ _ _ _ _ _ _ Hloc').
    unfold DocManager.nextModulePath. simpl. done.
Qed.

End Reach.

Lemma parse_is_doc_file (f m cn p : string) (s : SymbolInfo) :
  DocManager.parseSymbolFromFile f m cn p = Some s ->
  DocManager.is_doc_file f = true.
Proof.
  unfold DocManager.parseSymbolFromFile.
  destruct (DocManager.match_alternatives f DocManager.symbol_keywords)
    as [[ty name] |] eqn:Hm; [| done].
  intros _. apply match_alternatives_Some in Hm as (kw & Hin & -> & _ & _).
  unfold DocManager.is_doc_file. apply andb_true_iff. split.
  - unfold endsWith.
    replace (kw +:+ "." +:+ name +:+ ".html")
      with ((kw +:+ "." +:+ name) +:+ ".html") by by rewrite !append_assoc.
    by rewrite strip_suffix_app.
  - apply negb_true_iff, String.eqb_neq.
    unfold DocManager.symbol_keywords in Hin. simpl in Hin.
    destruct Hin as [H | [H | [H | [H | [H | [H | [H | [H | []]]]]]]]];
      injection H as <- <-; rewrite ?append_String, ?append_empty; discriminate.
Qed.

(** X17. When the walk succeeds, [listSymbols] returns exactly the symbols
    of the files that lie below the root through directories none of which
    is named [src] or [implementors], and whose name parses as a symbol:
    each such file gives a symbol of the result, and each symbol of the
    result is given by such a file. *)
Theorem DocManager_listSymbols_exact (env : Env) (pp cn : string)
  (w w1 w2 : World) (c : DocCacheEntry) (entries : list Dirent) :
  DocManager.checkDoc env pp cn w = (inr true, w1) ->
  DocCache.get env pp cn w1 = (inr (Some c), w2) ->
  let docDir := path_dirname env (docPath c) in
  fs_readdir env docDir = Some entries ->
  existsb is_fail (steps_entries env entries docDir "") = false ->
  exists symbols,
    fst (DocManager.listSymbols env pp cn w) = inr symbols
    /\ forall s,
         In s symbols <->
         exists dirs f p m,
           located env entries docDir "" dirs f p m
           /\ Forall (fun d => d <> "src" /\ d <> "implementors") dirs
           /\ DocManager.parseSymbolFromFile f m cn p = Some s.
Proof.
  intros Hcheck Hget docDir Hrd Hf.
  eexists. split.
  { by apply (listSymbols_result env pp cn w w1 w2 c Hcheck Hget entries Hrd). }
  fold docDir. intros s. rewrite (sort_Permutation _ _).
  rewrite <- list_elem_of_In, list_elem_of_omap. split.
  - intros ([[f p] m] & Hin & Hsym).
    apply list_elem_of_In, visited_In, steps_entries_located in Hin
      as (dirs & Hloc & Hdirs & _).
    exists dirs, f, p, m. repeat split; [done | | done].
    eapply Forall_impl; [exact Hdirs |]. intros d. by rewrite is_skipped_false.
  - intros (dirs & f & p & m & Hloc & Hdirs & Hsym).
    exists (f, p, m). split; [| done].
    apply list_elem_of_In, visited_In.
    apply (located_steps env entries docDir "" dirs f p m Hloc).
    + eapply Forall_impl; [exact Hdirs |]. intros d. by rewrite is_skipped_false.
    + by apply (parse_is_doc_file f m cn p s).
Qed.

Lemma DocManager_listSymbols_exact_witness :
  exists symbols,
    fst (DocManager.listSymbols (Demo.env true) "/proj" "my-crate" Demo.w0)
    = inr symbols
    /\ In (mkSymbol "State" ENUM "my-crate::net::tcp::State"
             "rustdoc:///tmp/t/doc/my-crate/net/tcp/enum.State.html") symbols.
Proof.
  pose (w1 := snd (DocManager.checkDoc (Demo.env true) "/proj" "my-crate" Demo.w0)).
  pose (w2 := snd (DocCache.get (Demo.env true) "/proj" "my-crate" w1)).
  destruct (DocManager_listSymbols_exact (Demo.env true) "/proj" "my-crate"
              Demo.w0 w1 w2
              (mkEntry "my-crate" "/proj" Demo.index_html 1001 true) Demo.tree)
    as (symbols & Hres & Hiff).
  - vm_compute. reflexivity.
  - vm_compute. reflexivity.
  - vm_compute. reflexivity.
  - vm_compute. reflexivity.
  - exists symbols. split; [exact Hres |]. apply Hiff.
    exists ["net"; "tcp"], "enum.State.html",
      "/tmp/t/doc/my-crate/net/tcp/enum.State.html", "net::tcp".
    split; [| split; [| reflexivity]].
    + apply (located_below (Demo.env true) Demo.tree "/tmp/t/doc/my-crate" ""
               "net"
               [ File "fn.connect.html"; File "index.html";
                 Dir "implementors" [ File "trait.Secret.html" ];
                 Dir "tcp" [ File "enum.State.html" ] ]);
        [simpl; tauto |].
      apply (located_below (Demo.env true) _ "/tmp/t/doc/my-crate/net" "net"
               "tcp" [ File "enum.State.html" ]); [simpl; tauto |].
      apply (located_here (Demo.env true) [ File "enum.State.html" ]
               "/tmp/t/doc/my-crate/net/tcp" "net::tcp" "enum.State.html").
      simpl. tauto.
    + repeat constructor; discriminate.
Defined.

Lemma concat_snoc (sep : string) (l : list string) (x y : string) :
  String.concat sep ((x :: l) ++ [y]) = String.concat sep (x :: l) +:+ sep +:+ y.
Proof.
  revert x. induction l as [| z l IH]; intros x; [done |].
  change (String.concat sep ((x :: z :: l) ++ [y]))
    with (x +:+ sep +:+ String.concat sep ((z :: l) ++ [y])).
  rewrite IH.
  change (String.concat sep (x :: z :: l))
    with (x +:+ sep +:+ String.concat sep (z :: l)).
  by rewrite !append_assoc.
Qed.

(** X18. The path of the symbol parsed from a file of the walk is the crate
    name, the names of the directories that lead from the root to the file,
    and the name of the symbol, joined by [::]; its url is [create] of the
    path of the file. *)
Theorem DocManager_symbol_path (env : Env) (entries : list Dirent)
  (docDir cn : string) (dirs : list string) (f p m : string) (s : SymbolInfo) :
  located env entries docDir "" dirs f p m ->
  Forall (fun d => d <> "") dirs ->
  DocManager.parseSymbolFromFile f m cn p = Some s ->
  sym_path s = String.concat "::" (cn :: dirs ++ [sym_name s])
  /\ sym_url s = RustdocUrl.create p
  /\ RustdocUrl.parse (sym_url s) = inr p.
Proof.
  intros Hloc Hdirs Hs.
  rewrite (located_modulePath env entries docDir dirs f p m Hloc Hdirs) in Hs.
  unfold DocManager.parseSymbolFromFile in Hs.
  destruct (DocManager.match_alternatives f DocManager.symbol_keywords)
    as [[ty name] |]; [| done].
  injection Hs as <-. simpl. split; [| split; [done |]].
  - destruct dirs as [| d dirs]; [done |].
    apply Forall_cons in Hdirs as [Hd _].
    assert (Hne : is_empty (String.concat "::" (d :: dirs)) = false).
    { destruct d; [done |]. destruct dirs; by rewrite ?append_String. }
    rewrite Hne.
    change (String.concat "::" (cn :: (d :: dirs) ++ [replace_hyphens name]))
      with (cn +:+ "::"
            +:+ String.concat "::" ((d :: dirs) ++ [replace_hyphens name])).
    by rewrite concat_snoc.
  - apply parse_of_create.
Qed.

Lemma DocManager_symbol_path_witness :
  sym_path (mkSymbol "State" ENUM "my-crate::net::tcp::State"
              "rustdoc:///tmp/t/doc/my-crate/net/tcp/enum.State.html")
  = String.concat "::" ("my-crate" :: ["net"; "tcp"] ++ ["State"])
  /\ RustdocUrl.parse "rustdoc:///tmp/t/doc/my-crate/net/tcp/enum.State.html"
     = inr "/tmp/t/doc/my-crate/net/tcp/enum.State.html".
Proof.
  destruct (DocManager_symbol_path (Demo.env true) Demo.tree
              "/tmp/t/doc/my-crate" "my-crate" ["net"; "tcp"] "enum.State.html"
              "/tmp/t/doc/my-crate/net/tcp/enum.State.html" "net::tcp"
              (mkSymbol "State" ENUM "my-crate::net::tcp::State"
                 "rustdoc:///tmp/t/doc/my-crate/net/tcp/enum.State.html"))
    as (H1 & _ & H3).
  - apply (located_below (Demo.env true) Demo.tree "/tmp/t/doc/my-crate" ""
             "net"
             [ File "fn.connect.html"; File "index.html";
               Dir "implementors" [ File "trait.Secret.html" ];
               Dir "tcp" [ File "enum.State.html" ] ]);
      [simpl; tauto |].
    apply (located_below (Demo.env true) _ "/tmp/t/doc/my-crate/net" "net"
             "tcp" [ File "enum.State.html" ]); [simpl; tauto |].
    apply (located_here (Demo.env true) [ File "enum.State.html" ]
             "/tmp/t/doc/my-crate/net/tcp" "net::tcp" "enum.State.html").
    simpl. tauto.
  - repeat constructor; discriminate.
  - reflexivity.
  - exact (conj H1 H3).
Defined.

(** ** Handlers that agree *)

Lemma run_steps_ext {A} (h h' : string -> string -> string -> A -> M A)
  (steps : list Step) (acc : A) (w : World) :
  (forall f p m acc w, h f p m acc w = h' f p m acc w) ->
  run_steps h steps acc w = run_steps h' steps acc w.
Proof.
  intros Hext. revert acc w. induction steps as [| [f p m | d | d] steps IH];
    intros acc w; simpl; [done | | | done].
  - unfold bind. rewrite Hext.
    destruct (h' f p m acc w) as [[e | acc'] w1]; [done | apply IH].
  - unfold bind, emit. apply IH.
Qed.

Lemma traverseDirectory_ext {A} (env : Env)
  (h h' : string -> string -> string -> A -> M A)
  (docDir cn modulePath : string) (acc : A) (w : World) :
  (forall f p m acc w, h f p m acc w = h' f p m acc w) ->
  DocManager.traverseDirectory env h docDir cn modulePath acc w
  = DocManager.traverseDirectory env h' docDir cn modulePath acc w.
Proof.
  intros Hext. unfold DocManager.traverseDirectory, bind. simpl.
  destruct (fs_readdir env docDir) as [entries |]; [| done].
  rewrite !traverseEntries_steps. by apply run_steps_ext.
Qed.

(** ** The limit as a number *)





(** ** The query in lower case *)

(** X20. [searchDoc] sees the query in lower case only: two queries with
    the same lower case give the same results, the same exceptions and the
    same effects. *)
Theorem DocManager_searchDoc_query_case (env : Env) (pp cn query query' : string)
  (options : SearchOptions) (w : World) :
  toLowerCase env query = toLowerCase env query' ->
  DocManager.searchDoc env pp cn query options w
  = DocManager.searchDoc env pp cn query' options w.
Proof.
  intros Hq. unfold DocManager.searchDoc, bind.
  destruct (DocManager.checkDoc env pp cn w) as [[e | [|]] w1]; simpl; try done.
  destruct (DocCache.get env pp cn w1) as [[e | [c |]] w2]; simpl; try done.
  unfold try_catch, bind.
  rewrite (traverseDirectory_ext env
             (DocManager.searchHandler env cn query options)
             (DocManager.searchHandler env cn query' options)); [done |].
  intros f p m acc w0. unfold DocManager.searchHandler. by rewrite Hq.
Qed.

Lemma DocManager_searchDoc_query_case_witness :
  DocManager.searchDoc (Demo.env true) "/proj" "my-crate" "NeEdLe"
    (mkOptions None) Demo.w0
  = DocManager.searchDoc (Demo.env true) "/proj" "my-crate" "needle"
      (mkOptions None) Demo.w0.
Proof.
  apply (DocManager_searchDoc_query_case (Demo.env true) "/proj" "my-crate"
           "NeEdLe" "needle" (mkOptions None) Demo.w0).
  reflexivity.
Defined.

(** ** The urls that are returned *)

(** X21. Every url that [listSymbols] or [searchDoc] returns is parsed by
    [RustdocUrl.parse] into the path of a file of the tree; for a search
    result it is a file that could be read, and [readContent] of that path
    returns the conversion of its content. *)
Theorem DocManager_urls_parse (env : Env) (pp cn query : string)
  (options : SearchOptions) (w : World) :
  (forall symbols w',
     DocManager.listSymbols env pp cn w = (inr symbols, w') ->
     forall s, In s symbols ->
       exists docDir entries dirs f p m,
         fs_readdir env docDir = Some entries
         /\ located env entries docDir "" dirs f p m
         /\ RustdocUrl.parse (sym_url s) = inr p)
  /\ (forall results w',
        DocManager.searchDoc env pp cn query options w = (inr results, w') ->
        forall r, In r results ->
          exists docDir entries dirs f p m,
            fs_readdir env docDir = Some entries
            /\ located env entries docDir "" dirs f p m
            /\ RustdocUrl.parse (res_url r) = inr p
            /\ exists content,
                 fs_readFile env p = Some content
                 /\ forall turndown w0,
                      fst (RustdocUrl.readContent env turndown p w0)
                      = inr (turndown content)).
Proof.
  split.
  - intros symbols w' Hrun s Hs.
    destruct (listSymbols_provenance env pp cn w symbols w' Hrun s Hs)
      as (docDir & entries & dirs & f & p & m & Hrd & Hloc & _ & Hsym).
    exists docDir, entries, dirs, f, p, m. repeat split; [done | done |].
    unfold DocManager.parseSymbolFromFile in Hsym.
    destruct (DocManager.match_alternatives f DocManager.symbol_keywords)
      as [[ty name] |]; [| done].
    injection Hsym as <-. simpl. apply parse_of_create.
  - intros results w' Hrun r Hr.
    destruct (searchDoc_provenance env pp cn w query options results w' Hrun r Hr)
      as (docDir & entries & dirs & f & p & m & Hrd & Hloc & _ & Hres).
    exists docDir, entries, dirs, f, p, m. repeat split; [done | done | |].
    + unfold search_result in Hres.
      destruct (fs_readFile env p); [| done].
      destruct (includes _ _); [| done].
      injection Hres as <-. simpl. apply parse_of_create.
    + unfold search_result in Hres.
      destruct (fs_readFile env p) as [content |] eqn:Hc; [| done].
      exists content. split; [done |]. intros turndown w0.
      unfold RustdocUrl.readContent, bind, readFile, emit. simpl. by rewrite Hc.
Qed.

Lemma DocManager_urls_parse_witness :
  exists p content,
    RustdocUrl.parse "rustdoc:///tmp/t/doc/my-crate/struct.Foo-Bar.html" = inr p
    /\ fs_readFile (Demo.env true) p = Some content.
Proof.
  destruct (DocManager_urls_parse (Demo.env true) "/proj" "my-crate" "needle"
              (mkOptions (Some (of_int 1))) Demo.w0) as [_ Hsearch].
  destruct (Hsearch [mkResult "my-crate::Foo::Bar"
                 "rustdoc:///tmp/t/doc/my-crate/struct.Foo-Bar.html"]
              (snd (DocManager.searchDoc (Demo.env true) "/proj" "my-crate"
                      "needle" (mkOptions (Some (of_int 1))) Demo.w0))
              ltac:(vm_compute; reflexivity)
              (mkResult "my-crate::Foo::Bar"
                 "rustdoc:///tmp/t/doc/my-crate/struct.Foo-Bar.html")
              ltac:(by left))
    as (_ & _ & _ & _ & p & _ & _ & _ & Hp & content & Hread & _).
  exists p, content. exact (conj Hp Hread).
Defined.

(** ** Relations that every step preserves *)

Section Preserves.

(** [R] holds between a state and the states that differ from it in the
    counters only, it is transitive, and it holds across the record of an
    event that is [good]. *)
Context (R : World -> World -> Prop) (good : Event -> Prop).
Context (Hquiet : forall w w',
            cache w' = cache w -> store w' = store w -> trace w' = trace w ->
            R w w').
Context (Hemit : forall ev w, good ev -> R w (snd (emit ev w))).
Context (Htrans : forall a b c, R a b -> R b c -> R a c).
Context (Hgood_access : forall p, good (EvAccess p)).
Context (Hgood_metadata : forall cwd, good (EvMetadata cwd)).
Context (Hgood_readdir : forall d, good (EvReaddir d)).

Lemma preserves_ret {A} (a : A) : preserves R (ret a).
Proof. intros w. by apply Hquiet. Qed.

Lemma preserves_throw {A} (e : Exn) : preserves R (@throw A e).
Proof. intros w. by apply Hquiet. Qed.

Lemma preserves_bind {A B} (m : M A) (k : A -> M B) :
  preserves R m -> (forall a, preserves R (k a)) -> preserves R (bind m k).
Proof.
  intros Hm Hk w. unfold bind. specialize (Hm w).
  destruct (m w) as [[e | a] w1]; simpl in *; [done |].
  eapply Htrans; [exact Hm | apply Hk].
Qed.

Lemma preserves_try_catch {A} (m : M A) (h : Exn -> M A) :
  preserves R m -> (forall e, preserves R (h e)) -> preserves R (try_catch m h).
Proof.
  intros Hm Hh w. unfold try_catch. specialize (Hm w).
  destruct (m w) as [[e | a] w1]; simpl in *; [| done].
  eapply Htrans; [exact Hm | apply Hh].
Qed.

Lemma preserves_emit (ev : Event) : good ev -> preserves R (emit ev).
Proof. intros Hg w. by apply Hemit. Qed.

Lemma preserves_Date_now (env : Env) : preserves R (Date_now env).
Proof. intros w. by apply Hquiet. Qed.

Lemma preserves_access (env : Env) (p : string) : preserves R (access env p).
Proof.
  unfold access. apply preserves_bind; [by apply preserves_emit |]. intros _.
  destruct (fs_access env p); [apply preserves_ret | apply preserves_throw].
Qed.

Lemma preserves_readFile (env : Env) (p : string) :
  good (EvReadFile p) -> preserves R (readFile env p).
Proof.
  intros Hg.
  unfold readFile. apply preserves_bind; [by apply preserves_emit |]. intros _.
  destruct (fs_readFile env p); [apply preserves_ret | apply preserves_throw].
Qed.

Lemma preserves_verifyProjectPath (env : Env) (pp : string) :
  preserves R (DocManager.verifyProjectPath env pp).
Proof.
  apply preserves_try_catch; [apply preserves_access |].
  intros _. apply preserves_throw.
Qed.

Lemma preserves_getTargetDir (env : Env) (pp : string) :
  preserves R (DocManager.getTargetDir env pp).
Proof.
  apply preserves_try_catch; [| intros _; apply preserves_throw].
  unfold execa_metadata. apply preserves_bind; [by apply preserves_emit |].
  intros _.
  destruct (cargo_metadata env pp); [apply preserves_ret | apply preserves_throw].
Qed.

Lemma preserves_execa_cargo (env : Env) (cwd : string) (args : list string) :
  good (EvCargo cwd args) -> preserves R (execa_cargo env cwd args).
Proof.
  intros Hg.
  unfold execa_cargo. apply preserves_bind; [by apply preserves_emit |]. intros _.
  destruct (cargo_run env cwd args); [apply preserves_ret | apply preserves_throw].
Qed.

Lemma preserves_run_steps {A} (h : string -> string -> string -> A -> M A)
  (steps : list Step) :
  (forall f p m acc, preserves R (h f p m acc)) ->
  forall acc, preserves R (run_steps h steps acc).
Proof.
  intros Hh. induction steps as [| [f p m | d | d] steps IH]; intros acc; simpl.
  - apply preserves_ret.
  - apply preserves_bind; [apply Hh | apply IH].
  - apply preserves_bind; [by apply preserves_emit |]. intros _. apply IH.
  - apply preserves_bind; [by apply preserves_emit |]. intros _.
    apply preserves_throw.
Qed.

Lemma preserves_traverseDirectory {A} (env : Env)
  (h : string -> string -> string -> A -> M A) (docDir cn modulePath : string)
  (acc : A) :
  (forall f p m acc, preserves R (h f p m acc)) ->
  preserves R (DocManager.traverseDirectory env h docDir cn modulePath acc).
Proof.
  intros Hh w. unfold DocManager.traverseDirectory, bind.
  pose proof (Hemit (EvReaddir docDir) w (Hgood_readdir docDir)) as He.
  destruct (emit (EvReaddir docDir) w) as [[e | []] w0] eqn:Hw0; [done |].
  simpl in He.
  destruct (fs_readdir env docDir) as [entries |].
  - rewrite traverseEntries_steps.
    eapply Htrans; [exact He | apply (preserves_run_steps h _ Hh acc)].
  - exact He.
Qed.

Lemma preserves_symbolHandler (cn f p m : string) (acc : list SymbolInfo) :
  preserves R (DocManager.symbolHandler cn f p m acc).
Proof.
  unfold DocManager.symbolHandler.
  destruct (DocManager.parseSymbolFromFile f m cn p); apply preserves_ret.
Qed.

Lemma preserves_searchHandler (env : Env) (cn query : string)
  (options : SearchOptions) (f p m : string) (acc : list SearchResult) :
  (forall p, good (EvReadFile p)) ->
  preserves R (DocManager.searchHandler env cn query options f p m acc).
Proof.
  intros Hg. unfold DocManager.searchHandler.
  destruct (DocManager.limit_reached options acc); [apply preserves_ret |].
  apply preserves_bind; [by apply preserves_readFile |]. intros content.
  destruct (includes _ _); apply preserves_ret.
Qed.

(** The operations of the manager preserve what the operations of the cache
    on their pair preserve. *)
Context (env : Env) (pp cn : string).
Context (Hget : preserves R (DocCache.get env pp cn)).
Context (Hset : forall docPath t b,
            preserves R (DocCache.set env (mkEntry cn pp docPath t b))).

Lemma preserves_checkDoc : preserves R (DocManager.checkDoc env pp cn).
Proof.
  unfold DocManager.checkDoc.
  apply preserves_bind; [apply preserves_verifyProjectPath |]. intros _.
  apply preserves_bind; [apply Hget |]. intros [c |]; [apply preserves_ret |].
  apply preserves_try_catch; [| intros _; apply preserves_throw].
  apply preserves_bind; [apply preserves_getTargetDir |]. intros dir.
  apply preserves_try_catch.
  - apply preserves_bind; [apply preserves_access |]. intros _.
    apply preserves_bind; [apply preserves_Date_now |]. intros t.
    apply preserves_bind; [apply Hset |]. intros _. apply preserves_ret.
  - intros _. apply preserves_bind; [apply preserves_Date_now |]. intros t.
    apply preserves_bind; [apply Hset |]. intros _. apply preserves_ret.
Qed.

Lemma preserves_buildDoc (noDeps : bool) :
  (forall args, good (EvCargo pp args)) ->
  preserves R (DocManager.buildDoc env pp cn noDeps).
Proof.
  intros Hg. unfold DocManager.buildDoc.
  apply preserves_bind; [apply preserves_verifyProjectPath |]. intros _.
  apply preserves_try_catch; [| intros _; apply preserves_throw].
  apply preserves_bind; [by apply preserves_execa_cargo |]. intros _.
  apply preserves_bind; [apply preserves_getTargetDir |]. intros dir.
  apply preserves_bind; [apply preserves_Date_now |]. intros t.
  apply preserves_bind; [apply Hset |]. intros _. apply preserves_ret.
Qed.

Lemma preserves_listSymbols : preserves R (DocManager.listSymbols env pp cn).
Proof.
  unfold DocManager.listSymbols.
  apply preserves_bind; [apply preserves_checkDoc |].
  intros [|]; simpl; [| apply preserves_throw].
  apply preserves_bind; [apply Hget |]. intros [c |]; [| apply preserves_throw].
  apply preserves_try_catch; [| intros _; apply preserves_throw].
  apply preserves_bind; [| intros; apply preserves_ret].
  apply preserves_traverseDirectory. intros. apply preserves_symbolHandler.
Qed.

Lemma preserves_searchDoc (query : string) (options : SearchOptions) :
  (forall p, good (EvReadFile p)) ->
  preserves R (DocManager.searchDoc env pp cn query options).
Proof.
  intros Hg. unfold DocManager.searchDoc.
  apply preserves_bind; [apply preserves_checkDoc |].
  intros [|]; simpl; [| apply preserves_throw].
  apply preserves_bind; [apply Hget |]. intros [c |]; [| apply preserves_throw].
  apply preserves_try_catch; [| intros _; apply preserves_throw].
  apply preserves_bind; [| intros; apply preserves_ret].
  apply preserves_traverseDirectory. intros. by apply preserves_searchHandler.
Qed.

Lemma preserves_getDocPath : preserves R (DocManager.getDocPath env pp cn).
Proof.
  unfold DocManager.getDocPath.
  apply preserves_bind; [apply Hget |]. intros [c |]; apply preserves_ret.
Qed.

End Preserves.

(** ** Other keys *)

Section OtherKeys.

Context (env : Env) (pp cn : string).

Local Abbreviation key := (DocCache.getCacheKey pp cn).
Local Abbreviation any := (fun _ : Event => True).

Lemma same_elsewhere_quiet (w w' : World) :
  cache w' = cache w -> store w' = store w -> trace w' = trace w ->
  same_elsewhere key w w'.
Proof. intros Hc _ _ k' _. by rewrite Hc. Qed.

Lemma same_elsewhere_emit (ev : Event) (w : World) :
  any ev -> same_elsewhere key w (snd (emit ev w)).
Proof. by intros _ k' _. Qed.

Lemma same_elsewhere_trans (a b c : World) :
  same_elsewhere key a b -> same_elsewhere key b c -> same_elsewhere key a c.
Proof. intros Hab Hbc k' Hk. by rewrite (Hbc k' Hk), (Hab k' Hk). Qed.

Lemma same_elsewhere_get : preserves (same_elsewhere key) (DocCache.get env pp cn).
Proof.
  intros w k' Hk. destruct (get_cache env pp cn w) as [-> | ->]; [done |].
  by apply lookup_delete_ne.
Qed.

Lemma same_elsewhere_set (docPath : string) (t : Z) (b : bool) :
  preserves (same_elsewhere key) (DocCache.set env (mkEntry cn pp docPath t b)).
Proof.
  intros w k' Hk. destruct (set_cache env (mkEntry cn pp docPath t b) w) as [-> _].
  by apply lookup_insert_ne.
Qed.

End OtherKeys.

(** X22. Whatever they do and however they end, the operations of the
    manager on one pair leave the entries of the cache under every other key
    as they are. *)
Theorem DocManager_other_keys_untouched (env : Env) (pp cn query : string)
  (options : SearchOptions) (noDeps : bool) (w : World) :
  let key := DocCache.getCacheKey pp cn in
  same_elsewhere key w (snd (DocManager.checkDoc env pp cn w))
  /\ same_elsewhere key w (snd (DocManager.buildDoc env pp cn noDeps w))
  /\ same_elsewhere key w (snd (DocManager.listSymbols env pp cn w))
  /\ same_elsewhere key w (snd (DocManager.searchDoc env pp cn query options w))
  /\ same_elsewhere key w (snd (DocManager.getDocPath env pp cn w)).
Proof.
  intros key.
  pose proof (same_elsewhere_quiet pp cn) as Hq.
  pose proof (same_elsewhere_emit pp cn) as He.
  pose proof (same_elsewhere_trans pp cn) as Ht.
  pose proof (same_elsewhere_get env pp cn) as Hg.
  pose proof (same_elsewhere_set env pp cn) as Hs.
  repeat split.
  - by apply (preserves_checkDoc (same_elsewhere key) (fun _ => True) Hq He Ht).
  - by apply (preserves_buildDoc (same_elsewhere key) (fun _ => True) Hq He Ht).
  - by apply (preserves_listSymbols (same_elsewhere key) (fun _ => True) Hq He Ht).
  - by apply (preserves_searchDoc (same_elsewhere key) (fun _ => True) Hq He Ht).
  - by apply (preserves_getDocPath (same_elsewhere key) Hq Ht).
Qed.

Lemma DocManager_other_keys_untouched_witness :
  let a := mkEntry "a" "/proj" "/t/doc/a/index.html" 7 true in
  let w1 := snd (DocCache.set (Demo.env true) a Demo.w0) in
  cache (snd (DocManager.buildDoc (Demo.env true) "/proj" "my-crate" false w1))
    !! "/proj:a" = cache w1 !! "/proj:a".
Proof.
  intros a w1.
  destruct (DocManager_other_keys_untouched (Demo.env true) "/proj" "my-crate"
              "needle" (mkOptions None) false w1) as (_ & Hbuild & _).
  apply Hbuild. discriminate.
Defined.

(** ** The store file and the cache in step *)

Section Synced.

Lemma ends_keeps {A} (m : M A) : ends_synced m -> keeps_synced m.
Proof. intros Hm w r w' _. apply Hm. Qed.

Lemma keeps_ret {A} (a : A) : keeps_synced (ret a).
Proof. intros w r w' Hs. by intros [= _ <-]. Qed.

Lemma ends_throw {A} (e : Exn) : ends_synced (@throw A e).
Proof. by intros w r w'. Qed.

Lemma keeps_bind {A B} (m : M A) (k : A -> M B) :
  keeps_synced m -> (forall a, keeps_synced (k a)) -> keeps_synced (bind m k).
Proof.
  intros Hm Hk w r w' Hs. unfold bind.
  destruct (m w) as [[e | a] w1] eqn:Hr; [done |].
  apply Hk. by apply (Hm w a w1).
Qed.

Lemma ends_bind_l {A B} (m : M A) (k : A -> M B) :
  ends_synced m -> (forall a, keeps_synced (k a)) -> ends_synced (bind m k).
Proof.
  intros Hm Hk w r w'. unfold bind.
  destruct (m w) as [[e | a] w1] eqn:Hr; [done |].
  apply Hk. by apply (Hm w a w1).
Qed.

Lemma ends_bind_r {A B} (m : M A) (k : A -> M B) :
  (forall a, ends_synced (k a)) -> ends_synced (bind m k).
Proof.
  intros Hk w r w'. unfold bind.
  destruct (m w) as [[e | a] w1]; [done | apply Hk].
Qed.

(** A [try] whose [catch] ends in step keeps in step: the state at the
    throw need not be. *)
Lemma keeps_try_catch {A} (m : M A) (h : Exn -> M A) :
  keeps_synced m -> (forall e, ends_synced (h e)) -> keeps_synced (try_catch m h).
Proof.
  intros Hm Hh w r w' Hs. unfold try_catch.
  destruct (m w) as [[e | a] w1] eqn:Hr.
  - apply Hh.
  - intros [= <- <-]. by apply (Hm w a w1).
Qed.

Lemma ends_try_catch {A} (m : M A) (h : Exn -> M A) :
  ends_synced m -> (forall e, ends_synced (h e)) -> ends_synced (try_catch m h).
Proof.
  intros Hm Hh w r w'. unfold try_catch.
  destruct (m w) as [[e | a] w1] eqn:Hr.
  - apply Hh.
  - intros [= <- <-]. by apply (Hm w a w1).
Qed.

Lemma keeps_of_untouched {A} (m : M A) : preserves untouched m -> keeps_synced m.
Proof.
  intros Hm w r w' Hs Hr. destruct (Hm w) as [Hc Hst]. rewrite Hr in Hc, Hst.
  unfold synced in *. simpl in *. congruence.
Qed.

Lemma untouched_quiet (w w' : World) :
  cache w' = cache w -> store w' = store w -> trace w' = trace w -> untouched w w'.
Proof. by intros Hc Hs _. Qed.

Lemma untouched_emit (ev : Event) (w : World) :
  (fun _ : Event => True) ev -> untouched w (snd (emit ev w)).
Proof. by intros _. Qed.

Lemma untouched_trans (a b c : World) :
  untouched a b -> untouched b c -> untouched a c.
Proof. intros [H1 H2] [H3 H4]. split; congruence. Qed.

Context (env : Env).

Lemma ends_save : ends_synced (DocCache.save env).
Proof.
  intros w r w'. unfold DocCache.save, try_catch, fs_writeStore.
  destruct (write_ok env (writes w)); [| done]. by intros [= _ <-].
Qed.

Lemma ends_set (e : DocCacheEntry) : ends_synced (DocCache.set env e).
Proof.
  unfold DocCache.set. repeat (apply ends_bind_r; intros ?). apply ends_save.
Qed.

Lemma ends_remove (pp cn : string) : ends_synced (DocCache.remove env pp cn).
Proof.
  unfold DocCache.remove. repeat (apply ends_bind_r; intros ?). apply ends_save.
Qed.

Lemma keeps_get (pp cn : string) : keeps_synced (DocCache.get env pp cn).
Proof.
  intros w r w' Hs. unfold DocCache.get, bind, read_cache, Date_now, write_cache.
  destruct (cache w !! _) as [e |]; [| by intros [= _ <-]]. simpl.
  destruct (_ >? _); [| by intros [= _ <-]].
  unfold DocCache.save, try_catch, fs_writeStore. simpl.
  destruct (write_ok env (writes w)); [| done]. by intros [= _ <-].
Qed.

Lemma keeps_verifyProjectPath (pp : string) :
  keeps_synced (DocManager.verifyProjectPath env pp).
Proof.
  apply keeps_of_untouched.
  by apply (preserves_verifyProjectPath untouched (fun _ => True)
              untouched_quiet untouched_emit untouched_trans).
Qed.

Lemma keeps_checkDoc (pp cn : string) : keeps_synced (DocManager.checkDoc env pp cn).
Proof.
  unfold DocManager.checkDoc.
  apply keeps_bind; [apply keeps_verifyProjectPath |]. intros _.
  apply keeps_bind; [apply keeps_get |]. intros [c |]; [apply keeps_ret |].
  apply ends_keeps, ends_try_catch; [| intros _; apply ends_throw].
  apply ends_bind_r. intros dir. apply ends_try_catch.
  - apply ends_bind_r. intros _. apply ends_bind_r. intros t.
    apply ends_bind_l; [apply ends_set |]. intros _. apply keeps_ret.
  - intros _. apply ends_bind_r. intros t.
    apply ends_bind_l; [apply ends_set |]. intros _. apply keeps_ret.
Qed.

Lemma ends_buildDoc (pp cn : string) (noDeps : bool) :
  ends_synced (DocManager.buildDoc env pp cn noDeps).
Proof.
  unfold DocManager.buildDoc.
  apply ends_bind_r. intros _.
  apply ends_try_catch; [| intros _; apply ends_throw].
  apply ends_bind_r. intros _. apply ends_bind_r. intros dir.
  apply ends_bind_r. intros t.
  apply ends_bind_l; [apply ends_set |]. intros _. apply keeps_ret.
Qed.

Lemma keeps_traverse {A} (h : string -> string -> string -> A -> M A)
  (docDir cn : string) (acc : A) :
  (forall f p m acc, preserves untouched (h f p m acc)) ->
  keeps_synced (DocManager.traverseDirectory env h docDir cn "" acc).
Proof.
  intros Hh. apply keeps_of_untouched.
  by apply (preserves_traverseDirectory untouched (fun _ => True)
              untouched_quiet untouched_emit untouched_trans).
Qed.

Lemma keeps_listSymbols (pp cn : string) :
  keeps_synced (DocManager.listSymbols env pp cn).
Proof.
  unfold DocManager.listSymbols.
  apply keeps_bind; [apply keeps_checkDoc |].
  intros [|]; simpl; [| apply ends_keeps, ends_throw].
  apply keeps_bind; [apply keeps_get |].
  intros [c |]; [| apply ends_keeps, ends_throw].
  apply keeps_try_catch; [| intros _; apply ends_throw].
  apply keeps_bind; [| intros; apply keeps_ret].
  apply keeps_traverse. intros f p m acc.
  by apply (preserves_symbolHandler untouched untouched_quiet).
Qed.

Lemma keeps_searchDoc (pp cn query : string) (options : SearchOptions) :
  keeps_synced (DocManager.searchDoc env pp cn query options).
Proof.
  unfold DocManager.searchDoc.
  apply keeps_bind; [apply keeps_checkDoc |].
  intros [|]; simpl; [| apply ends_keeps, ends_throw].
  apply keeps_bind; [apply keeps_get |].
  intros [c |]; [| apply ends_keeps, ends_throw].
  apply keeps_try_catch; [| intros _; apply ends_throw].
  apply keeps_bind; [| intros; apply keeps_ret].
  apply keeps_traverse. intros f p m acc.
  by apply (preserves_searchHandler untouched (fun _ => True)
              untouched_quiet untouched_emit untouched_trans).
Qed.

Lemma keeps_getDocPath (pp cn : string) :
  keeps_synced (DocManager.getDocPath env pp cn).
Proof.
  unfold DocManager.getDocPath.
  apply keeps_bind; [apply keeps_get |]. intros [c |]; apply keeps_ret.
Qed.

End Synced.

(** X23. The store file mirrors the cache in memory whenever [buildDoc],
    [set] or [remove] returns; and when it did before the call, it still
    does whenever [checkDoc], [listSymbols], [searchDoc], [getDocPath] or
    [get] returns. *)
Theorem DocManager_store_in_step (env : Env) (pp cn query : string)
  (options : SearchOptions) (noDeps : bool) (e : DocCacheEntry) (w w' : World) :
  ((forall r, DocManager.buildDoc env pp cn noDeps w = (inr r, w') -> synced w')
   /\ (forall r, DocCache.set env e w = (inr r, w') -> synced w')
   /\ (forall r, DocCache.remove env pp cn w = (inr r, w') -> synced w'))
  /\ (synced w ->
      (forall r, DocManager.checkDoc env pp cn w = (inr r, w') -> synced w')
      /\ (forall r, DocManager.listSymbols env pp cn w = (inr r, w') -> synced w')
      /\ (forall r, DocManager.searchDoc env pp cn query options w = (inr r, w') ->
            synced w')
      /\ (forall r, DocManager.getDocPath env pp cn w = (inr r, w') -> synced w')
      /\ (forall r, DocCache.get env pp cn w = (inr r, w') -> synced w')).
Proof.
  split; [repeat split |].
  - intros r. apply ends_buildDoc.
  - intros r. apply ends_set.
  - intros r. apply ends_remove.
  - intros Hs. repeat split; intros r.
    + by apply keeps_checkDoc.
    + by apply keeps_listSymbols.
    + by apply keeps_searchDoc.
    + by apply keeps_getDocPath.
    + by apply keeps_get.
Qed.

Lemma DocManager_store_in_step_witness :
  synced (snd (DocManager.checkDoc (Demo.env false) "/proj" "my-crate" Demo.w0))
  /\ synced (snd (DocManager.buildDoc (Demo.env true) "/proj" "my-crate" false
                    Demo.w0)).
Proof.
  split.
  - destruct (DocManager_store_in_step (Demo.env false) "/proj" "my-crate"
                "needle" (mkOptions None) false
                (mkEntry "my-crate" "/proj" "" 0 false) Demo.w0
                (snd (DocManager.checkDoc (Demo.env false) "/proj" "my-crate"
                        Demo.w0))) as [_ Hkeep].
    destruct (Hkeep eq_refl) as (Hcheck & _).
    apply (Hcheck false). vm_compute. reflexivity.
  - destruct (DocManager_store_in_step (Demo.env true) "/proj" "my-crate"
                "needle" (mkOptions None) false
                (mkEntry "my-crate" "/proj" "" 0 false) Demo.w0
                (snd (DocManager.buildDoc (Demo.env true) "/proj" "my-crate"
                        false Demo.w0))) as [(Hbuild & _) _].
    apply (Hbuild "/tmp/t/doc/my-crate/index.html"). vm_compute. reflexivity.
Defined.

(** ** What is never run *)

Section Appends.

Context (good : Event -> Prop).

Lemma appends_same_trace {A} (m : M A) :
  (forall w, trace (snd (m w)) = trace w) -> preserves (appends good) m.
Proof. intros Ht w. exists []. by rewrite Ht, app_nil_r. Qed.

Lemma appends_quiet (w w' : World) :
  cache w' = cache w -> store w' = store w -> trace w' = trace w ->
  appends good w w'.
Proof. intros _ _ Ht. exists []. by rewrite Ht, app_nil_r. Qed.

Lemma appends_emit (ev : Event) (w : World) :
  good ev -> appends good w (snd (emit ev w)).
Proof. intros Hg. exists [ev]. split; [done | by constructor]. Qed.

Lemma appends_trans (a b c : World) :
  appends good a b -> appends good b c -> appends good a c.
Proof.
  intros (e1 & H1 & G1) (e2 & H2 & G2). exists (e1 ++ e2). split.
  - by rewrite H2, H1, app_assoc.
  - by apply Forall_app.
Qed.

Context (Hwrite : forall c, good (EvWriteStore c)).
Context (env : Env).

Lemma appends_save : preserves (appends good) (DocCache.save env).
Proof.
  intros w. unfold DocCache.save, try_catch, fs_writeStore.
  destruct (write_ok env (writes w)); simpl.
  - exists [EvWriteStore (cache w)]. split; [done | by constructor].
  - exists []. by rewrite app_nil_r.
Qed.

Lemma appends_get (pp cn : string) :
  preserves (appends good) (DocCache.get env pp cn).
Proof.
  unfold DocCache.get.
  apply (preserves_bind _ appends_trans); [by apply appends_same_trace |].
  intros c. destruct (c !! _); [| by apply appends_same_trace].
  apply (preserves_bind _ appends_trans); [by apply appends_same_trace |].
  intros now. destruct (_ >? _); [| by apply appends_same_trace].
  apply (preserves_bind _ appends_trans); [by apply appends_same_trace |].
  intros c'.
  apply (preserves_bind _ appends_trans); [by apply appends_same_trace |].
  intros _.
  apply (preserves_bind _ appends_trans); [apply appends_save |].
  intros _. by apply appends_same_trace.
Qed.

Lemma appends_set (e : DocCacheEntry) :
  preserves (appends good) (DocCache.set env e).
Proof.
  unfold DocCache.set.
  apply (preserves_bind _ appends_trans); [by apply appends_same_trace |].
  intros now.
  apply (preserves_bind _ appends_trans); [by apply appends_same_trace |].
  intros c.
  apply (preserves_bind _ appends_trans); [by apply appends_same_trace |].
  intros _. apply appends_save.
Qed.

End Appends.

(** X24. [checkDoc], [listSymbols], [searchDoc] and [getDocPath] never run
    the build command, whatever the state of the cache and of the file
    system; and [listSymbols] never reads the content of a file: it works
    from the listings of the directories alone. *)
Theorem DocManager_never_builds (env : Env) (pp cn query : string)
  (options : SearchOptions) (w : World) :
  appends not_build w (snd (DocManager.checkDoc env pp cn w))
  /\ appends names_only w (snd (DocManager.listSymbols env pp cn w))
  /\ appends not_build w (snd (DocManager.searchDoc env pp cn query options w))
  /\ appends not_build w (snd (DocManager.getDocPath env pp cn w)).
Proof.
  repeat split.
  - apply (preserves_checkDoc (appends not_build) not_build
             (appends_quiet not_build) (appends_emit not_build)
             (appends_trans not_build)); try done.
    + by apply appends_get.
    + intros. by apply appends_set.
  - apply (preserves_listSymbols (appends names_only) names_only
             (appends_quiet names_only) (appends_emit names_only)
             (appends_trans names_only)); try done.
    + by apply appends_get.
    + intros. by apply appends_set.
  - apply (preserves_searchDoc (appends not_build) not_build
             (appends_quiet not_build) (appends_emit not_build)
             (appends_trans not_build)); try done.
    + by apply appends_get.
    + intros. by apply appends_set.
  - apply (preserves_getDocPath (appends not_build)
             (appends_quiet not_build) (appends_trans not_build)).
    by apply appends_get.
Qed.
